(** * FFwebAPI: the job control plane, embedded and verified

    A shallow embedding of the Go sources of FFwebAPI:
    - [ffmpeg/cmd.go]     command validation ([SanitizeAndValidateArgs]),
    - [ffmpeg/runner.go]  the transcoder driver ([Runner.Run], [prepareInput]),
    - [task/task.go], [task/manager.go]  the task record and the manager
      ([processTask], [Cancel], [GetFilePath]),
    - [api/handler.go]    task admission ([handleCreateTask]).

    Go strings are byte strings; they are modelled by [string] (a list of
    8-bit [ascii] characters).  The file system is a finite set of existing
    paths, the task table a finite map from task ids to task records. *)

From Stdlib Require Import ZArith Bool Ascii String List DecimalString.
From stdpp Require Import base tactics option list strings gmap.

Local Open Scope string_scope.
Local Open Scope Z_scope.

(** ** Go library functions on strings *)

Module Strings.

(** [strings.IndexByte(s, c) >= 0] *)
Fixpoint ContainsByte (s : string) (c : ascii) : bool :=
  match s with
  | EmptyString => false
  | String a s' => if Ascii.eqb a c then true else ContainsByte s' c
  end.

(** [strings.ContainsAny(s, chars)]: some byte of [s] is one of [chars].
    All sets used by the program are ASCII, for which Go works bytewise. *)
Fixpoint ContainsAny (s chars : string) : bool :=
  match s with
  | EmptyString => false
  | String a s' => if ContainsByte chars a then true else ContainsAny s' chars
  end.

(** [strings.HasPrefix(s, p)] *)
Fixpoint HasPrefix (s p : string) : bool :=
  match p, s with
  | EmptyString, _ => true
  | String b p', String a s' => if Ascii.eqb a b then HasPrefix s' p' else false
  | String _ _, EmptyString => false
  end.

(** [strings.Contains(s, sub)] *)
Fixpoint Contains (s sub : string) : bool :=
  if HasPrefix s sub then true
  else match s with
       | EmptyString => false
       | String _ s' => Contains s' sub
       end.

(** Drop the first [n] bytes. *)
Fixpoint skip (n : nat) (s : string) : string :=
  match n, s with
  | O, _ => s
  | S n', String _ s' => skip n' s'
  | S _, EmptyString => EmptyString
  end.

(** [strings.Replace(s, old, new, 1)]: the leftmost occurrence of [old]
    is replaced, [s] is returned unchanged when there is none. *)
Fixpoint ReplaceFirst (s old new : string) : string :=
  if HasPrefix s old then new +:+ skip (String.length old) s
  else match s with
       | EmptyString => EmptyString
       | String a s' => String a (ReplaceFirst s' old new)
       end.

(** [%d] of an integer. *)
Definition itoa (z : Z) : string := NilZero.string_of_int (Z.to_int z).

End Strings.

(** ** Go error values *)

(** [context.Canceled] and [context.DeadlineExceeded] are two package-level
    values.  [fmt.Errorf] allocates a fresh value holding the formatted
    message ([Errorf]) and, with [%w], the wrapped error ([Wrapf]).  [Foreign] stands for the
    errors produced by libraries (process exit status, network, file
    system). *)
Inductive error : Type :=
| Canceled
| DeadlineExceeded
| Errorf (msg : string)
| Wrapf (msg : string) (wrapped : error)
| Foreign (msg : string).

Module Err.

(** [err.Error()] *)
Definition Error (e : error) : string :=
  match e with
  | Canceled => "context canceled"
  | DeadlineExceeded => "context deadline exceeded"
  | Errorf msg => msg
  | Wrapf msg _ => msg
  | Foreign msg => msg
  end.

(** [fmt.Errorf(prefix + "%w", e)] *)
Definition wrap (prefix : string) (e : error) : error :=
  Wrapf (prefix +:+ Error e) e.

(** [err == context.Canceled || err == context.DeadlineExceeded]:
    comparison of interface values, true only for the two package-level
    values themselves, never for a value that wraps them. *)
Definition is_ctx_err (e : error) : bool :=
  match e with
  | Canceled | DeadlineExceeded => true
  | _ => false
  end.

(** [errors.Is(err, target)] for the two context errors: follows the
    chain of wrapped errors.  The program does not call it. *)
Fixpoint indicates_ctx (e : error) : bool :=
  match e with
  | Canceled | DeadlineExceeded => true
  | Wrapf _ e' => indicates_ctx e'
  | _ => false
  end.

End Err.

(** ** ffmpeg/cmd.go *)

Module Cmd.
Import Strings.

Definition InputMediaPlaceholder : string := "${INPUT_MEDIA}".

(** The set of characters given to [strings.ContainsAny]. *)
Definition forbidden : string := "|&;`$()<>".

(** The loop of [SanitizeAndValidateArgs], with the local [hasInput]
    threaded through; [inr e] is the early [return] of an error.  (The
    test of the prefixes [-f] and [-map] that opens the loop body guards
    an empty block.) *)
Fixpoint validate_loop (args : list string) (hasInput : bool) : bool + error :=
  match args with
  | [] => inl hasInput
  | arg :: rest =>
      if String.eqb arg InputMediaPlaceholder then validate_loop rest true
      else if ContainsAny arg forbidden then
        inr (Errorf ("disallowed character found in argument: " +:+ arg))
      else validate_loop rest hasInput
  end.

(** [SanitizeAndValidateArgs]: [None] is the nil error. *)
Definition SanitizeAndValidateArgs (args : list string) : option error :=
  match validate_loop args false with
  | inr e => Some e
  | inl false =>
      Some (Errorf ("command must include the input placeholder '"
                      +:+ InputMediaPlaceholder +:+ "'"))
  | inl true => None
  end.

(** The two conditions of the specification, as a decidable property. *)
Definition is_sentinel (arg : string) : bool := String.eqb arg InputMediaPlaceholder.

Definition clean_token (arg : string) : bool :=
  is_sentinel arg || negb (ContainsAny arg forbidden).

End Cmd.

(** ** Go's [path/filepath] on a Unix host *)

Module Filepath.

Definition Separator : ascii := "/"%char.

(** [strings.Split(s, "/")] *)
Fixpoint split (s : string) : list string :=
  match s with
  | EmptyString => [EmptyString]
  | String a s' =>
      if Ascii.eqb a Separator then EmptyString :: split s'
      else match split s' with
           | [] => [String a EmptyString]
           | h :: t => String a h :: t
           end
  end.

Definition rooted (path : string) : bool :=
  match path with
  | String a _ => Ascii.eqb a Separator
  | EmptyString => false
  end.

(** The output buffer of [Clean]: [dotdot] counts the [..] elements that
    begin the output and cannot be backed over, [out] is the stack of
    the elements written after them, last one first. *)
Definition clean_step (rt : bool) (b : nat * list string) (c : string)
  : nat * list string :=
  if String.eqb c "" then b
  else if String.eqb c "." then b
  else if String.eqb c ".." then
    match snd b with
    | _ :: below => (fst b, below)
    | [] => if rt then b else (S (fst b), [])
    end
  else (fst b, c :: snd b).

Definition clean_buf (path : string) : nat * list string :=
  fold_left (clean_step (rooted path)) (split path) (O, []).

(** The path elements of the cleaned path. *)
Definition elements (path : string) : list string :=
  repeat ".." (fst (clean_buf path)) ++ rev (snd (clean_buf path)).

Definition join_elements (l : list string) : string := String.concat "/" l.

(** [filepath.Clean] *)
Definition Clean (path : string) : string :=
  if String.eqb path "" then "."
  else
    let body := join_elements (elements path) in
    if rooted path then "/" +:+ body
    else if String.eqb body "" then "." else body.

(** [filepath.Join] of two elements: empty elements before the first
    non-empty one are ignored, the rest is joined and cleaned. *)
Definition Join (a b : string) : string :=
  if negb (String.eqb a "") then Clean (a +:+ "/" +:+ b)
  else if negb (String.eqb b "") then Clean b
  else "".

Fixpoint trim_trailing (path : string) : string :=
  match path with
  | EmptyString => EmptyString
  | String a s' =>
      let r := trim_trailing s' in
      if Ascii.eqb a Separator && String.eqb r "" then EmptyString
      else String a r
  end.

(** [filepath.Base] *)
Definition Base (path : string) : string :=
  if String.eqb path "" then "."
  else
    let p := List.last (split (trim_trailing path)) "" in
    if String.eqb p "" then "/" else p.

(** [strip_prefix l1 l2] is what is left of [l2] after its prefix [l1]. *)
Fixpoint strip_prefix (l1 l2 : list string) : option (list string) :=
  match l1, l2 with
  | [], _ => Some l2
  | x :: l1', y :: l2' => if String.eqb x y then strip_prefix l1' l2' else None
  | _ :: _, [] => None
  end.

(** [inside dir p]: the path [p] denotes something strictly below the
    directory [dir]: both are rooted or both are not, and the elements of
    [p] are those of [dir] followed by at least one element, none of them
    [..]. *)
Definition inside (dir p : string) : bool :=
  Bool.eqb (rooted dir) (rooted p) &&
  match strip_prefix (elements dir) (elements p) with
  | Some (c :: rest) => forallb (fun x => negb (String.eqb x "..")) (c :: rest)
  | _ => false
  end.

(** The string holds no separator. *)
Definition no_sep (s : string) : bool := negb (Strings.ContainsByte s Separator).

(** A path element that [Clean] keeps as it is: not empty, not [.], not
    [..], without separator. *)
Definition normal (c : string) : bool :=
  negb (String.eqb c "") && negb (String.eqb c ".") && negb (String.eqb c "..")
  && no_sep c.

(** The elements that [Clean] writes: [..] or normal ones. *)
Definition written (c : string) : Prop := no_sep c = true /\ c <> "".

End Filepath.

(** ** task/task.go *)

Module Task.

Inductive TaskStatus : Type :=
| StatusQueued
| StatusProcessing
| StatusCompleted
| StatusFailed
| StatusCanceled.

(** The string behind a [Status] value ([%s]). *)
Definition status_string (s : TaskStatus) : string :=
  match s with
  | StatusQueued => "queued"
  | StatusProcessing => "processing"
  | StatusCompleted => "completed"
  | StatusFailed => "failed"
  | StatusCanceled => "canceled"
  end.

Definition status_eqb (a b : TaskStatus) : bool :=
  match a, b with
  | StatusQueued, StatusQueued | StatusProcessing, StatusProcessing
  | StatusCompleted, StatusCompleted | StatusFailed, StatusFailed
  | StatusCanceled, StatusCanceled => true
  | _, _ => false
  end.

(** Times are seconds since the epoch, [0] the zero [time.Time].  The
    cancel function of a task's context is named by the task id it was
    made for; [None] is the nil function. *)
Record Task : Type := mkTask {
  ID : string;
  Status : TaskStatus;
  Command : string;
  OutputExt : string;
  InputMedia : string;
  InputPath : string;
  OutputPath : string;
  DownloadURL : string;
  Error : string;
  CreatedAt : Z;
  StartedAt : Z;
  CompletedAt : Z;
  FFMpegOutput : string;
  cancelFunc : option string
}.

Definition set_Status (v : TaskStatus) (t : Task) : Task :=
  mkTask (ID t) v (Command t) (OutputExt t) (InputMedia t) (InputPath t)
    (OutputPath t) (DownloadURL t) (Error t) (CreatedAt t) (StartedAt t)
    (CompletedAt t) (FFMpegOutput t) (cancelFunc t).
Definition set_InputPath (v : string) (t : Task) : Task :=
  mkTask (ID t) (Status t) (Command t) (OutputExt t) (InputMedia t) v
    (OutputPath t) (DownloadURL t) (Error t) (CreatedAt t) (StartedAt t)
    (CompletedAt t) (FFMpegOutput t) (cancelFunc t).
Definition set_OutputPath (v : string) (t : Task) : Task :=
  mkTask (ID t) (Status t) (Command t) (OutputExt t) (InputMedia t) (InputPath t)
    v (DownloadURL t) (Error t) (CreatedAt t) (StartedAt t)
    (CompletedAt t) (FFMpegOutput t) (cancelFunc t).
Definition set_Error (v : string) (t : Task) : Task :=
  mkTask (ID t) (Status t) (Command t) (OutputExt t) (InputMedia t) (InputPath t)
    (OutputPath t) (DownloadURL t) v (CreatedAt t) (StartedAt t)
    (CompletedAt t) (FFMpegOutput t) (cancelFunc t).
Definition set_StartedAt (v : Z) (t : Task) : Task :=
  mkTask (ID t) (Status t) (Command t) (OutputExt t) (InputMedia t) (InputPath t)
    (OutputPath t) (DownloadURL t) (Error t) (CreatedAt t) v
    (CompletedAt t) (FFMpegOutput t) (cancelFunc t).
Definition set_CompletedAt (v : Z) (t : Task) : Task :=
  mkTask (ID t) (Status t) (Command t) (OutputExt t) (InputMedia t) (InputPath t)
    (OutputPath t) (DownloadURL t) (Error t) (CreatedAt t) (StartedAt t)
    v (FFMpegOutput t) (cancelFunc t).
Definition set_FFMpegOutput (v : string) (t : Task) : Task :=
  mkTask (ID t) (Status t) (Command t) (OutputExt t) (InputMedia t) (InputPath t)
    (OutputPath t) (DownloadURL t) (Error t) (CreatedAt t) (StartedAt t)
    (CompletedAt t) v (cancelFunc t).
Definition set_cancelFunc (v : option string) (t : Task) : Task :=
  mkTask (ID t) (Status t) (Command t) (OutputExt t) (InputMedia t) (InputPath t)
    (OutputPath t) (DownloadURL t) (Error t) (CreatedAt t) (StartedAt t)
    (CompletedAt t) (FFMpegOutput t) v.

Definition terminal (s : TaskStatus) : bool :=
  match s with
  | StatusCompleted | StatusFailed | StatusCanceled => true
  | StatusQueued | StatusProcessing => false
  end.

End Task.

(** ** The configuration and the outside world *)

(** The fields of [config.Config] that the embedded code reads. *)
Record Config : Type := mkConfig {
  FFBin : string;
  TempDir : string;
  MaxInputSize : Z;       (* int64 *)
  MaxConcurrency : Z
}.

(** An HTTP response: status code, status line and the bytes of the body. *)
Record Response : Type := mkResponse {
  StatusCode : Z;
  RStatus : string;
  Body : string
}.

(** A local file as [os.Open] finds it: the bytes that reading it
    delivers, the outcome of [Stat] and the size that [Stat] reports
    ([info.Size()]), which for a device, a pipe, a file under [/proc] or
    a file that is still written is not the number of bytes delivered. *)
Record LocalFile : Type := mkLocalFile {
  Data : string;
  StatErr : option error;
  Size : Z
}.

(** What one call of the driver meets outside the program: the verdict of
    [checkResources] on the host's CPU, memory and disk samples, the
    answers of the operating system and the network, the command tokeniser
    ([shlex.Split], a library) and the transcoder process.  The context
    handed to the driver acts through these answers; [CtxErr] is
    [ctx.Err()] at the time the driver returns.  [StatFault] is what the
    file handler meets: the paths on which [os.Stat] fails for a reason
    other than the path not existing (permission, a name that is too
    long). *)
Record World : Type := mkWorld {
  Gate : option error;                      (* checkResources *)
  Nonce : string;                           (* random part of the temp name *)
  CreateTempErr : option error;             (* os.CreateTemp *)
  Do : string -> error + Response;          (* http.DefaultClient.Do *)
  Open : string -> error + LocalFile;       (* os.Open *)
  CopyErr : option error;                   (* io.Copy *)
  CloseErr : option error;                  (* tmpFile.Close *)
  Split : string -> error + list string;    (* shlex.Split *)
  Exec : list string -> string * option error;  (* cmd.Run: output, error *)
  ExecWrites : bool;                        (* the process creates its output *)
  CtxErr : option error;
  StatFault : string -> option error        (* os.Stat, other than not-exist *)
}.

(** The files and directories that exist. *)
Abbreviation FS := (gset string).

(** Two's complement wrap-around of int64 arithmetic. *)
Definition wrap64 (z : Z) : Z := (z + 2 ^ 63) mod 2 ^ 64 - 2 ^ 63.

(** ** ffmpeg/runner.go *)

Module Runner.
Import Strings Task.

(** [io.LimitedReader{R: body, N: n}] read to its end: nothing when
    [n <= 0], otherwise at most [n] bytes. *)
Definition LimitedReader (body : string) (n : Z) : string :=
  if n <=? 0 then "" else String.substring 0 (Z.to_nat n) body.

(** [io.Copy(tmpFile, src)]: bytes written and error. *)
Definition Copy (w : World) (src : string) : Z * option error :=
  match CopyErr w with
  | Some e => (0, Some e)
  | None => (Z.of_nat (String.length src), None)
  end.

(** [os.Remove(name)], its error dropped as both callers do: a file or
    an empty directory is removed; a directory that still has an entry
    is not, and nothing happens to a path that does not exist. *)
Definition Remove (fs : FS) (name : string) : FS :=
  if bool_decide (set_Exists (fun q => Filepath.inside name q = true) fs) then fs
  else fs ∖ {[name]}.

(** The cleanup function returned by [prepareInput]: [None] is the
    function that does nothing, [Some name] closes and removes [name],
    the file that [os.CreateTemp] made. *)
Definition run_cleanup (cleanup : option string) (fs : FS) : FS :=
  match cleanup with
  | None => fs
  | Some name => fs ∖ {[name]}
  end.

(** The tail of [prepareInput]: close the temp file, return its name. *)
Definition close_and_return (w : World) (name : string)
  : string * option string * option error :=
  match CloseErr w with
  | Some e => ("", Some name, Some e)
  | None => (name, Some name, None)
  end.

(** [prepareInput]: the file system afterwards, and the triple of path,
    cleanup function and error that it returns. *)
Definition prepareInput (w : World) (cfg : Config) (fs : FS)
    (inputMedia taskID : string) : FS * (string * option string * option error) :=
  match CreateTempErr w with
  | Some e => (fs, ("", None, Some e))
  | None =>
      let name := TempDir cfg +:+ "/" +:+ taskID +:+ "_input_" +:+ Nonce w in
      let fs1 := {[name]} ∪ fs in
      let cleanup := Some name in
      if HasPrefix inputMedia "http://" || HasPrefix inputMedia "https://" then
        match Do w inputMedia with
        | inl e => (fs1, ("", cleanup, Some e))
        | inr resp =>
            if negb (StatusCode resp =? 200) then
              (fs1, ("", cleanup,
                     Some (Errorf ("failed to download file, status: " +:+ RStatus resp))))
            else
              let limitedReader :=
                LimitedReader (Body resp) (wrap64 (MaxInputSize cfg + 1)) in
              match Copy w limitedReader with
              | (_, Some e) =>
                  (fs1, ("", cleanup, Some (Err.wrap "failed to write downloaded file: " e)))
              | (written, None) =>
                  if written >? MaxInputSize cfg then
                    (fs1, ("", cleanup,
                           Some (Errorf ("input file size exceeds limit of "
                                           +:+ itoa (MaxInputSize cfg) +:+ " bytes"))))
                  else (fs1, close_and_return w name)
              end
        end
      else if HasPrefix inputMedia "data:" then
        (fs1, ("", cleanup, Some (Errorf "data URI inputs are not yet supported")))
      else
        match Open w inputMedia with
        | inl e => (fs1, ("", cleanup, Some (Err.wrap "could not open local input file: " e)))
        | inr srcFile =>
            match StatErr srcFile with
            | Some e => (fs1, ("", cleanup, Some e))
            | None =>
                let size := Size srcFile in
                if size >? MaxInputSize cfg then
                  (fs1, ("", cleanup,
                         Some (Errorf ("input file size " +:+ itoa size
                                         +:+ " exceeds limit of "
                                         +:+ itoa (MaxInputSize cfg) +:+ " bytes"))))
                else
                  match Copy w (Data srcFile) with
                  | (_, Some e) =>
                      (fs1, ("", cleanup, Some (Err.wrap "failed to copy local file: " e)))
                  | (_, None) => (fs1, close_and_return w name)
                  end
            end
        end
  end.

(** [SplitCommand] (ffmpeg/cmd.go) *)
Definition SplitCommand (w : World) (command : string) : error + list string :=
  match Split w command with
  | inl e => inl (Err.wrap "invalid command syntax: " e)
  | inr args => inr args
  end.

(** The substitution loop of [Run]: the first argument that contains the
    placeholder has its first occurrence replaced, the loop then breaks.
    [None] when [foundPlaceholder] stays false. *)
Fixpoint substitute (args : list string) (inputPath : string) : option (list string) :=
  match args with
  | [] => None
  | arg :: rest =>
      if Contains arg Cmd.InputMediaPlaceholder then
        Some (ReplaceFirst arg Cmd.InputMediaPlaceholder inputPath :: rest)
      else option_map (cons arg) (substitute rest inputPath)
  end.

(** What [Run] leaves behind and returns. *)
Record RunResult : Type := mkRunResult {
  files : FS;
  task : Task;
  logOutput : string;
  err : option error
}.

(** Steps 3 to 5 of [Run], after the input was staged. *)
Definition run_staged (w : World) (cfg : Config) (fs : FS) (t : Task)
    (inputPath : string) : RunResult :=
  match SplitCommand w (Command t) with
  | inl e => mkRunResult fs t "" (Some e)
  | inr args =>
      match substitute args inputPath with
      | None =>
          mkRunResult fs t ""
            (Some (Errorf ("could not find placeholder "
                             +:+ Cmd.InputMediaPlaceholder +:+ " in command")))
      | Some args1 =>
          let outputFilename := ID t +:+ "_output." +:+ OutputExt t in
          let outputPath := Filepath.Join (TempDir cfg) outputFilename in
          let t1 := set_OutputPath outputPath t in
          let args2 := (args1 ++ [outputPath])%list in
          let fs1 := if ExecWrites w then {[outputPath]} ∪ fs else fs in
          match Exec w args2 with
          | (outputLog, Some e) =>
              mkRunResult (Remove fs1 outputPath) (set_OutputPath "" t1) outputLog
                (Some (Err.wrap "ffmpeg execution failed: " e))
          | (outputLog, None) => mkRunResult fs1 t1 outputLog None
          end
      end
  end.

(** [Runner.Run].  The deferred [cleanupInput] runs on every return that
    follows the [defer] statement. *)
Definition Run (w : World) (cfg : Config) (fs : FS) (t : Task) : RunResult :=
  match Gate w with
  | Some e => mkRunResult fs t "" (Some (Err.wrap "insufficient system resources: " e))
  | None =>
      match prepareInput w cfg fs (InputMedia t) (ID t) with
      | (fs1, (_, _, Some e)) =>
          mkRunResult fs1 t "" (Some (Err.wrap "failed to prepare input: " e))
      | (fs1, (inputPath, cleanupInput, None)) =>
          let r := run_staged w cfg fs1 (set_InputPath inputPath t) inputPath in
          mkRunResult (run_cleanup cleanupInput (files r)) (task r) (logOutput r) (err r)
      end
  end.

End Runner.

(** ** task/manager.go *)

Module Manager.
Import Strings Task.

(** Where the executor goroutine of a task stands inside [processTask]. *)
Inductive Pc : Type :=
| PcEntered      (* slot acquired, goroutine started *)
| PcInstalled    (* [t.cancelFunc = cancel] done *)
| PcChecked      (* the test [t.Status == StatusCanceled] was false *)
| PcRunning.     (* status set to processing, [runner.Run] entered *)

(** A request that stands between two of its statements.  [Submit] and
    [Cancel] take no lock, so the statements of the worker loop, of the
    executors and of other requests can come in between. *)
Inductive Call : Type :=
| Sending (id : string)       (* [Submit]: the task is stored, the send on
                                 the queue is still to come *)
| CancelRead (id : string)    (* [Cancel]: [task.Status] was read as queued,
                                 nothing is written yet *)
| CancelMarked (id : string). (* [Cancel]: [task.Status] is written,
                                 [task.Error] is not yet *)

(** The manager and what it acts on.  The table maps an id to the task
    object stored under it; the queue, the executors and the handlers all
    hold that same object, so a field update is an update of the table
    entry.  [execs] are the executors holding a slot of [concurrencySem].
    [canceled] lists the contexts whose cancel function was called and
    [driverCalls] the tasks for which [runner.Run] was entered; [calls]
    are the requests that are under way. *)
Record Manager : Type := mkManager {
  cfg : Config;
  tasks : gmap string Task;
  taskQueue : list string;
  held : option string;
  execs : gmap string Pc;
  canceled : list string;
  driverCalls : list string;
  disk : FS;
  calls : list Call
}.

Definition NewManager (c : Config) (fs : FS) : Manager :=
  mkManager c ∅ [] None ∅ [] [] fs [].

Definition with_tasks (f : gmap string Task -> gmap string Task) (m : Manager) : Manager :=
  mkManager (cfg m) (f (tasks m)) (taskQueue m) (held m) (execs m)
    (canceled m) (driverCalls m) (disk m) (calls m).
Definition with_execs (f : gmap string Pc -> gmap string Pc) (m : Manager) : Manager :=
  mkManager (cfg m) (tasks m) (taskQueue m) (held m) (f (execs m))
    (canceled m) (driverCalls m) (disk m) (calls m).
Definition with_queue (q : list string) (h : option string) (m : Manager) : Manager :=
  mkManager (cfg m) (tasks m) q h (execs m) (canceled m) (driverCalls m) (disk m)
    (calls m).
Definition call_cancel (c : string) (m : Manager) : Manager :=
  mkManager (cfg m) (tasks m) (taskQueue m) (held m) (execs m)
    (c :: canceled m) (driverCalls m) (disk m) (calls m).
Definition enter_driver (id : string) (m : Manager) : Manager :=
  mkManager (cfg m) (tasks m) (taskQueue m) (held m) (execs m)
    (canceled m) (id :: driverCalls m) (disk m) (calls m).
Definition with_disk (fs : FS) (m : Manager) : Manager :=
  mkManager (cfg m) (tasks m) (taskQueue m) (held m) (execs m)
    (canceled m) (driverCalls m) fs (calls m).
Definition with_calls (l : list Call) (m : Manager) : Manager :=
  mkManager (cfg m) (tasks m) (taskQueue m) (held m) (execs m)
    (canceled m) (driverCalls m) (disk m) l.

(** A field update of the task object stored under [id]. *)
Definition update (id : string) (f : Task -> Task) (m : Manager) : Manager :=
  with_tasks (fun ts => match ts !! id with
                        | Some t => <[id := f t]> ts
                        | None => ts
                        end) m.

(** The task that [Submit] makes.  [uuid] is the value of
    [shortuuid.New()]; the clock is read twice, [now1] for the id and
    [now2] for [CreatedAt]. *)
Definition new_task (uuid : string) (now1 now2 : Z)
    (command inputMedia outputExt : string) : Task :=
  mkTask (uuid +:+ "_" +:+ itoa now1) StatusQueued command outputExt
    inputMedia "" "" "" "" now2 0 0 "" None.

(** [m.tasks.Store(t.ID, t)], the first statement of [Submit] after the
    task is made. *)
Definition store (t : Task) (m : Manager) : Manager :=
  with_tasks (insert (ID t) t) m.

(** [m.taskQueue <- t], when the queue (capacity 100) has room. *)
Definition send (id : string) (m : Manager) : Manager :=
  with_queue (taskQueue m ++ [id]) (held m) m.

(** [Submit] when nothing comes in between its statements and the send
    does not have to wait.  When the queue is full the send blocks,
    [None]: the task is stored by then and the call stays under way
    (the steps [step_store] and [step_send] below). *)
Definition Submit (uuid : string) (now1 now2 : Z) (command inputMedia outputExt : string)
    (m : Manager) : option (Manager * Task) :=
  let t := new_task uuid now1 now2 command inputMedia outputExt in
  if (100 <=? length (taskQueue m))%nat then None
  else Some (send (ID t) (store t m), t).

(** [Get] *)
Definition Get (m : Manager) (taskID : string) : option Task := tasks m !! taskID.

(** [Cancel] when nothing comes in between its statements. *)
Definition Cancel (m : Manager) (taskID : string) : Manager * option error :=
  match tasks m !! taskID with
  | None => (m, Some (Errorf ("task " +:+ taskID +:+ " not found")))
  | Some task =>
      match Status task with
      | StatusCompleted | StatusFailed | StatusCanceled =>
          (m, Some (Errorf ("cannot cancel task in state: "
                              +:+ status_string (Status task))))
      | StatusQueued =>
          (update taskID (fun t => set_Error "Canceled by user while in queue"
                                     (set_Status StatusCanceled t)) m, None)
      | StatusProcessing =>
          match cancelFunc task with
          | Some c => (call_cancel c m, None)
          | None =>
              (m, Some (Errorf ("task " +:+ ID task
                                  +:+ " is processing but has no cancellation handle")))
          end
      end
  end.

(** The error of [os.Stat]: nil for a path that exists, the not-exist
    error for one that does not, unless the call fails for another
    reason. *)
Inductive StatError : Type :=
| StatOk
| StatNotExist
| StatOther (e : error).

Definition Stat (w : World) (fs : FS) (name : string) : StatError :=
  match StatFault w name with
  | Some e => StatOther e
  | None => if bool_decide (name ∈ fs) then StatOk else StatNotExist
  end.

(** [os.IsNotExist(err)] *)
Definition IsNotExist (r : StatError) : bool :=
  match r with
  | StatNotExist => true
  | StatOk | StatOther _ => false
  end.

(** [GetFilePath]: path and error. *)
Definition GetFilePath (w : World) (m : Manager) (filename : string)
  : string * option error :=
  let cleanFilename := Filepath.Base filename in
  if negb (String.eqb cleanFilename filename) then ("", Some (Errorf "invalid filename"))
  else
    let fullPath := Filepath.Join (TempDir (cfg m)) cleanFilename in
    if IsNotExist (Stat w (disk m) fullPath) then ("", Some (Errorf "file not found"))
    else (fullPath, None).

Section WithRunner.

(** The [FFmpegRunner] the manager was built with. *)
Variable runner : World -> Config -> FS -> Task -> Runner.RunResult.

(** [processTask], statement by statement. *)

(** [t.cancelFunc = cancel] *)
Definition pt_install (id : string) (m : Manager) : Manager :=
  update id (set_cancelFunc (Some id)) m.

(** [t.Status == StatusCanceled] *)
Definition pt_check (id : string) (m : Manager) : bool :=
  match tasks m !! id with
  | Some t => status_eqb (Status t) StatusCanceled
  | None => false
  end.

(** Status and start time are set and stored, [runner.Run] is entered. *)
Definition pt_begin (now : Z) (id : string) (m : Manager) : Manager :=
  enter_driver id
    (update id (fun t => set_StartedAt now (set_Status StatusProcessing t)) m).

(** The classification of the driver's result. *)
Definition classify (e : option error) (t : Task) : Task :=
  match e with
  | Some e =>
      if Err.is_ctx_err e then
        set_Error "Task was canceled or timed out" (set_Status StatusCanceled t)
      else set_Error (Err.Error e) (set_Status StatusFailed t)
  | None => set_Status StatusCompleted t
  end.

(** [runner.Run] returns; the outcome is recorded on the task. *)
Definition pt_finish (w : World) (now : Z) (id : string) (m : Manager) : Manager :=
  match tasks m !! id with
  | None => m
  | Some t =>
      let r := runner w (cfg m) (disk m) t in
      let t1 := set_FFMpegOutput (Runner.logOutput r) (Runner.task r) in
      with_disk (Runner.files r)
        (with_tasks (insert id (set_CompletedAt now (classify (Runner.err r) t1))) m)
  end.

(** The function returns: the deferred [cancel()] runs and the
    goroutine releases its slot. *)
Definition pt_return (id : string) (m : Manager) : Manager :=
  with_execs (delete id) (call_cancel id m).

(** [processTask] run from entry to return with nothing in between;
    [now1] and [now2] are the two readings of the clock. *)
Definition processTask (w : World) (now1 now2 : Z) (id : string) (m : Manager)
  : Manager :=
  let m1 := pt_install id m in
  if pt_check id m1 then pt_return id m1
  else pt_return id (pt_finish w now2 id (pt_begin now1 id m1)).

(** One atomic action of the manager: a request that nothing
    interrupts, one statement of a request that is interrupted, or one
    statement of the worker loop or of an executor.  [Submit] is
    interrupted between the store and the send, [Cancel] of a queued task
    between the test of the status and each of its two writes; the
    other branches of [Cancel] write nothing to the task.  The ids that
    [shortuuid] makes are new. *)
Inductive step (m : Manager) : Manager -> Prop :=
| step_submit uuid now1 now2 command inputMedia outputExt m' t :
    Submit uuid now1 now2 command inputMedia outputExt m = Some (m', t) ->
    tasks m !! ID t = None ->
    step m m'
| step_store uuid now1 now2 command inputMedia outputExt t :
    t = new_task uuid now1 now2 command inputMedia outputExt ->
    tasks m !! ID t = None ->
    step m (with_calls (Sending (ID t) :: calls m) (store t m))
| step_send id l1 l2 :
    calls m = (l1 ++ Sending id :: l2)%list ->
    (length (taskQueue m) < 100)%nat ->
    step m (with_calls (l1 ++ l2) (send id m))
| step_cancel id :
    step m (fst (Cancel m id))
| step_cancel_read id t :
    tasks m !! id = Some t -> Status t = StatusQueued ->
    step m (with_calls (CancelRead id :: calls m) m)
| step_cancel_status id l1 l2 :
    calls m = (l1 ++ CancelRead id :: l2)%list ->
    step m (with_calls (l1 ++ CancelMarked id :: l2)
              (update id (set_Status StatusCanceled) m))
| step_cancel_error id l1 l2 :
    calls m = (l1 ++ CancelMarked id :: l2)%list ->
    step m (with_calls (l1 ++ l2)
              (update id (set_Error "Canceled by user while in queue") m))
| step_receive id q :
    taskQueue m = id :: q -> held m = None ->
    step m (with_queue q (Some id) m)
| step_spawn id :
    held m = Some id ->
    Z.of_nat (size (execs m)) < MaxConcurrency (cfg m) ->
    step m (with_execs (insert id PcEntered) (with_queue (taskQueue m) None m))
| step_install id :
    execs m !! id = Some PcEntered ->
    step m (with_execs (insert id PcInstalled) (pt_install id m))
| step_drop id :
    execs m !! id = Some PcInstalled -> pt_check id m = true ->
    step m (pt_return id m)
| step_pass id :
    execs m !! id = Some PcInstalled -> pt_check id m = false ->
    step m (with_execs (insert id PcChecked) m)
| step_begin now id :
    execs m !! id = Some PcChecked ->
    step m (with_execs (insert id PcRunning) (pt_begin now id m))
| step_finish w now id :
    execs m !! id = Some PcRunning ->
    step m (pt_return id (pt_finish w now id m)).

(** The states the manager can be in. *)
Inductive reachable : Manager -> Prop :=
| reach_new c fs : reachable (NewManager c fs)
| reach_step m m' : reachable m -> step m m' -> reachable m'.

(** Any number of actions. *)
Inductive steps (m : Manager) : Manager -> Prop :=
| steps_refl : steps m m
| steps_next m1 m2 : steps m m1 -> step m1 m2 -> steps m m2.

End WithRunner.

End Manager.

(** ** api/handler.go *)

Module Handler.
Import Task.

Record TaskRequest : Type := mkTaskRequest {
  rCommand : string;      (* binding:"required" *)
  rInputMedia : string;
  rOutputExt : string     (* binding:"required" *)
}.

(** [handleCreateTask] on a request whose JSON body was decoded to [req]:
    the HTTP status and, when accepted, the manager with the new task.
    A required field fails the binding when it is empty.  [None] when
    [Submit] blocks on the full queue. *)
Definition handleCreateTask (w : World) (uuid : string) (now1 now2 : Z)
    (req : TaskRequest) (m : Manager.Manager)
  : option (Z * Manager.Manager * option Task) :=
  if String.eqb (rCommand req) "" || String.eqb (rOutputExt req) "" then
    Some (400, m, None)
  else
    match Runner.SplitCommand w (rCommand req) with
    | inl _ => Some (400, m, None)
    | inr splitArgs =>
        match Cmd.SanitizeAndValidateArgs splitArgs with
        | Some _ => Some (400, m, None)
        | None =>
            match Manager.Submit uuid now1 now2 (rCommand req) (rInputMedia req)
                    (rOutputExt req) m with
            | None => None
            | Some (m', t) => Some (202, m', Some t)
            end
        end
    end.

End Handler.

(** ** Notions of the specification

    What the properties below are stated with: the specification's own
    wording of an operation, where it is compared with the code, and the
    names it gives to outcomes of the code. *)

Module Spec.
Import Strings Cmd Runner.

(** The characters that [validate] rejects. *)
Definition metacharacters : list ascii :=
  ["|"; "&"; ";"; "`"; "$"; "("; ")"; "<"; ">"]%char.

(** The substitution as the specification words it: the first token
    equal to the placeholder becomes the input path; [None] (a command
    error) when no token equals it. *)
Fixpoint substitute_exact (args : list string) (inputPath : string)
  : option (list string) :=
  match args with
  | [] => None
  | arg :: rest =>
      if String.eqb arg InputMediaPlaceholder then Some (inputPath :: rest)
      else option_map (cons arg) (substitute_exact rest inputPath)
  end.

(** The error and the path returned by [prepareInput]. *)
Definition stage_err (r : FS * (string * option string * option error)) : option error :=
  snd (snd r).
Definition stage_path (r : FS * (string * option string * option error)) : string :=
  fst (fst (snd r)).

(** The input is fetched with HTTP. *)
Definition is_url (inputMedia : string) : bool :=
  HasPrefix inputMedia "http://" || HasPrefix inputMedia "https://".

(** The largest int64. *)
Definition MaxInt64 : Z := 9223372036854775807.

(** Nothing fails around the transfer itself: the temp file can be
    created, written and closed. *)
Definition quiet (w : World) : Prop :=
  CreateTempErr w = None /\ CopyErr w = None /\ CloseErr w = None.

(** [inputMedia] is a URL whose GET the world answers with status 200
    and the body [body]. *)
Definition downloads (w : World) (inputMedia body : string) : Prop :=
  is_url inputMedia = true /\
  exists resp, Do w inputMedia = inr resp /\ StatusCode resp = 200 /\ Body resp = body.

(** [inputMedia] is the path of a local file that can be opened, for
    which [Stat] reports [size] bytes and whose reading delivers
    [body]. *)
Definition opens (w : World) (inputMedia : string) (size : Z) (body : string) : Prop :=
  is_url inputMedia = false /\ HasPrefix inputMedia "data:" = false /\
  exists f, Open w inputMedia = inr f /\ StatErr f = None /\
            Size f = size /\ Data f = body.

(** The two errors that report an input of [size] bytes over the size
    limit: the one of the download, which does not tell the size, and
    the one of the local file. *)
Definition InputTooLarge (cfg : Config) (size : Z) (e : error) : Prop :=
  e = Errorf ("input file size exceeds limit of "
                +:+ itoa (MaxInputSize cfg) +:+ " bytes") \/
  e = Errorf ("input file size " +:+ itoa size
                +:+ " exceeds limit of " +:+ itoa (MaxInputSize cfg) +:+ " bytes").

(** [sub] occurs in [s] at offset [n]. *)
Definition occurs_at (sub s : string) (n : nat) : Prop :=
  exists a b, s = a +:+ sub +:+ b /\ String.length a = n.

(** The error of a command without placeholder. *)
Definition CommandError : error :=
  Errorf "could not find placeholder ${INPUT_MEDIA} in command".

(** The transcoder was started with the arguments [args], and what it
    printed and returned is what [r] reports. *)
Definition ran_with (w : World) (args : list string) (r : RunResult) : Prop :=
  logOutput r = fst (Exec w args) /\
  err r = option_map (Err.wrap "ffmpeg execution failed: ") (snd (Exec w args)).

(** The error that reports a refused download. *)
Definition UpstreamError (resp : Response) : error :=
  Errorf ("failed to download file, status: " +:+ RStatus resp).

(** The name of the output file. *)
Definition output_name (id ext : string) : string := id +:+ "_output." +:+ ext.

(** ASCII letters and digits. *)
Definition is_alnum (c : ascii) : bool :=
  let n := nat_of_ascii c in
  ((48 <=? n) && (n <=? 57) || (65 <=? n) && (n <=? 90) || (97 <=? n) && (n <=? 122))%nat.

Fixpoint alnum (s : string) : bool :=
  match s with
  | EmptyString => true
  | String c s' => is_alnum c && alnum s'
  end.

(** [t'] is [t] but for its status and its error text. *)
Definition same_but_outcome (t t' : Task.Task) : Prop :=
  Task.ID t' = Task.ID t /\ Task.Command t' = Task.Command t /\
  Task.OutputExt t' = Task.OutputExt t /\ Task.InputMedia t' = Task.InputMedia t /\
  Task.InputPath t' = Task.InputPath t /\ Task.OutputPath t' = Task.OutputPath t /\
  Task.DownloadURL t' = Task.DownloadURL t /\ Task.CreatedAt t' = Task.CreatedAt t /\
  Task.StartedAt t' = Task.StartedAt t /\ Task.CompletedAt t' = Task.CompletedAt t /\
  Task.FFMpegOutput t' = Task.FFMpegOutput t /\ Task.cancelFunc t' = Task.cancelFunc t.

(** Nothing that exists lies below the path [p]: [p] is a file or an
    empty directory, or does not exist. *)
Definition no_entries (fs : FS) (p : string) : Prop :=
  forall q, q ∈ fs -> Filepath.inside p q = false.

(** The error with which [Cancel] refuses a task in a terminal state. *)
Definition IllegalState (s : Task.TaskStatus) : error :=
  Errorf ("cannot cancel task in state: " +:+ Task.status_string s).

(** A request that the create-task handler lets through to [Submit]: both
    required fields are there, the command can be tokenised and the
    argument vector is valid. *)
Definition admissible (w : World) (command outputExt : string) : Prop :=
  command <> "" /\ outputExt <> "" /\
  exists args, Split w command = inr args /\ SanitizeAndValidateArgs args = None.

End Spec.

(** ** Concrete runs

    A configuration and a few outside worlds on which the code is run. *)

Module Scenario.
Import Task.

(** Temp root [/tmp/ffwebapi_1], inputs of at most three bytes, one slot. *)
Definition cfg0 : Config := mkConfig "ffmpeg" "/tmp/ffwebapi_1" 3 1.

(** The temp root and its parent exist. *)
Definition disk0 : FS := {[ "/tmp"; "/tmp/ffwebapi_1" ]}.

(** A world in which every request is answered with [code] and [body],
    every local file holds [body], commands without quotes are split at
    blanks and the transcoder does what [exec] says. *)
Definition world (code : Z) (status body : string)
    (exec : string * option error) (ctx : option error) : World :=
  mkWorld None "42" None
    (fun _ => inr (mkResponse code status body))
    (fun _ => inr (mkLocalFile body None (Z.of_nat (String.length body))))
    None None
    (fun command => inr (String.words command))
    (fun _ => exec) true ctx (fun _ => None).

(** Everything succeeds. *)
Definition happy (body : string) : World :=
  world 200 "200 OK" body ("frame=1", None) None.

(** Everything succeeds and the transcoder prints its arguments. *)
Definition echo : World :=
  mkWorld None "42" None
    (fun _ => inr (mkResponse 200 "200 OK" "abc"))
    (fun _ => inr (mkLocalFile "abc" None 3))
    None None
    (fun command => inr (String.words command))
    (fun args => (String.concat " " args, None)) true None (fun _ => None).

(** Every local file reports [size] bytes and delivers [body]. *)
Definition reporting (size : Z) (body : string) : World :=
  mkWorld None "42" None
    (fun _ => inr (mkResponse 200 "200 OK" body))
    (fun _ => inr (mkLocalFile body None size))
    None None
    (fun command => inr (String.words command))
    (fun _ => ("frame=1", None)) true None (fun _ => None).

(** The server answers 204. *)
Definition no_content : World :=
  world 204 "204 No Content" "" ("frame=1", None) None.

(** The context of the task is canceled while the transcoder runs: the
    process is killed and [cmd.Run] reports [e]. *)
Definition canceled_during_run (e : error) : World :=
  world 200 "200 OK" "abc" ("", Some e) (Some Canceled).

(** A queued task. *)
Definition queued (id command inputMedia outputExt : string) : Task :=
  mkTask id StatusQueued command outputExt inputMedia "" "" "" "" 0 0 0 "" None.

Definition task1 : Task := queued "id1" "-i ${INPUT_MEDIA}" "/media/a.mp4" "mp4".

(** A task whose input is a [data:] URI: staging creates the temp file and
    then fails. *)
Definition data_task : Task :=
  queued "id1" "-i ${INPUT_MEDIA}" "data:video/mp4;base64,AAAA" "mp4".

(** A manager whose table holds [t], queued. *)
Definition manager_with (t : Task) : Manager.Manager :=
  Manager.mkManager cfg0 {[ ID t := t ]} [ID t] None ∅ [] [] disk0 [].

(** A new manager after one submission: [shortuuid.New()] gave [u], the
    clock read 0 both times. *)
Definition submitted_task : Task := queued "u_0" "-i ${INPUT_MEDIA}" "/media/a.mp4" "mp4".

Definition submitted : Manager.Manager :=
  Manager.with_queue ["u_0"] None
    (Manager.with_tasks (insert "u_0" submitted_task) (Manager.NewManager cfg0 disk0)).

(** The life of that task with one executor: received by the worker loop,
    executor started, handle installed, test passed, marked processing at
    time 1, driver returned at time 2 in a world where everything
    succeeds. *)
Definition received : Manager.Manager := Manager.with_queue [] (Some "u_0") submitted.
Definition spawned : Manager.Manager :=
  Manager.with_execs (insert "u_0" Manager.PcEntered)
    (Manager.with_queue (Manager.taskQueue received) None received).
Definition installed : Manager.Manager :=
  Manager.with_execs (insert "u_0" Manager.PcInstalled) (Manager.pt_install "u_0" spawned).
Definition checked : Manager.Manager :=
  Manager.with_execs (insert "u_0" Manager.PcChecked) installed.
Definition running : Manager.Manager :=
  Manager.with_execs (insert "u_0" Manager.PcRunning) (Manager.pt_begin 1 "u_0" checked).
Definition completed : Manager.Manager :=
  Manager.pt_return "u_0" (Manager.pt_finish Runner.Run (happy "abc") 2 "u_0" running).

(** The same submission to a manager without a slot, the task then
    received by the worker loop. *)
Definition cfg_no_slot : Config := mkConfig "ffmpeg" "/tmp/ffwebapi_1" 3 0.

Definition stuck : Manager.Manager :=
  Manager.with_queue [] (Some "u_0")
    (Manager.send "u_0" (Manager.store submitted_task (Manager.NewManager cfg_no_slot disk0))).

Definition completed_task : Task :=
  mkTask "u_0" StatusCompleted "-i ${INPUT_MEDIA}" "mp4" "/media/a.mp4"
    "/tmp/ffwebapi_1/u_0_input_42" "/tmp/ffwebapi_1/u_0_output.mp4" "" ""
    0 1 2 "frame=1" (Some "u_0").

End Scenario.

(** ** Invariants of the manager *)

Module Inv.
Import Task Manager.

(** The tasks that a [Submit] under way has stored and not sent yet. *)
Definition sending_ids (l : list Call) : list string :=
  flat_map (fun c => match c with Sending id => [id] | _ => [] end) l.

Definition sending (m : Manager) : list string := sending_ids (calls m).

(** Every task that the queue, the worker loop, an executor or a
    [Submit] under way holds is in the table. *)
Definition held_in_table (m : Manager) : Prop :=
  forall id, id ∈ taskQueue m \/ held m = Some id \/ is_Some (execs m !! id) \/
             id ∈ sending m ->
             is_Some (tasks m !! id).

(** An executor past its first statement has installed the handle. *)
Definition installed (m : Manager) : Prop :=
  forall id pc t, execs m !! id = Some pc -> pc <> PcEntered ->
                  tasks m !! id = Some t -> cancelFunc t <> None.

(** A task without handle is queued or was canceled in the queue. *)
Definition nil_handle_waiting (m : Manager) : Prop :=
  forall id t, tasks m !! id = Some t -> cancelFunc t = None ->
               Status t = StatusQueued \/ Status t = StatusCanceled.

Definition handle_inv (m : Manager) : Prop :=
  held_in_table m /\ installed m /\ nil_handle_waiting m.

(** The queue, the worker loop and the executors hold a task at most once. *)
Definition held_once (m : Manager) : Prop :=
  NoDup (taskQueue m) /\
  (forall id, held m = Some id -> id ∉ taskQueue m) /\
  (forall id, is_Some (execs m !! id) -> (id ∉ taskQueue m) /\ held m <> Some id).

(** A task on which no executor has started has no handle. *)
Definition waiting_nil (m : Manager) : Prop :=
  forall id t, id ∈ taskQueue m \/ held m = Some id \/ execs m !! id = Some PcEntered \/
               id ∈ sending m ->
               tasks m !! id = Some t -> cancelFunc t = None.

(** A task that is still to be sent is sent by one [Submit] only, and
    neither the queue, the worker loop nor an executor has it. *)
Definition unsent (m : Manager) : Prop :=
  NoDup (sending m) /\
  (forall id, id ∈ sending m ->
     (id ∉ taskQueue m) /\ held m <> Some id /\ execs m !! id = None).

Definition queue_inv (m : Manager) : Prop := held_once m /\ waiting_nil m /\ unsent m.

(** The task [id] is canceled and no executor has let it past the test at
    the head of [processTask]. *)
Definition canceled_waiting (id : string) (m : Manager) : Prop :=
  (exists t, tasks m !! id = Some t /\ Status t = StatusCanceled) /\
  execs m !! id <> Some PcChecked /\ execs m !! id <> Some PcRunning.

End Inv.

(** ** More invariants of the manager *)

Module Sched.
Import Task Manager.

#[global] Instance TaskStatus_eq_dec : EqDecision TaskStatus.
Proof. solve_decision. Defined.

(** The tasks of the table that are processing. *)
Definition processing (m : Manager) : gmap string Task :=
  filter (fun kt => Status (snd kt) = StatusProcessing) (tasks m).

(** The executors never take more slots than the semaphore has. *)
Definition slots_bounded (m : Manager) : Prop :=
  Z.of_nat (size (execs m)) <= Z.max 0 (MaxConcurrency (cfg m)).

(** A processing task is in the hands of an executor that is inside the
    driver. *)
Definition processing_running (m : Manager) : Prop :=
  forall id t, tasks m !! id = Some t -> Status t = StatusProcessing ->
               execs m !! id = Some PcRunning.

(** A task for which the driver was entered is in the table, has left the
    queue and the worker loop, no [Submit] is still to send it, and its
    executor, if it still runs, is inside the driver. *)
Definition called_once (m : Manager) : Prop :=
  NoDup (driverCalls m) /\
  (forall id, id ∈ driverCalls m ->
     is_Some (tasks m !! id) /\ (id ∉ taskQueue m) /\ held m <> Some id /\
     (id ∉ Inv.sending m) /\
     (execs m !! id = None \/ execs m !! id = Some PcRunning)).

(** A task for which the driver was entered is no longer queued. *)
Definition called_started (m : Manager) : Prop :=
  forall id t, id ∈ driverCalls m -> tasks m !! id = Some t -> Status t <> StatusQueued.

(** The executor of the task has come and gone: the driver was entered
    for it and [processTask] has returned. *)
Definition returned (id : string) (m : Manager) : Prop :=
  id ∈ driverCalls m /\ execs m !! id = None.

(** No [Cancel] of the task stands between its test and its writes. *)
Definition no_cancel_under_way (id : string) (m : Manager) : Prop :=
  (CancelRead id ∉ calls m) /\ (CancelMarked id ∉ calls m).

(** The fields of a task that are written once, when it is submitted. *)
Definition same_request (t t' : Task) : Prop :=
  ID t' = ID t /\ Command t' = Command t /\ InputMedia t' = InputMedia t /\
  OutputExt t' = OutputExt t /\ CreatedAt t' = CreatedAt t.

End Sched.

(** ** api/handler.go, the other handlers *)

Module Api.
Import Strings Task.

Definition set_DownloadURL (v : string) (t : Task) : Task :=
  mkTask (ID t) (Status t) (Command t) (OutputExt t) (InputMedia t) (InputPath t)
    (OutputPath t) v (Error t) (CreatedAt t) (StartedAt t)
    (CompletedAt t) (FFMpegOutput t) (cancelFunc t).

(** [strings.TrimSuffix(s, "/")]: one trailing slash is removed. *)
Fixpoint TrimSuffixSlash (s : string) : string :=
  match s with
  | EmptyString => EmptyString
  | String a s' =>
      if Ascii.eqb a "/" && String.eqb s' "" then EmptyString
      else String a (TrimSuffixSlash s')
  end.

(** [buildDownloadURL].  [baseURL] is [cfg.BaseURL], [tls] tells whether
    [c.Request.TLS] is set and [host] is [c.Request.Host]. *)
Definition buildDownloadURL (baseURL : string) (tls : bool) (host : string)
    (t : Task) : Task :=
  if negb (status_eqb (Status t) StatusCompleted) || String.eqb (OutputPath t) "" then t
  else
    let baseURL :=
      if String.eqb baseURL "" then
        (if tls then "https" else "http") +:+ "://" +:+ host
      else baseURL in
    let baseURL := TrimSuffixSlash baseURL in
    let filename := Filepath.Base (OutputPath t) in
    set_DownloadURL (baseURL +:+ "/api/v1/files/" +:+ filename) t.

(** [handleGetTaskStatus]: HTTP status and the task written to the
    response; the download URL is written into the task object of the
    table. *)
Definition handleGetTaskStatus (baseURL : string) (tls : bool) (host : string)
    (m : Manager.Manager) (taskID : string) : Z * Manager.Manager * option Task :=
  match Manager.Get m taskID with
  | None => (404, m, None)
  | Some t =>
      let t' := buildDownloadURL baseURL tls host t in
      (200, Manager.with_tasks (insert taskID t') m, Some t')
  end.

(** [handleCancelTask]: HTTP status and the manager afterwards. *)
Definition handleCancelTask (m : Manager.Manager) (taskID : string)
  : Z * Manager.Manager :=
  match Manager.Cancel m taskID with
  | (m', Some _) => (400, m')
  | (m', None) => (200, m')
  end.

(** What [handleGetFile] does with a request: it answers 404 with the
    text of the error, or hands the path to [c.File], that is to
    [http.ServeFile], which makes the answer (the file, a redirect or an
    error of its own). *)
Inductive FileAnswer : Type :=
| NotFound (code : Z) (message : string)
| File (filePath : string).

(** [handleGetFile] *)
Definition handleGetFile (w : World) (m : Manager.Manager) (filename : string)
  : FileAnswer :=
  match Manager.GetFilePath w m filename with
  | (_, Some e) => NotFound 404 (Err.Error e)
  | (filePath, None) => File filePath
  end.

End Api.

(** ** task/manager.go, the cleanup loop *)

Module Reaper.
Import Task Manager.

(** The test of one tick of [cleanupLoop] on a task, [lifetime] being
    [cfg.OutputLocalLifetime] and [now] the clock: the task is completed
    and [time.Since(task.CompletedAt) > lifetime]. *)
Definition expired (lifetime now : Z) (t : Task) : bool :=
  status_eqb (Status t) StatusCompleted && (now - CompletedAt t >? lifetime).

(** What the callback of [m.tasks.Range] does to the files for one task. *)
Definition reap (lifetime now : Z) (fs : FS) (t : Task) : FS :=
  if expired lifetime now t then
    if negb (String.eqb (OutputPath t) "") then Runner.Remove fs (OutputPath t) else fs
  else fs.

(** One tick of [cleanupLoop] with nothing else acting: the callback is
    run on the tasks in the order [order] in which [m.tasks.Range]
    presents them, an enumeration of the table that [sync.Map] does not
    specify. *)
Definition sweep (lifetime now : Z) (order : list Task) (m : Manager) : Manager :=
  with_disk (foldl (reap lifetime now) (disk m) order) m.

(** [order] enumerates the table: every task once. *)
Definition enumerates (order : list Task) (m : Manager) : Prop :=
  order ≡ₚ (map_to_list (tasks m)).*2.

End Reaper.

(** ** api/middleware.go *)

Module Auth.

(** The fields of [config.Config] read by the middleware. *)
Record AuthConfig : Type := mkAuthConfig {
  AuthEnable : bool;
  AuthKey : string
}.

(** [strings.Split(s, " ")] *)
Fixpoint split_space (s : string) : list string :=
  match s with
  | EmptyString => [EmptyString]
  | String a s' =>
      if Ascii.eqb a " " then EmptyString :: split_space s'
      else match split_space s' with
           | [] => [String a EmptyString]
           | h :: t => String a h :: t
           end
  end.

(** [strings.ToLower] on the ASCII letters.  Go also rewrites bytes
    outside ASCII, but never to one of the letters of [bearer], the only
    string the result is compared with. *)
Definition lower (c : ascii) : ascii :=
  let n := nat_of_ascii c in
  if ((65 <=? n) && (n <=? 90))%nat then ascii_of_nat (n + 32) else c.

Fixpoint ToLower (s : string) : string :=
  match s with
  | EmptyString => EmptyString
  | String a s' => String (lower a) (ToLower s')
  end.

(** What the middleware does with a request: [Next] passes it on,
    [Abort] answers with the status and the error text. *)
Inductive verdict : Type :=
| Next
| Abort (code : Z) (message : string).

(** [AuthMiddleware] on a request whose [Authorization] header is
    [authHeader] (empty when the header is absent). *)
Definition AuthMiddleware (cfg : AuthConfig) (authHeader : string) : verdict :=
  if negb (AuthEnable cfg) then Next
  else if String.eqb authHeader "" then Abort 401 "Authorization header required"
  else
    let parts := split_space authHeader in
    if negb (Nat.eqb (length parts) 2)
       || negb (String.eqb (ToLower (nth 0 parts "")) "bearer")
    then Abort 401 "Invalid Authorization header format"
    else if negb (String.eqb (nth 1 parts "") (AuthKey cfg)) then Abort 401 "Invalid token"
    else Next.

(** The string holds no blank. *)
Definition no_space (s : string) : bool := negb (Strings.ContainsByte s " ").

End Auth.

(** * Properties *)

(** ** Strings *)

Section StringFacts.
Import Strings.

Lemma ContainsByte_In (s : string) (c : ascii) :
  ContainsByte s c = true <-> In c (list_ascii_of_string s).
Proof.
  induction s as [|a s IH]; simpl.
  - split; [discriminate | tauto].
  - destruct (Ascii.eqb_spec a c) as [->|Hne].
    + split; auto.
    + rewrite IH. split; [auto | intros [H|H]; [congruence | exact H]].
Qed.

Lemma ContainsAny_false (s chars : string) :
  ContainsAny s chars = false <->
  forall c, In c (list_ascii_of_string s) -> ~ In c (list_ascii_of_string chars).
Proof.
  induction s as [|a s IH]; simpl.
  - split; [intros _ c [] | reflexivity].
  - destruct (ContainsByte chars a) eqn:Hc.
    + apply ContainsByte_In in Hc. split; [discriminate|].
      intros H. exfalso. apply (H a); auto.
    + rewrite IH. split.
      * intros H c [<-|Hin]; [|auto].
        rewrite <- ContainsByte_In, Hc. discriminate.
      * intros H c Hin. apply H. auto.
Qed.

Lemma append_cons (a : ascii) (s t : string) : String a s +:+ t = String a (s +:+ t).
Proof. reflexivity. Qed.

Lemma append_nil_l (t : string) : "" +:+ t = t.
Proof. reflexivity. Qed.

Lemma HasPrefix_app (p s : string) : HasPrefix (p +:+ s) p = true.
Proof.
  induction p as [|b p IH]; simpl; [by destruct s|].
  by rewrite Ascii.eqb_refl.
Qed.

Lemma HasPrefix_inv (s p : string) :
  HasPrefix s p = true -> exists r, s = p +:+ r.
Proof.
  revert s. induction p as [|b p IH]; intros s H.
  - exists s. reflexivity.
  - destruct s as [|a s]; simpl in H; [discriminate|].
    destruct (Ascii.eqb_spec a b) as [->|]; [|discriminate].
    destruct (IH _ H) as [r ->]. by exists r.
Qed.

Lemma skip_app (p s : string) : skip (String.length p) (p +:+ s) = s.
Proof. induction p; simpl; [by destruct s | done]. Qed.

(** A string that contains [sub] contains each byte of [sub]. *)
Lemma Contains_byte (s sub : string) (c : ascii) :
  Contains s sub = true -> In c (list_ascii_of_string sub) ->
  In c (list_ascii_of_string s).
Proof.
  induction s as [|a s IH]; cbn [Contains].
  - destruct sub; [intros _ [] | discriminate].
  - destruct (HasPrefix (String a s) sub) eqn:Hp.
    + intros _ Hin. apply HasPrefix_inv in Hp as [r Hr].
      change (In c (list_ascii_of_string (String a s))). rewrite Hr.
      clear -Hin. induction sub as [|b sub IHs]; simpl in *; [done|].
      destruct Hin; auto.
    + intros H Hin. right. auto.
Qed.

End StringFacts.

(** ** The command validator *)

Section Validator.
Import Strings Cmd Spec.


Lemma forbidden_metacharacters : list_ascii_of_string forbidden = metacharacters.
Proof. reflexivity. Qed.

Lemma clean_token_cases (arg : string) :
  clean_token arg = true <->
  (arg <> InputMediaPlaceholder -> ContainsAny arg forbidden = false).
Proof.
  unfold clean_token, is_sentinel.
  destruct (String.eqb_spec arg InputMediaPlaceholder) as [->|Hne]; simpl.
  - split; [intros _ H; by destruct H | done].
  - destruct (ContainsAny arg forbidden); simpl; split; auto.
    intros H. symmetry. by apply H.
Qed.

(** The loop returns normally exactly on clean argument vectors, and then
    tells whether the placeholder was seen. *)
Lemma validate_loop_inl (args : list string) (h b : bool) :
  validate_loop args h = inl b <->
  forallb clean_token args = true /\ b = h || existsb is_sentinel args.
Proof.
  revert h. induction args as [|arg rest IH]; intros h; simpl.
  - rewrite orb_false_r. split; [intros H; by injection H as -> | by intros [_ ->]].
  - unfold clean_token, is_sentinel.
    destruct (String.eqb arg InputMediaPlaceholder); simpl.
    + rewrite IH, orb_true_r. tauto.
    + destruct (ContainsAny arg forbidden); simpl.
      * split; [discriminate | intros [? _]; discriminate].
      * apply IH.
Qed.

Lemma validate_ok (args : list string) :
  SanitizeAndValidateArgs args = None <->
  forallb clean_token args = true /\ existsb is_sentinel args = true.
Proof.
  unfold SanitizeAndValidateArgs.
  destruct (validate_loop args false) as [b|e] eqn:H.
  - apply validate_loop_inl in H as [Hc Hb]. simpl in Hb. subst b.
    destruct (existsb is_sentinel args); split; try done; intros []; done.
  - split; [discriminate|]. intros [Hc He].
    assert (validate_loop args false = inl (false || existsb is_sentinel args))
      by (apply validate_loop_inl; done).
    congruence.
Qed.

(** C1: [SanitizeAndValidateArgs] returns the nil error exactly when some
    token of the argument vector equals the placeholder [${INPUT_MEDIA}]
    and every other token contains none of the characters
    [| & ; ` $ ( ) < >]. *)
Theorem validate_ok_iff (argv : list string) :
  SanitizeAndValidateArgs argv = None <->
  In InputMediaPlaceholder argv /\
  (forall tok, In tok argv -> tok <> InputMediaPlaceholder ->
     forall c, In c (list_ascii_of_string tok) -> ~ In c metacharacters).
Proof.
  rewrite validate_ok, forallb_forall, existsb_exists.
  rewrite <- forbidden_metacharacters.
  split.
  - intros [Hall [x [Hin Hx]]]. split.
    + apply String.eqb_eq in Hx. by subst x.
    + intros tok Ht Hne. apply ContainsAny_false.
      by apply clean_token_cases; [apply Hall|].
  - intros [Hin Hall]. split.
    + intros tok Ht. apply clean_token_cases. intros Hne.
      apply ContainsAny_false. by apply Hall.
    + exists InputMediaPlaceholder. split; [done|]. apply String.eqb_refl.
Qed.

End Validator.

(** ** The placeholder substitution of the driver *)

Section Substitution.
Import Strings Cmd Spec Task.


Lemma append_nil_r (s : string) : s +:+ "" = s.
Proof.
  induction s as [|a s IH]; [reflexivity|].
  change (String a (s +:+ "") = String a s). by rewrite IH.
Qed.

Lemma ReplaceFirst_placeholder (p : string) :
  ReplaceFirst InputMediaPlaceholder InputMediaPlaceholder p = p.
Proof. cbn. apply append_nil_r. Qed.

(** A token that contains the placeholder contains a dollar sign, so the
    validator lets it through only if it is the placeholder itself. *)
Lemma clean_token_Contains (arg : string) :
  clean_token arg = true -> Contains arg InputMediaPlaceholder = true ->
  arg = InputMediaPlaceholder.
Proof.
  intros Hc Hsub.
  destruct (String.eqb_spec arg InputMediaPlaceholder) as [|Hne]; [done|].
  exfalso.
  pose proof (proj1 (clean_token_cases arg) Hc Hne) as Hany.
  rewrite ContainsAny_false in Hany.
  apply (Hany "$"%char).
  - apply (Contains_byte arg InputMediaPlaceholder); [done|]. cbn. tauto.
  - cbn. tauto.
Qed.

Lemma substitute_clean (argv : list string) (p : string) :
  forallb clean_token argv = true ->
  Runner.substitute argv p = substitute_exact argv p.
Proof.
  induction argv as [|arg rest IH]; [done|].
  cbn [forallb Runner.substitute substitute_exact].
  intros [Hc Hrest]%andb_true_iff.
  destruct (String.eqb_spec arg InputMediaPlaceholder) as [->|Hne].
  - by rewrite ReplaceFirst_placeholder.
  - destruct (Contains arg InputMediaPlaceholder) eqn:Hsub.
    + by apply clean_token_Contains in Hsub.
    + by rewrite IH.
Qed.

Lemma substitute_exact_first (argv : list string) (p : string) :
  existsb is_sentinel argv = true ->
  exists l1 l2,
    argv = (l1 ++ InputMediaPlaceholder :: l2)%list /\
    ~ In InputMediaPlaceholder l1 /\
    substitute_exact argv p = Some (l1 ++ p :: l2)%list.
Proof.
  induction argv as [|arg rest IH]; [discriminate|].
  cbn [existsb substitute_exact]. unfold is_sentinel at 1.
  destruct (String.eqb_spec arg InputMediaPlaceholder) as [->|Hne].
  - intros _. exists [], rest. simpl. tauto.
  - simpl. intros (l1 & l2 & -> & Hnot & ->)%IH.
    exists (arg :: l1), l2. simpl. split; [done|]. split; [|done].
    intros [?|?]; [congruence | done].
Qed.

(** The driver fails to substitute exactly when no token contains the
    placeholder as a substring. *)
Lemma substitute_None (argv : list string) (p : string) :
  Runner.substitute argv p = None <->
  forall tok, In tok argv -> Contains tok InputMediaPlaceholder = false.
Proof.
  induction argv as [|arg rest IH]; cbn [Runner.substitute].
  - split; [intros _ ? [] | done].
  - destruct (Contains arg InputMediaPlaceholder) eqn:Hsub.
    + split; [discriminate|]. intros H.
      specialize (H arg (or_introl eq_refl)). congruence.
    + destruct (Runner.substitute rest p) eqn:Hr; simpl.
      * split; [discriminate|]. intros H.
        assert (Some l = None) as Habs; [|discriminate].
        apply IH. intros tok Hin. apply H. by right.
      * split; [|done]. intros _ tok [<-|Hin]; [done|]. by apply IH.
Qed.

(** [strings.Contains] finds an occurrence exactly when there is one. *)
Lemma Contains_occurs (s sub : string) :
  Contains s sub = true <-> exists n, occurs_at sub s n.
Proof.
  split.
  - induction s as [|c s IH]; cbn [Contains].
    + destruct (HasPrefix "" sub) eqn:Hp; [|discriminate].
      intros _. apply HasPrefix_inv in Hp as [r Hr].
      exists 0%nat, "", r. by rewrite append_nil_l.
    + destruct (HasPrefix (String c s) sub) eqn:Hp.
      * intros _. apply HasPrefix_inv in Hp as [r Hr].
        exists 0%nat, "", r. by rewrite append_nil_l.
      * intros (n & a & r & -> & Hn)%IH.
        exists (S n), (String c a), r. rewrite append_cons. simpl. by rewrite Hn.
  - intros (n & a & r & -> & _). clear n.
    induction a as [|c a IH].
    + rewrite append_nil_l.
      pose proof (HasPrefix_app sub r) as Hp.
      destruct (sub +:+ r); cbn [Contains]; by rewrite Hp.
    + rewrite append_cons. cbn [Contains]. rewrite IH.
      by destruct (HasPrefix _ sub).
Qed.

(** [strings.Replace(s, old, new, 1)] rewrites the occurrence that no
    other occurrence precedes. *)
Lemma ReplaceFirst_first (pre post old new : string) :
  (forall k, (k < String.length pre)%nat -> ~ occurs_at old (pre +:+ old +:+ post) k) ->
  ReplaceFirst (pre +:+ old +:+ post) old new = pre +:+ new +:+ post.
Proof.
  induction pre as [|c pre IH]; intros Hfirst.
  - rewrite !append_nil_l.
    pose proof (HasPrefix_app old post) as Hp. pose proof (skip_app old post) as Hs.
    destruct (old +:+ post) eqn:E; cbn [ReplaceFirst]; by rewrite Hp, Hs.
  - rewrite !append_cons. cbn [ReplaceFirst].
    destruct (HasPrefix (String c (pre +:+ old +:+ post)) old) eqn:Hp.
    + exfalso. apply HasPrefix_inv in Hp as [r Hr].
      apply (Hfirst 0%nat); [simpl; lia|].
      exists "", r. rewrite append_nil_l, append_cons. done.
    + f_equal. apply IH. intros k Hk (a & r & Heq & Hlen).
      apply (Hfirst (S k)); [simpl; lia|].
      exists (String c a), r. rewrite !append_cons, Heq. simpl. by rewrite Hlen.
Qed.

(** The loop of the driver stops at the first token in which the
    placeholder occurs. *)
Lemma substitute_first (l1 l2 : list string) (tok p : string) :
  (forall x, In x l1 -> Contains x InputMediaPlaceholder = false) ->
  Contains tok InputMediaPlaceholder = true ->
  Runner.substitute (l1 ++ tok :: l2) p
  = Some (l1 ++ ReplaceFirst tok InputMediaPlaceholder p :: l2)%list.
Proof.
  intros Hl1 Htok. induction l1 as [|x l1 IH]; cbn [Runner.substitute app].
  - by rewrite Htok.
  - rewrite (Hl1 x) by (by left). rewrite IH; [done|]. intros y Hy. apply Hl1. by right.
Qed.

(** What [Run] returns once the input is staged and the command is split:
    the command error when the loop finds nothing, the outcome of the
    transcoder on the substituted arguments and the output path
    otherwise. *)
Lemma Run_staged (w : World) (cfg : Config) (fs fs1 : FS) (t : Task)
    (inputPath : string) (cleanup : option string) (argv : list string) :
  Gate w = None ->
  Runner.prepareInput w cfg fs (Task.InputMedia t) (Task.ID t)
  = (fs1, (inputPath, cleanup, None)) ->
  Split w (Task.Command t) = inr argv ->
  match Runner.substitute argv inputPath with
  | None => Runner.err (Runner.Run w cfg fs t) = Some CommandError /\
            Runner.logOutput (Runner.Run w cfg fs t) = ""
  | Some args =>
      ran_with w (args ++ [Filepath.Join (TempDir cfg)
                             (output_name (Task.ID t) (Task.OutputExt t))])
        (Runner.Run w cfg fs t)
  end.
Proof.
  intros Hg Hp Hs. unfold Runner.Run, Runner.run_staged, Runner.SplitCommand, ran_with.
  rewrite Hg, Hp. cbn [Task.Command Task.set_InputPath]. rewrite Hs.
  destruct (Runner.substitute argv inputPath) as [args|]; [|done].
  cbn [Task.ID Task.OutputExt]. unfold output_name.
  by destruct (Exec w _) as [outputLog [e|]].
Qed.

(** C2, as the code has it.  With the input staged at [inputPath] and the
    command split into [argv]: [Run] fails with the command error exactly
    when the placeholder occurs in no token.  Otherwise it starts the
    transcoder on [argv] with one change, followed by the output path: in
    the first token in which the placeholder occurs, its first occurrence
    is replaced by [inputPath], whatever stands before and after it in
    that token.  For an [argv] that the validator accepts the token is the
    placeholder itself: exactly the first token equal to the placeholder
    becomes [inputPath] and every other token stays as it is. *)
Theorem Run_substitutes_first_occurrence (w : World) (cfg : Config) (fs fs1 : FS)
    (t : Task.Task) (inputPath : string) (cleanup : option string)
    (argv : list string) :
  Gate w = None ->
  Runner.prepareInput w cfg fs (Task.InputMedia t) (Task.ID t)
  = (fs1, (inputPath, cleanup, None)) ->
  Split w (Task.Command t) = inr argv ->
  (Runner.err (Runner.Run w cfg fs t) = Some CommandError <->
   forall tok n, In tok argv -> ~ occurs_at InputMediaPlaceholder tok n) /\
  (forall l1 pre post l2,
     argv = (l1 ++ (pre +:+ InputMediaPlaceholder +:+ post) :: l2)%list ->
     (forall tok n, In tok l1 -> ~ occurs_at InputMediaPlaceholder tok n) ->
     (forall k, (k < String.length pre)%nat ->
                ~ occurs_at InputMediaPlaceholder
                    (pre +:+ InputMediaPlaceholder +:+ post) k) ->
     ran_with w
       (l1 ++ (pre +:+ inputPath +:+ post) :: l2
           ++ [Filepath.Join (TempDir cfg) (output_name (Task.ID t) (Task.OutputExt t))])
       (Runner.Run w cfg fs t)) /\
  (SanitizeAndValidateArgs argv = None ->
   exists l1 l2,
     argv = (l1 ++ InputMediaPlaceholder :: l2)%list /\
     ~ In InputMediaPlaceholder l1 /\
     ran_with w
       (l1 ++ inputPath :: l2
           ++ [Filepath.Join (TempDir cfg) (output_name (Task.ID t) (Task.OutputExt t))])
       (Runner.Run w cfg fs t)).
Proof.
  intros Hg Hp Hs.
  pose proof (Run_staged w cfg fs fs1 t inputPath cleanup argv Hg Hp Hs) as HR.
  assert (forall l, (forall tok n, In tok l -> ~ occurs_at InputMediaPlaceholder tok n) <->
                    (forall tok, In tok l -> Contains tok InputMediaPlaceholder = false))
    as Hnone.
  { intros l. split.
    - intros H tok Hin. destruct (Contains tok InputMediaPlaceholder) eqn:Hc; [|done].
      apply Contains_occurs in Hc as [n Hn]. by destruct (H tok n).
    - intros H tok n Hin Hocc. specialize (H tok Hin).
      assert (Contains tok InputMediaPlaceholder = true) as Hc
        by (apply Contains_occurs; eauto).
      congruence. }
  split; [|split].
  - rewrite Hnone, <- (substitute_None argv inputPath).
    destruct (Runner.substitute argv inputPath) as [args|].
    + destruct HR as [_ He]. rewrite He. split; [|discriminate].
      destruct (snd (Exec w _)); unfold Err.wrap, CommandError; simpl; discriminate.
    + by destruct HR.
  - intros l1 pre post l2 -> Hl1 Hfirst.
    rewrite substitute_first in HR.
    + rewrite ReplaceFirst_first in HR by done. by rewrite <- app_assoc in HR.
    + by apply Hnone.
    + apply Contains_occurs. by exists (String.length pre), pre, post.
  - intros [Hclean Hex]%validate_ok.
    rewrite (substitute_clean argv inputPath Hclean) in HR.
    destruct (substitute_exact_first argv inputPath Hex) as (l1 & l2 & Heq & Hnot & Hsub).
    rewrite Hsub in HR. exists l1, l2. by rewrite <- app_assoc in HR.
Qed.

End Substitution.

Section SubstitutionRuns.
Import Strings Cmd Spec Runner Scenario.

Lemma occurs_at_skip (sub s : string) (n : nat) :
  occurs_at sub s n -> HasPrefix (skip n s) sub = true.
Proof.
  intros (a & r & -> & <-). rewrite skip_app. apply HasPrefix_app.
Qed.

Lemma Run_substitutes_first_occurrence_witness :
  ran_with echo
    ["-i"; "file:/tmp/ffwebapi_1/id1_input_42.raw"; "-an";
     "/tmp/ffwebapi_1/id1_output.mp4"]
    (Run echo cfg0 disk0
       (queued "id1" "-i file:${INPUT_MEDIA}.raw -an" "/media/a.mp4" "mp4")).
Proof.
  destruct (Run_substitutes_first_occurrence echo cfg0 disk0
              ({["/tmp/ffwebapi_1/id1_input_42"]} ∪ disk0)
              (queued "id1" "-i file:${INPUT_MEDIA}.raw -an" "/media/a.mp4" "mp4")
              "/tmp/ffwebapi_1/id1_input_42" (Some "/tmp/ffwebapi_1/id1_input_42")
              ["-i"; "file:${INPUT_MEDIA}.raw"; "-an"] eq_refl eq_refl eq_refl)
    as (_ & Hb & _).
  apply (Hb ["-i"] "file:" ".raw" ["-an"] eq_refl).
  - intros tok n [<-|[]] Hocc. apply occurs_at_skip in Hocc.
    destruct n as [|[|[|n]]]; discriminate.
  - intros k Hk Hocc. apply occurs_at_skip in Hocc.
    destruct k as [|[|[|[|[|k]]]]]; [discriminate..|simpl in Hk; lia].
Defined.

(** C2 as stated fails: a token that merely contains the placeholder is
    rewritten inside and the transcoder is started, although no token
    equals the placeholder; and such a token is preferred to a later one
    that does equal it. *)
Lemma substitute_not_exact :
  Split echo "-i file:${INPUT_MEDIA}" = inr ["-i"; "file:${INPUT_MEDIA}"] /\
  ~ In InputMediaPlaceholder ["-i"; "file:${INPUT_MEDIA}"] /\
  err (Run echo cfg0 disk0
         (queued "id1" "-i file:${INPUT_MEDIA}" "/media/a.mp4" "mp4")) = None /\
  logOutput (Run echo cfg0 disk0
               (queued "id1" "-i file:${INPUT_MEDIA}" "/media/a.mp4" "mp4"))
  = "-i file:/tmp/ffwebapi_1/id1_input_42 /tmp/ffwebapi_1/id1_output.mp4" /\
  logOutput (Run echo cfg0 disk0
               (queued "id1" "file:${INPUT_MEDIA} ${INPUT_MEDIA}" "/media/a.mp4" "mp4"))
  = "file:/tmp/ffwebapi_1/id1_input_42 ${INPUT_MEDIA} /tmp/ffwebapi_1/id1_output.mp4".
Proof.
  split; [reflexivity|]. split; [|repeat split; reflexivity].
  intros [H|[H|[]]]; discriminate.
Qed.

End SubstitutionRuns.

(** ** Input staging *)

Section Staging.
Import Strings Runner Spec.


Lemma length_substring (n : nat) (s : string) :
  String.length (String.substring 0 n s) = Nat.min n (String.length s).
Proof.
  revert n. induction s as [|a s IH]; intros [|n]; simpl; auto.
Qed.

Lemma wrap64_small (z : Z) : - 2 ^ 63 <= z < 2 ^ 63 -> wrap64 z = z.
Proof. intros H. unfold wrap64. rewrite Z.mod_small; lia. Qed.

(** Bytes that reach the temp file through the limited reader. *)
Lemma LimitedReader_length (body : string) (n : Z) :
  Z.of_nat (String.length (LimitedReader body n))
  = Z.max 0 (Z.min n (Z.of_nat (String.length body))).
Proof.
  unfold LimitedReader. destruct (Z.leb_spec n 0); [simpl; lia|].
  rewrite length_substring. lia.
Qed.

Lemma gtb_true (a b : Z) : b < a -> (a >? b) = true.
Proof. intros H. by apply Z.gtb_lt. Qed.

Lemma gtb_false (a b : Z) : a <= b -> (a >? b) = false.
Proof. intros H. rewrite Z.gtb_ltb. by apply Z.ltb_ge. Qed.

Lemma prepareInput_url (w : World) (cfg : Config) (fs : FS)
    (inputMedia taskID : string) (resp : Response) :
  quiet w -> is_url inputMedia = true -> Do w inputMedia = inr resp ->
  StatusCode resp = 200 -> MaxInputSize cfg < MaxInt64 ->
  stage_err (prepareInput w cfg fs inputMedia taskID)
  = if Z.of_nat (String.length (Body resp)) >? MaxInputSize cfg
    then Some (Errorf ("input file size exceeds limit of "
                         +:+ itoa (MaxInputSize cfg) +:+ " bytes"))
    else None.
Proof.
  intros (Hc & Hcp & Hcl) Hurl Hdo Hcode Hmax.
  unfold prepareInput, is_url in *. rewrite Hc, Hurl, Hdo, Hcode. simpl negb. cbv iota.
  unfold Copy. rewrite Hcp.
  rewrite LimitedReader_length.
  unfold MaxInt64 in Hmax.
  destruct (Z_lt_le_dec (MaxInputSize cfg + 1) (- 2 ^ 63)) as [Hneg|Hge].
  - (* a limit below the int64 range cannot occur; the inequalities
       still decide the comparison *)
    rewrite !gtb_true by lia. reflexivity.
  - rewrite wrap64_small by lia.
    destruct (Z_lt_le_dec (MaxInputSize cfg) (Z.of_nat (String.length (Body resp)))).
    + rewrite !gtb_true by lia. reflexivity.
    + rewrite !gtb_false by lia.
      unfold close_and_return. rewrite Hcl. reflexivity.
Qed.

Lemma prepareInput_local (w : World) (cfg : Config) (fs : FS)
    (inputMedia taskID : string) (f : LocalFile) :
  quiet w -> is_url inputMedia = false -> HasPrefix inputMedia "data:" = false ->
  Open w inputMedia = inr f -> StatErr f = None ->
  stage_err (prepareInput w cfg fs inputMedia taskID)
  = if Size f >? MaxInputSize cfg
    then Some (Errorf ("input file size " +:+ itoa (Size f)
                         +:+ " exceeds limit of "
                         +:+ itoa (MaxInputSize cfg) +:+ " bytes"))
    else None.
Proof.
  intros (Hc & Hcp & Hcl) Hurl Hdata Hopen Hstat.
  unfold prepareInput, is_url in *. rewrite Hc, Hurl, Hdata, Hopen, Hstat.
  destruct (Size f >? MaxInputSize cfg); [reflexivity|].
  unfold Copy, close_and_return. rewrite Hcp, Hcl. reflexivity.
Qed.

(** C7, as the code has it.  A download is measured by the bytes that
    arrive: a body of exactly [MaxInputSize] bytes is staged, a longer one
    is refused as too large.  A local file is measured by the size that
    [Stat] reports and then copied without bound: a reported size of
    exactly [MaxInputSize] is staged, one of [MaxInputSize + 1] is refused
    as too large, and a file whose reported size is within the limit is
    staged however many bytes it delivers.  ([MaxInputSize + 1] has to be
    an int64.) *)
Theorem staging_size_boundary (w : World) (cfg : Config) (fs : FS)
    (inputMedia taskID body : string) (size : Z) :
  MaxInputSize cfg < MaxInt64 -> quiet w ->
  (downloads w inputMedia body ->
   (Z.of_nat (String.length body) = MaxInputSize cfg ->
    stage_err (prepareInput w cfg fs inputMedia taskID) = None) /\
   (MaxInputSize cfg < Z.of_nat (String.length body) ->
    exists e, stage_err (prepareInput w cfg fs inputMedia taskID) = Some e /\
              InputTooLarge cfg (Z.of_nat (String.length body)) e)) /\
  (opens w inputMedia size body ->
   (size = MaxInputSize cfg ->
    stage_err (prepareInput w cfg fs inputMedia taskID) = None) /\
   (size = MaxInputSize cfg + 1 ->
    exists e, stage_err (prepareInput w cfg fs inputMedia taskID) = Some e /\
              InputTooLarge cfg size e) /\
   (size <= MaxInputSize cfg ->
    stage_err (prepareInput w cfg fs inputMedia taskID) = None)).
Proof.
  intros Hmax Hq. split.
  - intros (Hurl & resp & Hdo & Hcode & <-).
    rewrite (prepareInput_url w cfg fs inputMedia taskID resp) by done.
    split; intros Hlen.
    + by rewrite gtb_false by lia.
    + rewrite gtb_true by lia.
      eexists. split; [reflexivity|]. by left.
  - intros (Hurl & Hdata & f & Hopen & Hstat & <- & _).
    rewrite (prepareInput_local w cfg fs inputMedia taskID f) by done.
    split; [|split]; intros Hlen.
    + by rewrite gtb_false by lia.
    + rewrite gtb_true by lia.
      eexists. split; [reflexivity|]. by right.
    + by rewrite gtb_false by lia.
Qed.

End Staging.

Section StagingRuns.
Import Strings Runner Spec Scenario.

Lemma staging_size_boundary_witness :
  stage_err (prepareInput (happy "abc") cfg0 ∅ "http://host/a.mp4" "id1") = None /\
  stage_err (prepareInput (happy "abc") cfg0 ∅ "/media/a.mp4" "id1") = None /\
  (exists e,
     stage_err (prepareInput (happy "abcd") cfg0 ∅ "http://host/a.mp4" "id1") = Some e /\
     InputTooLarge cfg0 4 e) /\
  (exists e,
     stage_err (prepareInput (happy "abcd") cfg0 ∅ "/media/a.mp4" "id1") = Some e /\
     InputTooLarge cfg0 4 e).
Proof.
  assert (forall body, quiet (happy body)) as Hq by (intros body; repeat split).
  assert (forall body, downloads (happy body) "http://host/a.mp4" body) as Hd.
  { intros body. split; [reflexivity|]. eexists. repeat split. }
  assert (forall body,
            opens (happy body) "/media/a.mp4" (Z.of_nat (String.length body)) body) as Ho.
  { intros body. split; [reflexivity|]. split; [reflexivity|]. eexists. repeat split. }
  destruct (staging_size_boundary (happy "abc") cfg0 ∅ "http://host/a.mp4" "id1" "abc" 3
              eq_refl (Hq "abc")) as [Hu3 _].
  destruct (staging_size_boundary (happy "abc") cfg0 ∅ "/media/a.mp4" "id1" "abc" 3
              eq_refl (Hq "abc")) as [_ Hl3].
  destruct (staging_size_boundary (happy "abcd") cfg0 ∅ "http://host/a.mp4" "id1" "abcd" 4
              eq_refl (Hq "abcd")) as [Hu4 _].
  destruct (staging_size_boundary (happy "abcd") cfg0 ∅ "/media/a.mp4" "id1" "abcd" 4
              eq_refl (Hq "abcd")) as [_ Hl4].
  split; [|split; [|split]].
  - exact (proj1 (Hu3 (Hd "abc")) eq_refl).
  - exact (proj1 (Hl3 (Ho "abc")) eq_refl).
  - exact (proj2 (Hu4 (Hd "abcd")) eq_refl).
  - exact (proj1 (proj2 (Hl4 (Ho "abcd"))) eq_refl).
Defined.

(** C7 as stated fails for local paths: there is no bounded reader on
    that branch.  A local file for which [Stat] reports no bytes, as a
    file under [/proc] or a pipe does, is staged although it delivers one
    byte more than the limit allows. *)
Lemma staging_local_by_reported_size :
  opens (reporting 0 "abcd") "/proc/self/environ" 0 "abcd" /\
  Z.of_nat (String.length "abcd") = MaxInputSize cfg0 + 1 /\
  stage_err (prepareInput (reporting 0 "abcd") cfg0 ∅ "/proc/self/environ" "id1") = None.
Proof.
  split; [|split; reflexivity].
  split; [reflexivity|]. split; [reflexivity|]. eexists. repeat split.
Qed.

(** C8 as stated fails: a 204 response is in the 2xx range and staging
    refuses it with the upstream error. *)
Lemma staging_rejects_204 :
  exists resp,
    Do no_content "http://host/a.mp4" = inr resp /\
    200 <= StatusCode resp < 300 /\
    stage_err (prepareInput no_content cfg0 ∅ "http://host/a.mp4" "id1")
    = Some (UpstreamError resp).
Proof.
  eexists. split; [reflexivity|]. split; [simpl; lia | reflexivity].
Qed.

End StagingRuns.

Section Upstream.
Import Strings Runner Spec.

(** C8, as the code has it: for an [http://] or [https://] input whose GET
    is answered, staging fails with the upstream error exactly when the
    status is not 200, and a 200 response is downloaded: when the transfer
    itself does not fail and the body is within the size limit, staging
    succeeds. *)
Theorem staging_upstream_iff_not_200 (w : World) (cfg : Config) (fs : FS)
    (inputMedia taskID : string) (resp : Response) :
  is_url inputMedia = true -> quiet w -> Do w inputMedia = inr resp ->
  MaxInputSize cfg < MaxInt64 ->
  (stage_err (prepareInput w cfg fs inputMedia taskID) = Some (UpstreamError resp)
   <-> StatusCode resp <> 200) /\
  (StatusCode resp = 200 ->
   Z.of_nat (String.length (Body resp)) <= MaxInputSize cfg ->
   stage_err (prepareInput w cfg fs inputMedia taskID) = None).
Proof.
  intros Hurl Hq Hdo Hmax.
  destruct (Z.eq_dec (StatusCode resp) 200) as [Hcode|Hcode].
  - rewrite (prepareInput_url w cfg fs inputMedia taskID resp) by done.
    split.
    + split; [|done].
      destruct (Z.of_nat (String.length (Body resp)) >? MaxInputSize cfg);
        [|discriminate].
      unfold UpstreamError. intros H. injection H as H. discriminate.
    + intros _ Hlen. by rewrite gtb_false by lia.
  - split; [|done]. split; [done|]. intros _.
    destruct Hq as (Hc & _). unfold prepareInput, is_url in *.
    rewrite Hc, Hurl, Hdo.
    destruct (Z.eqb_spec (StatusCode resp) 200); [done|]. reflexivity.
Qed.

End Upstream.

(** ** The driver *)

Section Driver.
Import Strings Task Runner Spec.

(** Every error that [Run] returns was made by [fmt.Errorf]: it is never
    one of the two context errors themselves. *)
Lemma Run_err_wrapped (w : World) (cfg : Config) (fs : FS) (t : Task) (e : error) :
  err (Run w cfg fs t) = Some e -> Err.is_ctx_err e = false.
Proof.
  unfold Run, run_staged, SplitCommand, Err.wrap.
  repeat case_match; simpl; intros; simplify_eq; reflexivity.
Qed.

(** [Run] changes the input and output paths of the task, nothing else. *)
Lemma Run_keeps_cancelFunc (w : World) (cfg : Config) (fs : FS) (t : Task) :
  cancelFunc (task (Run w cfg fs t)) = cancelFunc t.
Proof.
  unfold Run, run_staged.
  repeat case_match; reflexivity.
Qed.

(** When staging succeeds it returns the name of the temp file together
    with the cleanup function that removes that file. *)
Lemma prepareInput_ok (w : World) (cfg : Config) (fs fs1 : FS)
    (inputMedia taskID path : string) (cleanup : option string) :
  prepareInput w cfg fs inputMedia taskID = (fs1, (path, cleanup, None)) ->
  cleanup = Some path /\ path ∈ fs1.
Proof.
  unfold prepareInput, close_and_return.
  repeat case_match; intros; simplify_eq; split; try reflexivity; set_solver.
Qed.

(** Once the input is staged, the staged file is gone when [Run] returns,
    whatever happens after the [defer]: syntax error, missing placeholder,
    failure of the transcoder, success. *)
Lemma Run_releases_staged_input (w : World) (cfg : Config) (fs fs1 : FS) (t : Task)
    (path : string) (cleanup : option string) :
  Gate w = None ->
  prepareInput w cfg fs (InputMedia t) (ID t) = (fs1, (path, cleanup, None)) ->
  path ∉ files (Run w cfg fs t).
Proof.
  intros Hg Hp. destruct (prepareInput_ok _ _ _ _ _ _ _ _ Hp) as [-> _].
  unfold Run. rewrite Hg, Hp. simpl.
  intros [_ Hnot]%elem_of_difference. apply Hnot. by apply elem_of_singleton.
Qed.

Lemma prepareInput_files (w : World) (cfg : Config) (fs : FS) (inputMedia taskID : string) :
  CreateTempErr w = None ->
  fst (prepareInput w cfg fs inputMedia taskID)
  = {[TempDir cfg +:+ "/" +:+ taskID +:+ "_input_" +:+ Nonce w]} ∪ fs.
Proof.
  intros Hc. unfold prepareInput, close_and_return. rewrite Hc.
  repeat case_match; reflexivity.
Qed.

(** When staging fails after the temp file was created, [Run] returns
    without releasing it. *)
Lemma Run_leaves_input_on_staging_failure (w : World) (cfg : Config) (fs : FS)
    (t : Task) (e : error) :
  Gate w = None -> CreateTempErr w = None ->
  stage_err (prepareInput w cfg fs (InputMedia t) (ID t)) = Some e ->
  (TempDir cfg +:+ "/" +:+ ID t +:+ "_input_" +:+ Nonce w) ∈ files (Run w cfg fs t).
Proof.
  intros Hg Hc He. pose proof (prepareInput_files w cfg fs (InputMedia t) (ID t) Hc) as Hf.
  unfold Run. rewrite Hg.
  destruct (prepareInput w cfg fs (InputMedia t) (ID t)) as [fs1 [[p c] oe]].
  unfold stage_err in He. simpl in He, Hf. subst oe fs1. simpl.
  apply elem_of_union. left. by apply elem_of_singleton.
Qed.

End Driver.

Section DriverRuns.
Import Strings Task Runner Manager Spec Scenario.

Lemma staging_upstream_iff_not_200_witness :
  stage_err (prepareInput no_content cfg0 ∅ "http://host/a.mp4" "id1")
  = Some (UpstreamError (mkResponse 204 "204 No Content" "")) <-> 204 <> 200.
Proof.
  apply (staging_upstream_iff_not_200 no_content cfg0 ∅ "http://host/a.mp4" "id1"
           (mkResponse 204 "204 No Content" "")).
  - reflexivity.
  - repeat split.
  - reflexivity.
  - reflexivity.
Defined.

(** C6 fails on the code.  [Run] returns on a staging error before its
    [defer cleanupInput()] is reached, so the temp file that [prepareInput]
    created stays on disk while the task goes from processing to failed. *)
Theorem staged_input_left_behind :
  let m := processTask Run (happy "abc") 1 2 "id1" (manager_with data_task) in
  driverCalls m = ["id1"] /\
  Status <$> (tasks m !! "id1") = Some StatusFailed /\
  Task.Error <$> (tasks m !! "id1")
    = Some "failed to prepare input: data URI inputs are not yet supported" /\
  ("/tmp/ffwebapi_1/id1_input_42" ∉ disk (manager_with data_task)) /\
  "/tmp/ffwebapi_1/id1_input_42" ∈ disk m.
Proof.
  cbv zeta.
  split; [reflexivity|]. split; [reflexivity|]. split; [reflexivity|]. split.
  - vm_compute. discriminate.
  - vm_compute. reflexivity.
Qed.

(** C3 fails on the code.  The context of a task is canceled while the
    transcoder runs and [cmd.Run] reports the context's own error; [Run]
    wraps it with [fmt.Errorf], so that the error it returns indicates the
    cancellation only to [errors.Is]; the comparison with [==] in
    [processTask] does not see it, and the task ends failed, not canceled. *)
Theorem cancel_during_run_ends_failed :
  let m := processTask Run (canceled_during_run Canceled) 1 2 "id1" (manager_with task1) in
  Err.indicates_ctx <$> err (Run (canceled_during_run Canceled) cfg0 disk0 task1)
    = Some true /\
  Status <$> (tasks m !! "id1") = Some StatusFailed /\
  Task.Error <$> (tasks m !! "id1")
    = Some "ffmpeg execution failed: context canceled".
Proof. cbv zeta. split; [|split]; reflexivity. Qed.

End DriverRuns.

(** ** The task manager *)

Section ManagerFacts.
Import Task Manager Inv.

Lemma lookup_update (id id' : string) (f : Task -> Task) (m : Manager) :
  tasks (update id f m) !! id'
  = if decide (id = id') then f <$> (tasks m !! id') else tasks m !! id'.
Proof.
  unfold update, with_tasks. simpl.
  destruct (tasks m !! id) as [t|] eqn:E; destruct (decide (id = id')) as [<-|Hne].
  - by rewrite lookup_insert_eq, E.
  - by rewrite lookup_insert_ne.
  - by rewrite E.
  - done.
Qed.

Lemma lookup_update_Some (id id' : string) (f : Task -> Task) (m : Manager) (t' : Task) :
  tasks (update id f m) !! id' = Some t' ->
  exists t, tasks m !! id' = Some t /\
            ((id <> id' /\ t' = t) \/ (id = id' /\ t' = f t)).
Proof.
  rewrite lookup_update. destruct (decide (id = id')) as [<-|Hne]; [|eauto].
  destruct (tasks m !! id) as [t|]; simpl; [|done].
  intros Heq. injection Heq as <-. eauto.
Qed.

Lemma lookup_update_is_Some (id id' : string) (f : Task -> Task) (m : Manager) :
  is_Some (tasks (update id f m) !! id') <-> is_Some (tasks m !! id').
Proof.
  rewrite lookup_update. destruct (decide (id = id')) as [<-|Hne]; [|done].
  by rewrite fmap_is_Some.
Qed.

Lemma Submit_inv (uuid : string) (now1 now2 : Z) (command inputMedia outputExt : string)
    (m m' : Manager) (t : Task) :
  Submit uuid now1 now2 command inputMedia outputExt m = Some (m', t) ->
  Status t = StatusQueued /\ cancelFunc t = None /\
  tasks m' = <[ID t := t]> (tasks m) /\
  taskQueue m' = (taskQueue m ++ [ID t])%list /\
  held m' = held m /\ execs m' = execs m /\ driverCalls m' = driverCalls m /\
  calls m' = calls m.
Proof.
  unfold Submit. destruct (100 <=? length (taskQueue m))%nat; [discriminate|].
  intros H. injection H as <- <-. simpl. done.
Qed.

Lemma Submit_sending (uuid : string) (now1 now2 : Z)
    (command inputMedia outputExt : string) (m m' : Manager) (t : Task) :
  Submit uuid now1 now2 command inputMedia outputExt m = Some (m', t) ->
  sending m' = sending m.
Proof. intros H. apply Submit_inv in H. unfold sending. by destruct H as (_&_&_&_&_&_&_&->). Qed.

(** What the calls under way are still to send, after one of them has
    moved on. *)
Lemma sending_ids_app (l1 l2 : list Call) :
  sending_ids (l1 ++ l2) = (sending_ids l1 ++ sending_ids l2)%list.
Proof. apply flat_map_app. Qed.

Lemma sending_ids_sent (l1 l2 : list Call) (id : string) :
  sending_ids (l1 ++ Sending id :: l2) = (sending_ids l1 ++ id :: sending_ids l2)%list.
Proof. by rewrite sending_ids_app. Qed.

Lemma sending_ids_read (l1 l2 : list Call) (id : string) :
  sending_ids (l1 ++ CancelRead id :: l2) = sending_ids (l1 ++ l2).
Proof. by rewrite !sending_ids_app. Qed.

Lemma sending_ids_marked (l1 l2 : list Call) (id : string) :
  sending_ids (l1 ++ CancelMarked id :: l2) = sending_ids (l1 ++ l2).
Proof. by rewrite !sending_ids_app. Qed.

Lemma sending_status (l l1 l2 : list Call) (id : string) :
  l = (l1 ++ CancelRead id :: l2)%list ->
  sending_ids (l1 ++ CancelMarked id :: l2) = sending_ids l.
Proof. intros ->. by rewrite sending_ids_read, sending_ids_marked. Qed.

Lemma sending_error (l l1 l2 : list Call) (id : string) :
  l = (l1 ++ CancelMarked id :: l2)%list -> sending_ids (l1 ++ l2) = sending_ids l.
Proof. intros ->. by rewrite sending_ids_marked. Qed.

(** A send takes one id out of those still to be sent. *)
Lemma sending_sent (l l1 l2 : list Call) (id : string) :
  l = (l1 ++ Sending id :: l2)%list ->
  id ∈ sending_ids l /\
  (forall x, x ∈ sending_ids (l1 ++ l2) -> x ∈ sending_ids l) /\
  (NoDup (sending_ids l) ->
   NoDup (sending_ids (l1 ++ l2)) /\ (id ∉ sending_ids (l1 ++ l2))).
Proof.
  intros ->. rewrite sending_ids_sent, sending_ids_app. split; [|split].
  - apply elem_of_app. right. by apply elem_of_cons; left.
  - intros x [?|?]%elem_of_app; apply elem_of_app; [by left|].
    right. by apply elem_of_cons; right.
  - intros Hnd. apply NoDup_app in Hnd as (H1 & H2 & H3).
    apply NoDup_cons in H3 as [H3 H4]. split.
    + apply NoDup_app. split; [done|]. split; [|done].
      intros x Hx Hx2. apply (H2 x Hx). by apply elem_of_cons; right.
    + intros [Hin|Hin]%elem_of_app; [|done].
      apply (H2 id Hin). by apply elem_of_cons; left.
Qed.

(** [Cancel] leaves the table as it is or marks one queued task canceled;
    it never touches a handle, an executor or the driver log. *)
Lemma Cancel_tasks (m : Manager) (id id' : string) :
  tasks (fst (Cancel m id)) !! id' = tasks m !! id' \/
  exists t, tasks m !! id' = Some t /\ Status t = StatusQueued /\ id = id' /\
            tasks (fst (Cancel m id)) !! id'
            = Some (set_Error "Canceled by user while in queue"
                      (set_Status StatusCanceled t)).
Proof.
  unfold Cancel. destruct (tasks m !! id) as [task|] eqn:E; [|by left].
  destruct (Status task) eqn:Hs; cbn [fst]; try (by left).
  - rewrite lookup_update. destruct (decide (id = id')) as [<-|]; [|by left].
    right. exists task. by rewrite E.
  - destruct (cancelFunc task); by left.
Qed.

Lemma Cancel_rest (m : Manager) (id : string) :
  taskQueue (fst (Cancel m id)) = taskQueue m /\
  held (fst (Cancel m id)) = held m /\
  execs (fst (Cancel m id)) = execs m /\
  driverCalls (fst (Cancel m id)) = driverCalls m.
Proof.
  unfold Cancel. destruct (tasks m !! id) as [task|]; [|done].
  destruct (Status task); simpl; try done.
  destruct (cancelFunc task); done.
Qed.

Lemma Cancel_calls (m : Manager) (id : string) :
  calls (fst (Cancel m id)) = calls m /\ cfg (fst (Cancel m id)) = cfg m.
Proof.
  unfold Cancel. destruct (tasks m !! id) as [task|]; [|done].
  destruct (Status task); simpl; try done.
  destruct (cancelFunc task); done.
Qed.

End ManagerFacts.

(** Project the fields of a manager out of the statements of [processTask]. *)
Ltac manager_fields :=
  unfold Manager.pt_install, Manager.pt_begin, Manager.pt_return, Manager.send,
         Inv.sending in *;
  cbn [Manager.tasks Manager.execs Manager.taskQueue Manager.held
       Manager.driverCalls Manager.canceled Manager.disk Manager.cfg Manager.calls
       Manager.with_execs Manager.with_queue Manager.with_disk Manager.with_calls
       Manager.call_cancel Manager.enter_driver] in *;
  rewrite ?lookup_update in *;
  cbn [Manager.tasks Manager.execs Manager.taskQueue Manager.held
       Manager.driverCalls Manager.canceled Manager.disk Manager.cfg Manager.calls
       Manager.update Manager.with_tasks Manager.store] in *.

Section HandleInvariant.
Import Task Manager Inv.

(** The runner the manager was built with.  [cancelFunc] is not exported
    by package task, so that no runner can change it. *)
Variable runner : World -> Config -> FS -> Task -> Runner.RunResult.
Hypothesis runner_keeps_handle :
  forall w c fs t, cancelFunc (Runner.task (runner w c fs t)) = cancelFunc t.

Lemma classify_cancelFunc (e : option error) (t : Task) :
  cancelFunc (classify e t) = cancelFunc t.
Proof. destruct e as [e|]; [|done]. unfold classify. by destruct (Err.is_ctx_err e). Qed.

Lemma pt_finish_tasks (w : World) (now : Z) (id id' : string) (m : Manager) :
  tasks (pt_finish runner w now id m) !! id' = tasks m !! id' \/
  exists t t', id = id' /\ tasks m !! id' = Some t /\
               tasks (pt_finish runner w now id m) !! id' = Some t' /\
               cancelFunc t' = cancelFunc t /\
               Status t' = Status (classify (Runner.err (runner w (cfg m) (disk m) t)) t).
Proof.
  unfold pt_finish. destruct (tasks m !! id) as [t|] eqn:E; [|by left].
  cbn [tasks with_disk with_tasks].
  destruct (decide (id = id')) as [<-|Hne].
  - right. eexists _, _. rewrite lookup_insert_eq, E. repeat split.
    + cbn [cancelFunc set_CompletedAt]. rewrite classify_cancelFunc.
      cbn [cancelFunc set_FFMpegOutput]. apply runner_keeps_handle.
    + cbn [Status set_CompletedAt]. unfold classify.
      destruct (Runner.err _) as [e|]; [destruct (Err.is_ctx_err e)|]; reflexivity.
  - left. by rewrite lookup_insert_ne.
Qed.

Lemma pt_finish_rest (w : World) (now : Z) (id : string) (m : Manager) :
  taskQueue (pt_finish runner w now id m) = taskQueue m /\
  held (pt_finish runner w now id m) = held m /\
  execs (pt_finish runner w now id m) = execs m /\
  driverCalls (pt_finish runner w now id m) = driverCalls m /\
  calls (pt_finish runner w now id m) = calls m.
Proof. unfold pt_finish. by destruct (tasks m !! id). Qed.

Lemma handle_inv_new (c : Config) (fs : FS) : handle_inv (NewManager c fs).
Proof.
  split; [|split].
  - intros id [Hin|[Hh|[[x Hx]|Hs]]]; simpl in *;
      [by apply elem_of_nil in Hin|done|by rewrite lookup_empty in Hx|
       by apply elem_of_nil in Hs].
  - intros id pc t Hex. simpl in Hex. by rewrite lookup_empty in Hex.
  - intros id t Ht. simpl in Ht. by rewrite lookup_empty in Ht.
Qed.

Lemma handle_inv_step (m m' : Manager) :
  handle_inv m -> step runner m m' -> handle_inv m'.
Proof.
  intros (H0 & H1 & H3) Hstep.
  destruct Hstep as [uuid now1 now2 command inputMedia outputExt m' t Hsub Hfresh
                    | uuid now1 now2 command inputMedia outputExt ts Hts Hfresh
                    | ids l1 l2 Hcalls Hroom | id | idr tr Htr Hqr
                    | idc l1 l2 Hcalls | ide l1 l2 Hcalls
                    | id q Hq Hh | id Hh Hsz | id Hpc | id Hpc Hck
                    | id Hpc Hck | now id Hpc | w now id Hpc].
  - (* Submit *)
    pose proof (Submit_sending _ _ _ _ _ _ _ _ _ Hsub) as Hsd.
    apply Submit_inv in Hsub as (Hst & Hc & Ht & Hqu & Hhe & He & _).
    split; [|split].
    + intros id. rewrite Ht, Hqu, Hhe, He, Hsd. intros Hid.
      destruct (decide (ID t = id)) as [<-|Hne]; [rewrite lookup_insert_eq; eauto|].
      rewrite lookup_insert_ne by done. apply H0.
      destruct Hid as [Hin|Hid]; [|by right].
      left. apply elem_of_app in Hin as [Hin|Hin]; [done|].
      apply list_elem_of_singleton in Hin. congruence.
    + intros id pc t0. rewrite Ht, He. intros Hex Hne.
      assert (ID t <> id) as Hid.
      { intros <-. destruct (H0 (ID t)) as [x Hx]; [right; right; left; eauto|].
        congruence. }
      rewrite lookup_insert_ne by done. eauto.
    + intros id t0. rewrite Ht. destruct (decide (ID t = id)) as [<-|Hne].
      * rewrite lookup_insert_eq. intros Heq. injection Heq as <-. auto.
      * rewrite lookup_insert_ne by done. apply H3.
  - (* Submit stores the task *)
    split; [|split].
    + intros id. manager_fields. intros Hid.
      destruct (decide (ID ts = id)) as [<-|Hne]; [rewrite lookup_insert_eq; eauto|].
      rewrite lookup_insert_ne by done. apply H0.
      destruct Hid as [?|[?|[?|Hs]]]; [eauto|eauto|eauto|].
      apply elem_of_cons in Hs as [?|?]; [congruence|]. by right; right; right.
    + intros id pc t0. manager_fields. intros Hex Hne.
      assert (ID ts <> id) as Hid.
      { intros <-. destruct (H0 (ID ts)) as [x Hx]; [right; right; left; eauto|].
        congruence. }
      rewrite lookup_insert_ne by done. eauto.
    + intros id t0. manager_fields. destruct (decide (ID ts = id)) as [<-|Hne].
      * rewrite lookup_insert_eq. intros Heq. injection Heq as <-. subst ts. auto.
      * rewrite lookup_insert_ne by done. apply H3.
  - (* Submit sends the task *)
    destruct (sending_sent _ _ _ _ Hcalls) as (Hin & Hsub & _).
    split; [|split]; [|done|done].
    intros id. manager_fields. intros Hid. apply H0.
    destruct Hid as [Hq|[?|[?|Hs]]]; [|eauto|eauto|by right; right; right; apply Hsub].
    apply elem_of_app in Hq as [?|Hq]; [by left|].
    apply list_elem_of_singleton in Hq as ->. by right; right; right.
  - (* Cancel *)
    destruct (Cancel_rest m id) as (Eq & Eh & Ee & _).
    destruct (Cancel_calls m id) as (Ec & _).
    split; [|split].
    + intros id'. unfold sending. rewrite Eq, Eh, Ee, Ec. intros Hid.
      destruct (Cancel_tasks m id id') as [->|(t & Ht & _ & _ & ->)]; eauto.
    + intros id' pc t'. rewrite Ee. intros Hex Hne.
      destruct (Cancel_tasks m id id') as [->|(t & Ht & _ & _ & ->)]; [eauto|].
      intros Heq. injection Heq as <-. cbn [cancelFunc set_Error set_Status]. eauto.
    + intros id' t'.
      destruct (Cancel_tasks m id id') as [->|(t & Ht & _ & _ & ->)]; [apply H3|].
      intros Heq. injection Heq as <-. by right.
  - (* Cancel reads the status *)
    split; [|split]; done.
  - (* Cancel writes the status *)
    split; [|split].
    + intros id'. unfold sending. cbn [calls with_calls taskQueue held execs].
      rewrite (sending_status _ _ _ _ Hcalls).
      cbn [tasks with_calls]. rewrite lookup_update_is_Some. apply H0.
    + intros id' pc t'. cbn [tasks execs with_calls]. intros Hex Hne Ht'.
      apply lookup_update_Some in Ht' as (t & Ht & [[_ ->]|[_ ->]]); simpl; eauto.
    + intros id' t'. cbn [tasks with_calls]. intros Ht'.
      apply lookup_update_Some in Ht' as (t & Ht & [[_ ->]|[_ ->]]); [exact (H3 id' t Ht)|].
      by right.
  - (* Cancel writes the error text *)
    split; [|split].
    + intros id'. unfold sending. cbn [calls with_calls taskQueue held execs].
      rewrite (sending_error _ _ _ _ Hcalls).
      cbn [tasks with_calls]. rewrite lookup_update_is_Some. apply H0.
    + intros id' pc t'. cbn [tasks execs with_calls]. intros Hex Hne Ht'.
      apply lookup_update_Some in Ht' as (t & Ht & [[_ ->]|[_ ->]]); simpl; eauto.
    + intros id' t'. cbn [tasks with_calls]. intros Ht'.
      apply lookup_update_Some in Ht' as (t & Ht & [[_ ->]|[_ ->]]); exact (H3 id' t Ht).
  - (* the worker loop receives a task *)
    split; [|split]; [|done|done].
    intros id'. manager_fields. intros Hid. apply H0. rewrite Hq.
    destruct Hid as [Hin|[Heq|Hex]]; [left; by apply elem_of_cons; right| |by right; right].
    injection Heq as <-. left. apply elem_of_cons. by left.
  - (* an executor is started *)
    split; [|split]; [| |done].
    + intros id'. manager_fields. intros [Hin|[Heq|[Hex|Hs]]]; [eauto|done| |eauto 6].
      destruct (decide (id = id')) as [<-|Hne]; [eauto|].
      rewrite lookup_insert_ne in Hex by done. eauto 6.
    + intros id' pc t. manager_fields.
      destruct (decide (id = id')) as [<-|Hne].
      * rewrite lookup_insert_eq. intros Heq. by injection Heq as <-.
      * rewrite lookup_insert_ne by done. apply H1.
  - (* the handle is installed *)
    split; [|split].
    + intros id'. manager_fields. intros Hid.
      assert (is_Some (tasks m !! id')) as [x Hx].
      { apply H0. destruct Hid as [?|[?|[Hex|?]]]; [eauto|eauto| |eauto 6].
        destruct (decide (id = id')) as [<-|Hne]; [eauto 6|].
        rewrite lookup_insert_ne in Hex by done. eauto 6. }
      rewrite Hx. destruct (decide (id = id')); simpl; eauto.
    + intros id' pc t. manager_fields.
      destruct (decide (id = id')) as [<-|Hne].
      * intros _ _. destruct (tasks m !! id); simpl; [|done].
        intros Heq. by injection Heq as <-.
      * rewrite lookup_insert_ne by done. apply H1.
    + intros id' t. manager_fields.
      destruct (decide (id = id')) as [<-|Hne]; [|apply H3].
      destruct (tasks m !! id); simpl; [|done].
      intros Heq. by injection Heq as <-.
  - (* a task canceled in the queue is dropped *)
    split; [|split]; [| |done].
    + intros id'. manager_fields. intros [?|[?|[[x Hx]|?]]]; [eauto|eauto| |eauto 6].
      apply lookup_delete_Some in Hx as [_ Hx]. eauto 6.
    + intros id' pc t. manager_fields. intros [_ Hx]%lookup_delete_Some. eauto.
  - (* the test at the head of processTask is passed *)
    split; [|split]; [| |done].
    + intros id'. manager_fields. intros [?|[?|[Hex|?]]]; [eauto|eauto| |eauto 6].
      destruct (decide (id = id')) as [<-|Hne]; [eauto 6|].
      rewrite lookup_insert_ne in Hex by done. eauto 6.
    + intros id' pc t. manager_fields.
      destruct (decide (id = id')) as [<-|Hne].
      * intros _ _. by apply (H1 id PcInstalled).
      * rewrite lookup_insert_ne by done. apply H1.
  - (* the task is marked processing *)
    split; [|split].
    + intros id'. manager_fields. intros Hid.
      assert (is_Some (tasks m !! id')) as [x Hx].
      { apply H0. destruct Hid as [?|[?|[Hex|?]]]; [eauto|eauto| |eauto 6].
        destruct (decide (id = id')) as [<-|Hne]; [eauto 6|].
        rewrite lookup_insert_ne in Hex by done. eauto 6. }
      rewrite Hx. destruct (decide (id = id')); simpl; eauto.
    + intros id' pc t. manager_fields.
      destruct (decide (id = id')) as [<-|Hne].
      * intros _ _. destruct (tasks m !! id) as [t0|] eqn:E; simpl; [|done].
        intros Heq. injection Heq as <-. simpl. by apply (H1 id PcChecked).
      * rewrite lookup_insert_ne by done. apply H1.
    + intros id' t. manager_fields.
      destruct (decide (id = id')) as [<-|Hne]; [|apply H3].
      destruct (tasks m !! id) as [t0|] eqn:E; simpl; [|done].
      intros Heq. injection Heq as <-. simpl. intros Hnil.
      by destruct (H1 id PcChecked t0).
  - (* the driver returns *)
    destruct (pt_finish_rest w now id m) as (Eq & Eh & Ee & _ & Ec).
    split; [|split].
    + intros id'. manager_fields. rewrite Eq, Eh, Ee, Ec. intros Hid.
      assert (is_Some (tasks m !! id')) as [x Hx].
      { apply H0. destruct Hid as [?|[?|[[y Hy]|?]]]; [eauto|eauto| |eauto 6].
        apply lookup_delete_Some in Hy as [_ Hy]. eauto 6. }
      destruct (pt_finish_tasks w now id id' m) as [->|(t & t' & _ & _ & -> & _)]; eauto.
    + intros id' pc t. manager_fields. rewrite Ee.
      intros [Hne Hx]%lookup_delete_Some Hpc'.
      destruct (pt_finish_tasks w now id id' m) as [->|(t0 & t' & Heq & _)]; [eauto|done].
    + intros id' t. manager_fields.
      destruct (pt_finish_tasks w now id id' m)
        as [->|(t0 & t' & <- & Ht0 & -> & Hc & _)]; [apply H3|].
      intros Heq. injection Heq as <-. rewrite Hc. intros Hnil.
      by destruct (H1 id PcRunning t0).
Qed.

Lemma handle_inv_reachable (m : Manager) : reachable runner m -> handle_inv m.
Proof.
  induction 1 as [c fs|m m' _ IH Hstep]; [apply handle_inv_new|].
  by apply (handle_inv_step m m').
Qed.

End HandleInvariant.


Section CancelInQueue.
Import Task Manager Inv Spec.

Variable runner : World -> Config -> FS -> Task -> Runner.RunResult.

Lemma pt_finish_other (w : World) (now : Z) (id id' : string) (m : Manager) :
  id <> id' -> tasks (pt_finish runner w now id m) !! id' = tasks m !! id'.
Proof.
  intros Hne. unfold pt_finish. destruct (tasks m !! id); [|done].
  cbn [tasks with_disk with_tasks]. by rewrite lookup_insert_ne.
Qed.

(** A task canceled in the queue stays canceled, never gets past the test
    at the head of [processTask], and the driver is not entered for it. *)
Lemma canceled_waiting_step (id : string) (m m' : Manager) :
  canceled_waiting id m -> step runner m m' ->
  canceled_waiting id m' /\ (id ∈ driverCalls m' -> id ∈ driverCalls m).
Proof.
  intros ((t & Ht & Hs) & Hc & Hr) Hstep. unfold canceled_waiting.
  destruct Hstep as [uuid now1 now2 command inputMedia outputExt m' t1 Hsub Hfresh
                    | uuid now1 now2 command inputMedia outputExt ts Hts Hfresh
                    | ids l1 l2 Hcalls Hroom | id0 | idr tr Htr Hqr
                    | idc l1 l2 Hcalls | ide l1 l2 Hcalls
                    | id0 q Hq Hh | id0 Hh Hsz | id0 Hpc | id0 Hpc Hck
                    | id0 Hpc Hck | now id0 Hpc | w now id0 Hpc].
  - apply Submit_inv in Hsub as (_ & _ & -> & _ & _ & -> & -> & _).
    rewrite lookup_insert_ne by congruence. eauto 10.
  - manager_fields. rewrite lookup_insert_ne by congruence. eauto 10.
  - manager_fields. eauto 10.
  - destruct (Cancel_rest m id0) as (_ & _ & -> & ->).
    destruct (Cancel_tasks m id0 id) as [->|(t0 & Ht0 & Hq & _)]; [eauto 10|].
    congruence.
  - manager_fields. eauto 10.
  - manager_fields. split; [|done]. split; [|done].
    rewrite Ht. destruct (decide (idc = id)); simpl; eauto.
  - manager_fields. split; [|done]. split; [|done].
    rewrite Ht. destruct (decide (ide = id)); simpl; eauto.
  - manager_fields. eauto 10.
  - manager_fields. split; [|done]. split; [eauto|].
    destruct (decide (id0 = id)) as [->|Hne].
    + rewrite lookup_insert_eq. split; congruence.
    + by rewrite lookup_insert_ne.
  - manager_fields. split; [|done]. split.
    + rewrite Ht. destruct (decide (id0 = id)); simpl; eauto.
    + destruct (decide (id0 = id)) as [->|Hne].
      * rewrite lookup_insert_eq. split; congruence.
      * by rewrite lookup_insert_ne.
  - manager_fields. split; [|done]. split; [eauto|].
    destruct (decide (id0 = id)) as [->|Hne].
    + rewrite lookup_delete_eq. split; congruence.
    + by rewrite lookup_delete_ne.
  - manager_fields. split; [|done]. split; [eauto|].
    destruct (decide (id0 = id)) as [->|Hne].
    + unfold pt_check in Hck. rewrite Ht, Hs in Hck. discriminate.
    + by rewrite lookup_insert_ne.
  - assert (id0 <> id) as Hne by congruence.
    manager_fields. destruct (decide (id0 = id)); [done|].
    rewrite lookup_insert_ne by done. split; [eauto|].
    intros [?|?]%elem_of_cons; [congruence | done].
  - assert (id0 <> id) as Hne by congruence.
    manager_fields. rewrite pt_finish_other by done.
    destruct (pt_finish_rest runner w now id0 m) as (_ & _ & -> & -> & _).
    rewrite lookup_delete_ne by done. eauto 10.
Qed.

Lemma canceled_waiting_steps (id : string) (m m' : Manager) :
  canceled_waiting id m -> steps runner m m' ->
  canceled_waiting id m' /\ (id ∈ driverCalls m' -> id ∈ driverCalls m).
Proof.
  intros Hw. induction 1 as [|m1 m2 _ [IHw IHd] Hstep]; [done|].
  destruct (canceled_waiting_step id m1 m2 IHw Hstep) as [Hw2 Hd2]. auto.
Qed.

(** C5: [Cancel] on a task in a terminal state returns the illegal-state
    error and changes nothing, however often it is repeated.  [Cancel] on a
    queued task that no executor holds yet returns no error; afterwards the
    status of the task is canceled, its error text is "Canceled by user
    while in queue" and its other fields are as before; whatever the
    manager does afterwards, the driver is not entered for that task, and
    [processTask] run on it returns without calling the driver. *)
Theorem cancel_terminal_rejected_queued_dropped (m : Manager) (id : string) (t : Task) :
  tasks m !! id = Some t ->
  (terminal (Status t) = true ->
   Cancel m id = (m, Some (IllegalState (Status t))) /\
   forall n, Nat.iter n (fun m0 => fst (Cancel m0 id)) m = m) /\
  (Status t = StatusQueued -> execs m !! id = None ->
   snd (Cancel m id) = None /\
   (exists t', tasks (fst (Cancel m id)) !! id = Some t' /\
               Status t' = StatusCanceled /\
               Error t' = "Canceled by user while in queue" /\
               same_but_outcome t t') /\
   (forall m', steps runner (fst (Cancel m id)) m' ->
               id ∉ driverCalls m -> id ∉ driverCalls m') /\
   (forall w now1 now2,
      driverCalls (processTask runner w now1 now2 id (fst (Cancel m id)))
      = driverCalls m)).
Proof.
  intros Ht. split.
  - intros Hterm.
    assert (Cancel m id = (m, Some (IllegalState (Status t)))) as HC.
    { unfold Cancel. rewrite Ht. by destruct (Status t). }
    split; [done|]. induction n as [|n IH]; [done|]. simpl. by rewrite IH, HC.
  - intros Hq Hex.
    assert (Cancel m id
            = (update id (fun t => set_Error "Canceled by user while in queue"
                                     (set_Status StatusCanceled t)) m, None)) as HC.
    { unfold Cancel. by rewrite Ht, Hq. }
    rewrite HC. cbn [fst snd].
    assert (tasks (update id (fun t => set_Error "Canceled by user while in queue"
                                         (set_Status StatusCanceled t)) m) !! id
            = Some (set_Error "Canceled by user while in queue"
                      (set_Status StatusCanceled t))) as Hl.
    { rewrite lookup_update, Ht. by destruct (decide (id = id)). }
    split; [done|]. split; [by eexists; split; [exact Hl|]|]. split.
    + intros m' Hsteps Hnot Hin. apply Hnot.
      assert (canceled_waiting id
                (update id (fun t => set_Error "Canceled by user while in queue"
                                       (set_Status StatusCanceled t)) m)) as Hw.
      { split; [eauto|]. cbn [execs update with_tasks]. rewrite Hex.
        split; discriminate. }
      destruct (canceled_waiting_steps id _ m' Hw Hsteps) as [_ Hd].
      exact (Hd Hin).
    + intros w now1 now2. unfold processTask.
      assert (pt_check id (pt_install id
                (update id (fun t => set_Error "Canceled by user while in queue"
                                       (set_Status StatusCanceled t)) m)) = true) as ->.
      { unfold pt_check, pt_install. rewrite lookup_update, Hl.
        by destruct (decide (id = id)). }
      reflexivity.
Qed.

End CancelInQueue.

Section Classification.
Import Task Manager Inv.

Variable runner : World -> Config -> FS -> Task -> Runner.RunResult.

(** The status and error text that [processTask] gives to a task for an
    outcome of the driver. *)
Lemma classify_outcome (e : option error) (t : Task) :
  match e with
  | Some e => if Err.is_ctx_err e
              then Status (classify (Some e) t) = StatusCanceled /\
                   Task.Error (classify (Some e) t) = "Task was canceled or timed out"
              else Status (classify (Some e) t) = StatusFailed /\
                   Task.Error (classify (Some e) t) = Err.Error e
  | None => Status (classify None t) = StatusCompleted
  end.
Proof. destruct e as [e|]; [|done]. unfold classify. by destruct (Err.is_ctx_err e). Qed.

(** [processTask] on a task that is not canceled: the driver is called on
    the task marked processing and its outcome is classified. *)
Lemma processTask_classifies (w : World) (now1 now2 : Z) (id : string)
    (m : Manager) (t : Task) :
  tasks m !! id = Some t -> Status t <> StatusCanceled ->
  exists tb,
    tb = set_StartedAt now1 (set_Status StatusProcessing (set_cancelFunc (Some id) t)) /\
    tasks (processTask runner w now1 now2 id m) !! id
    = Some (set_CompletedAt now2
              (classify (Runner.err (runner w (cfg m) (disk m) tb))
                 (set_FFMpegOutput (Runner.logOutput (runner w (cfg m) (disk m) tb))
                    (Runner.task (runner w (cfg m) (disk m) tb))))).
Proof.
  intros Ht Hs. eexists. split; [reflexivity|].
  unfold processTask.
  assert (pt_check id (pt_install id m) = false) as ->.
  { unfold pt_check, pt_install. rewrite lookup_update, Ht.
    destruct (decide (id = id)); [|done]. simpl. by destruct (Status t). }
  assert (tasks (pt_begin now1 id (pt_install id m)) !! id
          = Some (set_StartedAt now1 (set_Status StatusProcessing
                                        (set_cancelFunc (Some id) t)))) as Hb.
  { manager_fields. rewrite Ht. by destruct (decide (id = id)). }
  unfold pt_return, pt_finish. rewrite Hb.
  cbn [tasks with_execs call_cancel with_disk with_tasks cfg disk pt_begin
       enter_driver pt_install update].
  by rewrite lookup_insert_eq.
Qed.

End Classification.

Section RealRunner.
Import Task Manager Inv.

(** With the driver of the program, no task that a worker starts on ends
    canceled: the driver never returns a context error unwrapped. *)
Lemma processTask_Run_never_canceled (w : World) (now1 now2 : Z) (id : string)
    (m : Manager) (t : Task) :
  tasks m !! id = Some t -> Status t <> StatusCanceled ->
  exists t', tasks (processTask Runner.Run w now1 now2 id m) !! id = Some t' /\
             (Status t' = StatusFailed \/ Status t' = StatusCompleted).
Proof.
  intros Ht Hs.
  destruct (processTask_classifies Runner.Run w now1 now2 id m t Ht Hs) as (tb & _ & ->).
  eexists. split; [reflexivity|]. cbn [Status set_CompletedAt].
  pose proof (classify_outcome (Runner.err (Runner.Run w (cfg m) (disk m) tb))) as Hc.
  destruct (Runner.err (Runner.Run w (cfg m) (disk m) tb)) as [e|] eqn:He.
  - rewrite (Run_err_wrapped _ _ _ _ _ He) in Hc. left. apply Hc.
  - right. apply Hc.
Qed.

End RealRunner.

Section QueueInvariant.
Import Task Manager Inv.

Variable runner : World -> Config -> FS -> Task -> Runner.RunResult.

Lemma queue_inv_new (c : Config) (fs : FS) : queue_inv (NewManager c fs).
Proof.
  split; [split; [|split]|split; [|split]].
  - constructor.
  - intros id Hh. done.
  - intros id [x Hx]. simpl in Hx. by rewrite lookup_empty in Hx.
  - intros id t [Hin|[Hh|[Hx|Hs]]] _; simpl in *;
      [by apply elem_of_nil in Hin | done | by rewrite lookup_empty in Hx
      | by apply elem_of_nil in Hs].
  - constructor.
  - intros id Hs. by apply elem_of_nil in Hs.
Qed.

(** A new id is held by nobody. *)
Lemma fresh_not_held (m : Manager) (id : string) :
  held_in_table m -> tasks m !! id = None ->
  (id ∉ taskQueue m) /\ held m <> Some id /\ execs m !! id = None /\ (id ∉ sending m).
Proof.
  intros H0 Hfresh.
  assert (forall P : Prop, (P -> is_Some (tasks m !! id)) -> ~ P) as Hno.
  { intros P HP Hp. destruct (HP Hp) as [x Hx]. congruence. }
  split; [|split; [|split]].
  - apply Hno. intros ?. apply H0. by left.
  - apply Hno. intros ?. apply H0. by right; left.
  - destruct (execs m !! id) eqn:E; [|done]. exfalso.
    apply (Hno True); [|done]. intros _. apply H0. right; right; left. eauto.
  - apply Hno. intros ?. apply H0. by right; right; right.
Qed.

Lemma held_once_step (m m' : Manager) :
  held_in_table m -> held_once m -> unsent m -> step runner m m' -> held_once m'.
Proof.
  intros H0 (Hnd & Hh & He) (Und & Us) Hstep.
  destruct Hstep as [uuid now1 now2 command inputMedia outputExt m' t Hsub Hfresh
                    | uuid now1 now2 command inputMedia outputExt ts Hts Hfresh
                    | ids l1 l2 Hcalls Hroom | id | idr tr Htr Hqr
                    | idc l1 l2 Hcalls | ide l1 l2 Hcalls
                    | id q Hq Hhd | id Hhd Hsz | id Hpc | id Hpc Hck
                    | id Hpc Hck | now id Hpc | w now id Hpc];
    unfold held_once.
  - (* Submit *)
    apply Submit_inv in Hsub as (Hst & Hc & Ht & Hqu & Hhe & Hex & _).
    destruct (fresh_not_held m (ID t) H0 Hfresh) as (Fq & Fh & Fe & _).
    rewrite Hqu, Hhe, Hex. split; [|split].
    + apply NoDup_app. split; [done|]. split; [|apply NoDup_singleton].
      by intros x Hx ->%list_elem_of_singleton.
    + intros id Hid [Hin|Hin%list_elem_of_singleton]%elem_of_app.
      * by apply (Hh id).
      * congruence.
    + intros id Hid. destruct (He id Hid) as [Hq Hhd].
      split; [|done]. intros [Hin|Hin%list_elem_of_singleton]%elem_of_app; [done|].
      subst id. rewrite Fe in Hid. by destruct Hid.
  - (* Submit stores the task *)
    done.
  - (* Submit sends the task *)
    destruct (sending_sent _ _ _ _ Hcalls) as (Hin & _ & _).
    destruct (Us ids Hin) as (Sq & Sh & Se).
    manager_fields. split; [|split].
    + apply NoDup_app. split; [done|]. split; [|apply NoDup_singleton].
      by intros x Hx ->%list_elem_of_singleton.
    + intros id Hid [?|Hq%list_elem_of_singleton]%elem_of_app; [by apply (Hh id)|].
      congruence.
    + intros id Hex. destruct (He id Hex) as [Hq Hhd]. split; [|done].
      intros [?|Heq%list_elem_of_singleton]%elem_of_app; [done|].
      subst id. rewrite Se in Hex. by destruct Hex.
  - (* Cancel *)
    destruct (Cancel_rest m id) as (Eq & Eh & Ee & _). by rewrite Eq, Eh, Ee.
  - done.
  - done.
  - done.
  - (* the worker loop receives a task *)
    manager_fields. rewrite Hq in *. apply NoDup_cons in Hnd as [Hid Hnd].
    split; [|split].
    + done.
    + intros id' Heq. by injection Heq as <-.
    + intros id' Hex. destruct (He id' Hex) as [Hnot _].
      apply not_elem_of_cons in Hnot as [Hne Hnot]. split; [done|congruence].
  - (* an executor is started *)
    manager_fields. split; [|split].
    + done.
    + done.
    + intros id' Hex. split; [|done].
      destruct (decide (id = id')) as [<-|Hne]; [by apply Hh|].
      rewrite lookup_insert_ne in Hex by done. by apply He.
  - (* the handle is installed *)
    manager_fields. split; [|split]; [done|done|].
    intros id' Hex. apply He.
    destruct (decide (id = id')) as [<-|Hne]; [by eauto|].
    by rewrite lookup_insert_ne in Hex.
  - (* a task canceled in the queue is dropped *)
    manager_fields. split; [|split]; [done|done|].
    intros id' [x [_ Hx]%lookup_delete_Some]. apply He. eauto.
  - (* the test at the head of processTask is passed *)
    manager_fields. split; [|split]; [done|done|].
    intros id' Hex. apply He.
    destruct (decide (id = id')) as [<-|Hne]; [by eauto|].
    by rewrite lookup_insert_ne in Hex.
  - (* the task is marked processing *)
    manager_fields. split; [|split]; [done|done|].
    intros id' Hex. apply He.
    destruct (decide (id = id')) as [<-|Hne]; [by eauto|].
    by rewrite lookup_insert_ne in Hex.
  - (* the driver returns *)
    destruct (pt_finish_rest runner w now id m) as (Eq & Eh & Ee & _).
    manager_fields. rewrite Eq, Eh, Ee. split; [|split]; [done|done|].
    intros id' [x [_ Hx]%lookup_delete_Some]. apply He. eauto.
Qed.

Lemma waiting_nil_step (m m' : Manager) :
  held_in_table m -> held_once m -> unsent m -> waiting_nil m ->
  step runner m m' -> waiting_nil m'.
Proof.
  intros H0 (Hnd & Hh & He) (Und & Us) Hw Hstep.
  assert (forall id pc, execs m !! id = Some pc -> id ∉ sending m) as Hbusy.
  { intros id pc Hpc Hs. destruct (Us id Hs) as (_ & _ & Hn). congruence. }
  destruct Hstep as [uuid now1 now2 command inputMedia outputExt m' t Hsub Hfresh
                    | uuid now1 now2 command inputMedia outputExt ts Hts Hfresh
                    | ids l1 l2 Hcalls Hroom | id | idr tr Htr Hqr
                    | idc l1 l2 Hcalls | ide l1 l2 Hcalls
                    | id q Hq Hhd | id Hhd Hsz | id Hpc | id Hpc Hck
                    | id Hpc Hck | now id Hpc | w now id Hpc];
    unfold waiting_nil.
  - (* Submit *)
    pose proof (Submit_sending _ _ _ _ _ _ _ _ _ Hsub) as Hsd.
    apply Submit_inv in Hsub as (Hst & Hc & Ht & Hqu & Hhe & Hex & _).
    intros id t0. rewrite Hqu, Hhe, Hex, Ht, Hsd. intros Hpre.
    destruct (decide (ID t = id)) as [<-|Hne].
    + rewrite lookup_insert_eq. intros Heq. by injection Heq as <-.
    + rewrite lookup_insert_ne by done. apply Hw.
      destruct Hpre as [[Hin|Hin%list_elem_of_singleton]%elem_of_app|Hpre];
        [by left | congruence | by right].
  - (* Submit stores the task *)
    intros id t0. manager_fields. intros Hpre.
    destruct (decide (ID ts = id)) as [<-|Hne].
    + rewrite lookup_insert_eq. intros Heq. injection Heq as <-. by subst ts.
    + rewrite lookup_insert_ne by done. apply Hw.
      destruct Hpre as [?|[?|[?|Hs]]]; [eauto|eauto|eauto|].
      apply elem_of_cons in Hs as [?|?]; [congruence|]. by right; right; right.
  - (* Submit sends the task *)
    destruct (sending_sent _ _ _ _ Hcalls) as (Hin & Hsub & _).
    intros id t0. manager_fields. intros Hpre. apply Hw.
    destruct Hpre as [Hq|[?|[?|Hs]]]; [|eauto|eauto|by right; right; right; apply Hsub].
    apply elem_of_app in Hq as [?|Hq]; [by left|].
    apply list_elem_of_singleton in Hq as ->. by right; right; right.
  - (* Cancel *)
    destruct (Cancel_rest m id) as (Eq & Eh & Ee & _).
    destruct (Cancel_calls m id) as (Ec & _).
    intros id' t'. unfold sending. rewrite Eq, Eh, Ee, Ec. intros Hpre.
    destruct (Cancel_tasks m id id') as [->|(t & Ht & _ & _ & ->)]; [by apply Hw|].
    intros Heq. injection Heq as <-. simpl. by apply (Hw id').
  - (* Cancel reads the status *)
    done.
  - (* Cancel writes the status *)
    intros id' t'. unfold sending. cbn [calls with_calls taskQueue held execs tasks].
    rewrite (sending_status _ _ _ _ Hcalls). intros Hpre Ht'.
    apply lookup_update_Some in Ht' as (t & Ht & [[_ ->]|[_ ->]]); simpl; by apply (Hw id').
  - (* Cancel writes the error text *)
    intros id' t'. unfold sending. cbn [calls with_calls taskQueue held execs tasks].
    rewrite (sending_error _ _ _ _ Hcalls). intros Hpre Ht'.
    apply lookup_update_Some in Ht' as (t & Ht & [[_ ->]|[_ ->]]); simpl; by apply (Hw id').
  - (* the worker loop receives a task *)
    manager_fields. intros id' t Hpre. apply Hw. rewrite Hq.
    destruct Hpre as [Hin|[Heq|Hex]].
    + left. apply elem_of_cons. by right.
    + injection Heq as <-. left. apply elem_of_cons. by left.
    + by right; right.
  - (* an executor is started *)
    manager_fields. intros id' t Hpre. apply Hw.
    destruct Hpre as [Hin|[Heq|[Hex|Hs]]]; [by left|done| |by right; right; right].
    destruct (decide (id = id')) as [<-|Hne]; [by right; left|].
    rewrite lookup_insert_ne in Hex by done. by right; right; left.
  - (* the handle is installed *)
    destruct (He id) as [Hnq Hnh]; [by eauto|].
    intros id' t. manager_fields. destruct (decide (id = id')) as [<-|Hne].
    + rewrite lookup_insert_eq. intros [Hin|[Heq|[Hex|Hs]]]; [done|done|done|].
      by destruct (Hbusy id PcEntered).
    + rewrite lookup_insert_ne by done. exact (Hw id' t).
  - (* a task canceled in the queue is dropped *)
    manager_fields. intros id' t Hpre. apply Hw.
    destruct Hpre as [Hin|[Heq|[[_ Hex]%lookup_delete_Some|Hs]]]; auto.
  - (* the test at the head of processTask is passed *)
    manager_fields. intros id' t Hpre. apply Hw.
    destruct Hpre as [Hin|[Heq|[Hex|Hs]]]; [by left|by right; left| |by right; right; right].
    destruct (decide (id = id')) as [<-|Hne].
    + rewrite lookup_insert_eq in Hex. done.
    + rewrite lookup_insert_ne in Hex by done. by right; right; left.
  - (* the task is marked processing *)
    destruct (He id) as [Hnq Hnh]; [by eauto|].
    intros id' t. manager_fields. destruct (decide (id = id')) as [<-|Hne].
    + rewrite lookup_insert_eq. intros [Hin|[Heq|[Hex|Hs]]]; [done|done|done|].
      by destruct (Hbusy id PcChecked).
    + rewrite lookup_insert_ne by done. exact (Hw id' t).
  - (* the driver returns *)
    destruct (He id) as [Hnq Hnh]; [by eauto|].
    destruct (pt_finish_rest runner w now id m) as (Eq & Eh & Ee & _ & Ec).
    manager_fields. rewrite Eq, Eh, Ee, Ec.
    intros id' t. destruct (decide (id = id')) as [<-|Hne].
    + rewrite lookup_delete_eq. intros [Hin|[Heq|[Hex|Hs]]]; [done|done|done|].
      by destruct (Hbusy id PcRunning).
    + rewrite lookup_delete_ne, pt_finish_other by done. exact (Hw id' t).
Qed.

Lemma unsent_step (m m' : Manager) :
  held_in_table m -> held_once m -> unsent m -> step runner m m' -> unsent m'.
Proof.
  intros H0 (Hnd & Hh & He) (Und & Us) Hstep.
  destruct Hstep as [uuid now1 now2 command inputMedia outputExt m' t Hsub Hfresh
                    | uuid now1 now2 command inputMedia outputExt ts Hts Hfresh
                    | ids l1 l2 Hcalls Hroom | id | idr tr Htr Hqr
                    | idc l1 l2 Hcalls | ide l1 l2 Hcalls
                    | id q Hq Hhd | id Hhd Hsz | id Hpc | id Hpc Hck
                    | id Hpc Hck | now id Hpc | w now id Hpc];
    unfold unsent.
  - (* Submit *)
    pose proof (Submit_sending _ _ _ _ _ _ _ _ _ Hsub) as Hsd.
    apply Submit_inv in Hsub as (Hst & Hc & Ht & Hqu & Hhe & Hex & _).
    destruct (fresh_not_held m (ID t) H0 Hfresh) as (_ & _ & _ & Fs).
    rewrite Hsd, Hqu, Hhe, Hex. split; [done|].
    intros id Hs. destruct (Us id Hs) as (Sq & Sh & Se). split; [|done].
    intros [?|Heq%list_elem_of_singleton]%elem_of_app; [done|]. congruence.
  - (* Submit stores the task *)
    destruct (fresh_not_held m (ID ts) H0 Hfresh) as (Fq & Fh & Fe & Fs).
    manager_fields. cbn [sending_ids flat_map app]. split.
    + apply NoDup_cons. done.
    + intros id [->|Hs]%elem_of_cons; [done|]. by apply Us.
  - (* Submit sends the task *)
    destruct (sending_sent _ _ _ _ Hcalls) as (Hin & Hsub & Hnd').
    destruct (Hnd' Und) as [Hnd2 Hnot].
    manager_fields. split; [done|].
    intros id Hs. destruct (Us id (Hsub id Hs)) as (Sq & Sh & Se).
    split; [|done].
    intros [?|Heq%list_elem_of_singleton]%elem_of_app; [done|]. congruence.
  - (* Cancel *)
    destruct (Cancel_rest m id) as (Eq & Eh & Ee & _).
    destruct (Cancel_calls m id) as (Ec & _).
    unfold sending. by rewrite Eq, Eh, Ee, Ec.
  - done.
  - unfold sending. cbn [calls with_calls taskQueue held execs].
    by rewrite (sending_status _ _ _ _ Hcalls).
  - unfold sending. cbn [calls with_calls taskQueue held execs].
    by rewrite (sending_error _ _ _ _ Hcalls).
  - (* the worker loop receives a task *)
    manager_fields. split; [done|].
    intros x Hs. destruct (Us x Hs) as (Sq & Sh & Se). rewrite Hq in Sq.
    apply not_elem_of_cons in Sq as [Hne Sq]. split; [done|]. split; [congruence|done].
  - (* an executor is started *)
    manager_fields. split; [done|].
    intros x Hs. destruct (Us x Hs) as (Sq & Sh & Se). split; [done|]. split; [done|].
    rewrite lookup_insert_ne; [done|]. congruence.
  - (* the handle is installed *)
    manager_fields. split; [done|].
    intros x Hs. destruct (Us x Hs) as (Sq & Sh & Se). split; [done|]. split; [done|].
    rewrite lookup_insert_ne; [done|]. congruence.
  - (* a task canceled in the queue is dropped *)
    manager_fields. split; [done|].
    intros x Hs. destruct (Us x Hs) as (Sq & Sh & Se). split; [done|]. split; [done|].
    apply lookup_delete_None. by right.
  - (* the test at the head of processTask is passed *)
    manager_fields. split; [done|].
    intros x Hs. destruct (Us x Hs) as (Sq & Sh & Se). split; [done|]. split; [done|].
    rewrite lookup_insert_ne; [done|]. congruence.
  - (* the task is marked processing *)
    manager_fields. split; [done|].
    intros x Hs. destruct (Us x Hs) as (Sq & Sh & Se). split; [done|]. split; [done|].
    rewrite lookup_insert_ne; [done|]. congruence.
  - (* the driver returns *)
    destruct (pt_finish_rest runner w now id m) as (Eq & Eh & Ee & _ & Ec).
    manager_fields. rewrite Eq, Eh, Ee, Ec. split; [done|].
    intros x Hs. destruct (Us x Hs) as (Sq & Sh & Se). split; [done|]. split; [done|].
    apply lookup_delete_None. by right.
Qed.

Lemma queue_inv_step (m m' : Manager) :
  held_in_table m -> queue_inv m -> step runner m m' -> queue_inv m'.
Proof.
  intros H0 (Ho & Hw & Hu) Hstep. split; [|split].
  - by apply (held_once_step m m').
  - by apply (waiting_nil_step m m').
  - by apply (unsent_step m m').
Qed.

End QueueInvariant.

Section HandleLifetime.
Import Task Manager Inv Scenario.

Lemma reachable_submitted : reachable Runner.Run submitted.
Proof.
  eapply reach_step; [apply (reach_new _ cfg0 disk0)|].
  by eapply (step_submit _ _ "u" 0 0 "-i ${INPUT_MEDIA}" "/media/a.mp4" "mp4").
Qed.

(** No action of the manager clears a handle. *)
Lemma handle_kept_step (m m' : Manager) (id : string) (t : Task) :
  step Runner.Run m m' -> tasks m !! id = Some t -> cancelFunc t <> None ->
  exists t', tasks m' !! id = Some t' /\ cancelFunc t' <> None.
Proof.
  intros Hstep Ht Hc.
  destruct Hstep as [uuid now1 now2 command inputMedia outputExt m' t1 Hsub Hfresh
                    | uuid now1 now2 command inputMedia outputExt ts Hts Hfresh
                    | ids l1 l2 Hcalls Hroom | id0 | idr tr Htr Hqr
                    | idc l1 l2 Hcalls | ide l1 l2 Hcalls
                    | id0 q Hq Hh | id0 Hh Hsz | id0 Hpc | id0 Hpc Hck
                    | id0 Hpc Hck | now id0 Hpc | w now id0 Hpc].
  - apply Submit_inv in Hsub as (_ & _ & -> & _).
    rewrite lookup_insert_ne by congruence. eauto.
  - manager_fields. rewrite lookup_insert_ne by congruence. eauto.
  - manager_fields. eauto.
  - destruct (Cancel_tasks m id0 id) as [->|(t0 & Ht0 & _ & _ & ->)]; [eauto|].
    eexists. split; [done|]. simpl. congruence.
  - manager_fields. eauto.
  - manager_fields. rewrite Ht. destruct (decide (idc = id)); simpl; eauto.
  - manager_fields. rewrite Ht. destruct (decide (ide = id)); simpl; eauto.
  - manager_fields. eauto.
  - manager_fields. eauto.
  - manager_fields. rewrite Ht. destruct (decide (id0 = id)); simpl; eauto.
  - manager_fields. eauto.
  - manager_fields. eauto.
  - manager_fields. rewrite Ht. destruct (decide (id0 = id)); simpl; eauto.
  - manager_fields.
    destruct (pt_finish_tasks Runner.Run Run_keeps_cancelFunc w now id0 id m)
      as [->|(t0 & t' & _ & Ht0 & -> & Hc' & _)]; [eauto|].
    eexists. split; [done|]. congruence.
Qed.

Lemma invariants_reachable (m : Manager) :
  reachable Runner.Run m -> handle_inv m /\ queue_inv m.
Proof.
  induction 1 as [c fs|m m' _ [IHh IHq] Hstep].
  - split; [apply handle_inv_new | apply queue_inv_new].
  - split.
    + by apply (handle_inv_step Runner.Run Run_keeps_cancelFunc m m').
    + apply (queue_inv_step Runner.Run m m'); [|done|done]. by destruct IHh.
Qed.

(** C4, as the code has it: the handle is nil while the task waits for an
    executor, is installed before the task is marked processing, and is
    never cleared.  In every state the manager can reach, a task in the
    queue or in the hands of the worker loop has no handle, a processing
    task has one, a task without handle is queued or was canceled in the
    queue, and a handle once installed stays through every later action,
    terminal states included. *)
Theorem handle_installed_never_cleared (m : Manager) (id : string) (t : Task) :
  reachable Runner.Run m -> tasks m !! id = Some t ->
  (id ∈ taskQueue m \/ held m = Some id -> cancelFunc t = None) /\
  (Status t = StatusProcessing -> cancelFunc t <> None) /\
  (cancelFunc t = None -> Status t = StatusQueued \/ Status t = StatusCanceled) /\
  (forall m', step Runner.Run m m' -> cancelFunc t <> None ->
              exists t', tasks m' !! id = Some t' /\ cancelFunc t' <> None).
Proof.
  intros Hr Ht.
  destruct (invariants_reachable m Hr) as ((_ & _ & H3) & (_ & Hw & _)).
  split; [|split; [|split]].
  - intros Hwait. apply (Hw id t); [|done]. destruct Hwait; auto.
  - intros Hs Hnil. destruct (H3 id t Ht Hnil); congruence.
  - exact (H3 id t Ht).
  - intros m' Hstep Hc. by apply (handle_kept_step m m' id t).
Qed.

Lemma handle_installed_never_cleared_witness :
  reachable Runner.Run submitted /\
  tasks submitted !! "u_0" = Some submitted_task /\
  (cancelFunc submitted_task = None ->
   Status submitted_task = StatusQueued \/ Status submitted_task = StatusCanceled).
Proof.
  assert (reachable Runner.Run submitted) as Hr.
  { eapply reach_step; [apply (reach_new _ cfg0 disk0)|].
    by eapply (step_submit _ _ "u" 0 0 "-i ${INPUT_MEDIA}" "/media/a.mp4" "mp4"). }
  split; [exact Hr|]. split; [reflexivity|].
  apply (handle_installed_never_cleared submitted "u_0" submitted_task Hr).
  reflexivity.
Defined.

(** C4 as stated fails: the manager reaches a state in which a completed
    task still has its handle, and one in which a task canceled in the
    queue has been given a handle by the executor that then dropped it. *)
Lemma handle_outlives_processing :
  (exists m, reachable Runner.Run m /\
             Status <$> (tasks m !! "u_0") = Some StatusCompleted /\
             cancelFunc <$> (tasks m !! "u_0") = Some (Some "u_0")) /\
  (exists m, reachable Runner.Run m /\
             Status <$> (tasks m !! "u_0") = Some StatusCanceled /\
             cancelFunc <$> (tasks m !! "u_0") = Some (Some "u_0")).
Proof.
  split.
  - eexists. split.
    + eapply reach_step; [eapply reach_step; [eapply reach_step; [eapply reach_step;
        [eapply reach_step; [eapply reach_step; [apply reachable_submitted|]|]|]|]|]|].
      * by apply (step_receive _ _ "u_0" []).
      * apply (step_spawn _ _ "u_0"); [reflexivity | by vm_compute].
      * apply (step_install _ _ "u_0"). reflexivity.
      * apply (step_pass _ _ "u_0"); reflexivity.
      * apply (step_begin _ _ 1 "u_0"). reflexivity.
      * apply (step_finish _ _ (happy "abc") 2 "u_0"). reflexivity.
    + split; vm_compute; reflexivity.
  - eexists. split.
    + eapply reach_step; [eapply reach_step; [eapply reach_step; [eapply reach_step;
        [eapply reach_step; [apply reachable_submitted|]|]|]|]|].
      * apply (step_cancel _ _ "u_0").
      * by apply (step_receive _ _ "u_0" []).
      * apply (step_spawn _ _ "u_0"); [reflexivity | by vm_compute].
      * apply (step_install _ _ "u_0"). reflexivity.
      * apply (step_drop _ _ "u_0"); reflexivity.
    + split; vm_compute; reflexivity.
Qed.

End HandleLifetime.

(** ** Paths *)

Section Paths.
Import Strings Filepath.

Lemma split_nonempty (s : string) : split s <> [].
Proof.
  induction s as [|a s IH]; simpl; [done|].
  destruct (Ascii.eqb a Separator); [done|]. by destruct (split s).
Qed.

Lemma no_sep_cons (a : ascii) (s : string) :
  no_sep (String a s) = true -> Ascii.eqb a Separator = false /\ no_sep s = true.
Proof.
  unfold no_sep. simpl. destruct (Ascii.eqb a Separator); [discriminate|done].
Qed.

Lemma split_no_sep (f : string) : no_sep f = true -> split f = [f].
Proof.
  induction f as [|a f IH]; [done|].
  intros [Ha Hf]%no_sep_cons. simpl. by rewrite Ha, IH.
Qed.

(** Splitting after a first element without separator. *)
Lemma split_cons (x r : string) :
  no_sep x = true -> split (x +:+ String Separator r) = x :: split r.
Proof.
  induction x as [|a x IH].
  - intros _. rewrite append_nil_l. simpl. done.
  - intros [Ha Hx]%no_sep_cons. rewrite append_cons. simpl. by rewrite Ha, IH.
Qed.

(** Splitting before a last element without separator. *)
Lemma split_snoc (d f : string) :
  no_sep f = true -> split (d +:+ String Separator f) = (split d ++ [f])%list.
Proof.
  intros Hf. induction d as [|a d IH].
  - rewrite append_nil_l. simpl. by rewrite split_no_sep.
  - rewrite append_cons. simpl. rewrite IH.
    destruct (Ascii.eqb a Separator); [done|].
    pose proof (split_nonempty d). by destruct (split d).
Qed.

Lemma split_all_no_sep (s : string) : Forall (fun c => no_sep c = true) (split s).
Proof.
  induction s as [|a s IH]; simpl; [by repeat constructor|].
  destruct (Ascii.eqb a Separator) eqn:Ha; [by constructor|].
  pose proof (split_nonempty s). destruct (split s) as [|h t]; [done|].
  inversion IH as [|? ? Hh Ht]; subst. constructor; [|done].
  unfold no_sep in *. simpl. by rewrite Ha.
Qed.

Lemma normal_step (rt : bool) (b : nat * list string) (c : string) :
  normal c = true -> clean_step rt b c = (fst b, c :: snd b).
Proof.
  unfold normal, clean_step.
  destruct (String.eqb c ""), (String.eqb c "."), (String.eqb c ".."); try done.
Qed.

Lemma fold_normal (rt : bool) (ns : list string) (b : nat * list string) :
  Forall (fun c => normal c = true) ns ->
  fold_left (clean_step rt) ns b = (fst b, (rev ns ++ snd b)%list).
Proof.
  revert b. induction ns as [|c ns IH]; intros b Hn; [by destruct b|].
  inversion Hn as [|? ? Hc Hns]; subst. simpl.
  rewrite normal_step by done. rewrite IH by done. simpl.
  by rewrite <- app_assoc.
Qed.

Lemma fold_dotdot (n k : nat) :
  fold_left (clean_step false) (repeat ".." n) (k, []) = ((k + n)%nat, []).
Proof.
  revert k. induction n as [|n IH]; intros k; simpl.
  - by rewrite Nat.add_0_r.
  - unfold clean_step at 2. simpl. rewrite IH. f_equal. lia.
Qed.

(** What [Clean] has in its buffer after any input: normal elements behind
    the leading [..], and no leading [..] in a rooted path. *)
Lemma clean_step_inv (rt : bool) (b : nat * list string) (c : string) :
  no_sep c = true ->
  Forall (fun c => normal c = true) (snd b) -> (rt = true -> fst b = O) ->
  Forall (fun c => normal c = true) (snd (clean_step rt b c)) /\
  (rt = true -> fst (clean_step rt b c) = O).
Proof.
  intros Hc Hn Hrt. unfold clean_step.
  destruct (String.eqb c "") eqn:E1; [done|].
  destruct (String.eqb c ".") eqn:E2; [done|].
  destruct (String.eqb c "..") eqn:E3.
  - destruct b as [dd [|top below]]; simpl in *.
    + destruct rt; [by auto|]. split; [constructor|done].
    + inversion Hn; subst. done.
  - simpl. split; [|done]. constructor; [|done].
    unfold normal. by rewrite E1, E2, E3, Hc.
Qed.

Lemma fold_inv (rt : bool) (l : list string) (b : nat * list string) :
  Forall (fun c => no_sep c = true) l ->
  Forall (fun c => normal c = true) (snd b) -> (rt = true -> fst b = O) ->
  Forall (fun c => normal c = true) (snd (fold_left (clean_step rt) l b)) /\
  (rt = true -> fst (fold_left (clean_step rt) l b) = O).
Proof.
  revert b. induction l as [|c l IH]; intros b Hl Hn Hrt; [done|].
  inversion Hl as [|? ? Hc Hl']; subst. simpl.
  destruct (clean_step_inv rt b c) as [Hn' Hrt']; auto.
Qed.

Lemma clean_buf_inv (p : string) :
  Forall (fun c => normal c = true) (snd (clean_buf p)) /\
  (rooted p = true -> fst (clean_buf p) = O).
Proof.
  unfold clean_buf. apply fold_inv; [apply split_all_no_sep|constructor|done].
Qed.

Lemma normal_no_sep (c : string) : normal c = true -> no_sep c = true.
Proof. unfold normal. by intros [_ ?]%andb_true_iff. Qed.

Lemma normal_not_empty (c : string) : normal c = true -> c <> "".
Proof. unfold normal. intros H ->. done. Qed.

Lemma elements_written (p : string) : Forall written (elements p).
Proof.
  unfold elements. destruct (clean_buf_inv p) as [Hn _].
  apply Forall_app. split.
  - induction (fst (clean_buf p)) as [|n IH]; simpl; constructor; [by split|done].
  - apply Forall_rev. eapply Forall_impl; [exact Hn|].
    intros c Hc. split; [by apply normal_no_sep | by apply normal_not_empty].
Qed.

Lemma join_cons (x y : string) (l : list string) :
  join_elements (x :: y :: l) = x +:+ String Separator (join_elements (y :: l)).
Proof. reflexivity. Qed.

Lemma split_join (l : list string) :
  l <> [] -> Forall written l -> split (join_elements l) = l.
Proof.
  induction l as [|x [|y l] IH]; [done| |].
  - intros _ Hl. inversion Hl as [|? ? [Hx _] _]; subst.
    by apply split_no_sep.
  - intros _ Hl. inversion Hl as [|? ? [Hx _] Hl']; subst.
    rewrite join_cons, split_cons by done. by rewrite IH.
Qed.

(** A non-empty list of written elements joins to a string that is not
    empty and does not begin with a separator. *)
Lemma join_head (l : list string) :
  l <> [] -> Forall written l ->
  String.eqb (join_elements l) "" = false /\ rooted (join_elements l) = false.
Proof.
  destruct l as [|x l]; [done|]. intros _ Hl.
  inversion Hl as [|? ? [Hx Hne] _]; subst.
  destruct x as [|a x]; [done|]. apply no_sep_cons in Hx as [Ha _].
  destruct l as [|y l]; [by simpl|].
  rewrite join_cons, append_cons. by simpl.
Qed.

(** Cleaning a list of elements that [Clean] wrote gives them back. *)
Lemma fold_written (rt : bool) (dd : nat) (out : list string) :
  Forall (fun c => normal c = true) out -> (rt = true -> dd = O) ->
  fold_left (clean_step rt) (repeat ".." dd ++ rev out) (O, []) = (dd, out).
Proof.
  intros Hn Hrt. rewrite fold_left_app.
  assert (fold_left (clean_step rt) (repeat ".." dd) (O, []) = (dd, [])) as ->.
  { destruct rt; [by rewrite Hrt|]. by rewrite fold_dotdot. }
  rewrite fold_normal by (by apply Forall_rev). simpl.
  by rewrite rev_involutive, app_nil_r.
Qed.

(** [Clean] is idempotent on the elements and keeps a path rooted or not. *)
Lemma Clean_elements (p : string) :
  elements (Clean p) = elements p /\ rooted (Clean p) = rooted p.
Proof.
  unfold Clean. destruct (String.eqb_spec p "") as [->|Hp]; [done|].
  pose proof (elements_written p) as Hw.
  destruct (clean_buf_inv p) as [Hn Hrt].
  destruct (rooted p) eqn:R.
  - split; [|done].
    change ("/" +:+ join_elements (elements p))
      with (String Separator (join_elements (elements p))).
    unfold elements at 1, clean_buf. cbn [rooted split]. rewrite Ascii.eqb_refl.
    cbn [fold_left]. change (clean_step true (O, []) "") with (O, @nil string).
    destruct (elements p) as [|x l] eqn:E; [done|].
    rewrite split_join by done. rewrite <- E. unfold elements at 1 2.
    rewrite fold_written by done. reflexivity.
  - destruct (elements p) as [|x l] eqn:E; [done|].
    destruct (join_head (x :: l)) as [-> Hr]; [done|done|].
    split; [|done].
    unfold elements at 1, clean_buf. rewrite Hr, split_join by done.
    rewrite <- E. unfold elements at 1 2.
    rewrite fold_written by (done || by rewrite R). reflexivity.
Qed.

End Paths.

Section OutputPath.
Import Strings Filepath Task Runner Spec.

Lemma length_append (a b : string) :
  String.length (a +:+ b) = (String.length a + String.length b)%nat.
Proof.
  induction a as [|c a IH]; [done|]. rewrite append_cons. simpl. by rewrite IH.
Qed.

Lemma no_sep_append (a b : string) :
  no_sep a = true -> no_sep b = true -> no_sep (a +:+ b) = true.
Proof.
  intros Ha Hb. induction a as [|c a IH]; [done|].
  apply no_sep_cons in Ha as [Hc Ha]. rewrite append_cons.
  unfold no_sep in *. simpl. rewrite Hc. by apply IH.
Qed.

Lemma output_name_normal (id ext : string) :
  no_sep id = true -> no_sep ext = true -> normal (output_name id ext) = true.
Proof.
  intros Hid Hext. unfold normal, output_name.
  assert (8 <= String.length (id +:+ "_output." +:+ ext))%nat as Hlen.
  { rewrite !length_append. simpl. lia. }
  assert (forall s, (String.length s < 8)%nat ->
                    String.eqb (id +:+ "_output." +:+ ext) s = false) as Hne.
  { intros s Hs. apply String.eqb_neq. intros Heq. rewrite Heq in Hlen. lia. }
  rewrite !Hne by (simpl; lia). simpl.
  apply no_sep_append; [done|]. by apply no_sep_append.
Qed.

Lemma elements_single (f : string) :
  normal f = true -> elements f = [f] /\ rooted f = false.
Proof.
  intros Hf. pose proof (normal_no_sep f Hf) as Hs. split.
  - unfold elements, clean_buf. rewrite split_no_sep by done. simpl.
    by rewrite normal_step.
  - destruct f as [|a f]; [done|]. by apply no_sep_cons in Hs as [Ha _].
Qed.

Lemma elements_snoc (d f : string) :
  d <> "" -> normal f = true ->
  elements (d +:+ "/" +:+ f) = (elements d ++ [f])%list /\
  rooted (d +:+ "/" +:+ f) = rooted d.
Proof.
  intros Hd Hf.
  assert (rooted (d +:+ "/" +:+ f) = rooted d) as Hr by (by destruct d).
  split; [|done].
  change (d +:+ "/" +:+ f) with (d +:+ String Separator f) in *.
  unfold elements, clean_buf. rewrite Hr, split_snoc by (by apply normal_no_sep).
  rewrite fold_left_app. simpl. rewrite normal_step by done. simpl.
  by rewrite app_assoc.
Qed.

Lemma strip_prefix_app (l r : list string) : strip_prefix l (l ++ r) = Some r.
Proof. induction l as [|x l IH]; [done|]. simpl. by rewrite String.eqb_refl. Qed.

(** A normal element joined to a directory lies inside that directory. *)
Lemma inside_Join (dir f : string) :
  normal f = true -> inside dir (Join dir f) = true.
Proof.
  intros Hf. unfold inside, Join.
  assert (String.eqb f ".." = false) as Hdd.
  { unfold normal in Hf. by destruct (String.eqb f ".."), (String.eqb f ""), (String.eqb f "."). }
  destruct (String.eqb_spec dir "") as [->|Hd]; simpl negb; cbv iota.
  - destruct (String.eqb_spec f "") as [->|_]; [done|]. simpl negb. cbv iota.
    destruct (Clean_elements f) as [-> ->].
    destruct (elements_single f Hf) as [-> ->]. simpl. by rewrite Hdd.
  - destruct (Clean_elements (dir +:+ "/" +:+ f)) as [-> ->].
    destruct (elements_snoc dir f Hd Hf) as [-> ->].
    rewrite strip_prefix_app. simpl. rewrite Hdd. simpl.
    by destruct (rooted dir).
Qed.

Lemma Run_ok_OutputPath (w : World) (cfg : Config) (fs : FS) (t : Task) :
  err (Run w cfg fs t) = None ->
  OutputPath (task (Run w cfg fs t))
  = Join (TempDir cfg) (output_name (ID t) (OutputExt t)).
Proof.
  unfold Run, run_staged, output_name.
  repeat case_match; simpl; intros; simplify_eq; reflexivity.
Qed.

(** No letter or digit is the separator. *)
Lemma alnum_no_sep (s : string) : alnum s = true -> no_sep s = true.
Proof.
  induction s as [|c s IH]; [done|]. simpl.
  intros [Hc Hs]%andb_true_iff. unfold no_sep in *. simpl.
  destruct (Ascii.eqb_spec c Separator) as [->|_]; [done|]. by apply IH.
Qed.


End OutputPath.

Section PathRuns.
Import Strings Filepath Task Runner Manager Handler Spec Scenario.



(** C10 fails on the code.  [..] is its own base name, so [GetFilePath]
    accepts it and returns the parent of the temp root; [.] gives the temp
    root itself. *)
Theorem GetFilePath_leaves_temp_root (w : World) :
  Base ".." = ".." /\
  GetFilePath w (manager_with task1) ".." = ("/tmp", None) /\
  inside (TempDir cfg0) "/tmp" = false /\
  GetFilePath w (manager_with task1) "." = ("/tmp/ffwebapi_1", None) /\
  inside (TempDir cfg0) "/tmp/ffwebapi_1" = false.
Proof.
  assert (forall name p, Base name = name -> Join (TempDir cfg0) name = p -> p ∈ disk0 ->
                         GetFilePath w (manager_with task1) name = (p, None)) as H.
  { intros name p Hb Hj Hin. unfold GetFilePath. rewrite Hb, String.eqb_refl.
    simpl negb. cbv iota. change (cfg (manager_with task1)) with cfg0. rewrite Hj.
    unfold Stat. destruct (StatFault w p); [done|].
    change (disk (manager_with task1)) with disk0. by rewrite bool_decide_eq_true_2. }
  split; [reflexivity|]. split; [|split; [reflexivity|split; [|reflexivity]]].
  - apply H; [reflexivity|reflexivity|set_solver].
  - apply H; [reflexivity|reflexivity|set_solver].
Qed.

Lemma cancel_terminal_rejected_queued_dropped_witness :
  tasks (manager_with task1) !! "id1" = Some task1 /\
  snd (Cancel (manager_with task1) "id1") = None /\
  exists t', tasks (fst (Cancel (manager_with task1) "id1")) !! "id1" = Some t' /\
             Task.Status t' = Task.StatusCanceled /\
             Task.Error t' = "Canceled by user while in queue" /\
             same_but_outcome task1 t'.
Proof.
  split; [reflexivity|].
  destruct (cancel_terminal_rejected_queued_dropped Run (manager_with task1) "id1" task1)
    as [_ Hq]; [reflexivity|].
  destruct (Hq eq_refl eq_refl) as (Hn & Ht & _). split; [exact Hn | exact Ht].
Defined.

End PathRuns.

(** ** Scheduling *)

Section Scheduling.
Import Task Manager Inv Sched.

Variable runner : World -> Config -> FS -> Task -> Runner.RunResult.

Lemma step_cfg (m m' : Manager) : step runner m m' -> cfg m' = cfg m.
Proof.
  intros Hstep.
  destruct Hstep as [uuid now1 now2 command inputMedia outputExt m' t Hsub Hfresh
                    | uuid now1 now2 command inputMedia outputExt ts Hts Hfresh
                    | ids l1 l2 Hcalls Hroom | id | idr tr Htr Hqr
                    | idc l1 l2 Hcalls | ide l1 l2 Hcalls
                    | id q Hq Hhd | id Hhd Hsz | id Hpc | id Hpc Hck
                    | id Hpc Hck | now id Hpc | w now id Hpc]; try reflexivity.
  - unfold Submit in Hsub. destruct (100 <=? length (taskQueue m))%nat; [done|].
    by injection Hsub as <- _.
  - unfold Cancel. destruct (tasks m !! id) as [t|]; [|done].
    destruct (Status t); try done. by destruct (cancelFunc t).
  - unfold pt_return, pt_finish. by destruct (tasks m !! id).
Qed.

Lemma slots_bounded_step (m m' : Manager) :
  slots_bounded m -> step runner m m' -> slots_bounded m'.
Proof.
  intros Hb Hstep. unfold slots_bounded in *.
  rewrite (step_cfg m m' Hstep).
  destruct Hstep as [uuid now1 now2 command inputMedia outputExt m' t Hsub Hfresh
                    | uuid now1 now2 command inputMedia outputExt ts Hts Hfresh
                    | ids l1 l2 Hcalls Hroom | id | idr tr Htr Hqr
                    | idc l1 l2 Hcalls | ide l1 l2 Hcalls
                    | id q Hq Hhd | id Hhd Hsz | id Hpc | id Hpc Hck
                    | id Hpc Hck | now id Hpc | w now id Hpc].
  - apply Submit_inv in Hsub as (_ & _ & _ & _ & _ & -> & _). done.
  - done.
  - done.
  - destruct (Cancel_rest m id) as (_ & _ & -> & _). done.
  - done.
  - done.
  - done.
  - done.
  - manager_fields. rewrite map_size_insert.
    destruct (execs m !! id); simpl; lia.
  - manager_fields. rewrite map_size_insert_Some by eauto. done.
  - manager_fields. rewrite map_size_delete, Hpc. simpl. lia.
  - manager_fields. rewrite map_size_insert_Some by eauto. done.
  - manager_fields. rewrite map_size_insert_Some by eauto. done.
  - destruct (pt_finish_rest runner w now id m) as (_ & _ & Ee & _).
    manager_fields. rewrite Ee, map_size_delete, Hpc. simpl. lia.
Qed.

Lemma processing_running_step (m m' : Manager) :
  held_once m -> processing_running m -> step runner m m' -> processing_running m'.
Proof.
  intros (_ & _ & He) Hp Hstep.
  destruct Hstep as [uuid now1 now2 command inputMedia outputExt m' t Hsub Hfresh
                    | uuid now1 now2 command inputMedia outputExt ts Hts Hfresh
                    | ids l1 l2 Hcalls Hroom | id | idr tr Htr Hqr
                    | idc l1 l2 Hcalls | ide l1 l2 Hcalls
                    | id q Hq Hhd | id Hhd Hsz | id Hpc | id Hpc Hck
                    | id Hpc Hck | now id Hpc | w now id Hpc]; intros id' t'.
  - apply Submit_inv in Hsub as (Hst & _ & -> & _ & _ & -> & _).
    destruct (decide (ID t = id')) as [<-|Hne].
    + rewrite lookup_insert_eq. intros Heq. injection Heq as <-. congruence.
    + rewrite lookup_insert_ne by done. apply Hp.
  - manager_fields. destruct (decide (ID ts = id')) as [<-|Hne].
    + rewrite lookup_insert_eq. intros Heq. injection Heq as <-. by subst ts.
    + rewrite lookup_insert_ne by done. apply Hp.
  - manager_fields. apply Hp.
  - destruct (Cancel_rest m id) as (_ & _ & -> & _).
    destruct (Cancel_tasks m id id') as [->|(t & Ht & _ & _ & ->)]; [apply Hp|].
    intros Heq. injection Heq as <-. done.
  - manager_fields. apply Hp.
  - cbn [tasks execs with_calls]. intros Ht'.
    apply lookup_update_Some in Ht' as (t & Ht & [[_ ->]|[_ ->]]); [exact (Hp id' t Ht)|done].
  - cbn [tasks execs with_calls]. intros Ht'.
    apply lookup_update_Some in Ht' as (t & Ht & [[_ ->]|[_ ->]]); exact (Hp id' t Ht).
  - manager_fields. apply Hp.
  - manager_fields. intros Ht Hs. pose proof (Hp id' t' Ht Hs) as Hr.
    destruct (decide (id = id')) as [<-|Hne]; [|by rewrite lookup_insert_ne].
    destruct (He id) as [_ Hh]; [by eauto|]. done.
  - manager_fields. destruct (decide (id = id')) as [<-|Hne].
    + destruct (tasks m !! id) as [t|] eqn:Ht; simpl; [|done].
      intros Heq. injection Heq as <-. simpl. intros Hs.
      pose proof (Hp id t Ht Hs). congruence.
    + rewrite lookup_insert_ne by done. apply Hp.
  - manager_fields. intros Ht Hs. pose proof (Hp id' t' Ht Hs) as Hr.
    destruct (decide (id = id')) as [<-|Hne]; [congruence|].
    by rewrite lookup_delete_ne.
  - manager_fields. intros Ht Hs. pose proof (Hp id' t' Ht Hs) as Hr.
    destruct (decide (id = id')) as [<-|Hne]; [congruence|].
    by rewrite lookup_insert_ne.
  - manager_fields. destruct (decide (id = id')) as [<-|Hne].
    + intros _ _. by rewrite lookup_insert_eq.
    + rewrite lookup_insert_ne by done. apply Hp.
  - destruct (pt_finish_rest runner w now id m) as (_ & _ & Ee & _).
    manager_fields. rewrite Ee. destruct (decide (id = id')) as [<-|Hne].
    + unfold pt_finish. destruct (tasks m !! id) as [t|] eqn:Ht.
      * cbn [tasks with_disk with_tasks]. rewrite lookup_insert_eq.
        intros Heq. injection Heq as <-. cbn [Status set_CompletedAt].
        unfold classify. destruct (Runner.err _) as [e|]; [|done].
        by destruct (Err.is_ctx_err e).
      * by rewrite Ht.
    + rewrite pt_finish_other, lookup_delete_ne by done. apply Hp.
Qed.

Lemma called_once_step (m m' : Manager) :
  held_in_table m -> held_once m -> unsent m -> called_once m -> step runner m m' ->
  called_once m'.
Proof.
  intros H0 (_ & Hh & He) (_ & Us) (Hnd & Hc) Hstep.
  destruct Hstep as [uuid now1 now2 command inputMedia outputExt m' t Hsub Hfresh
                    | uuid now1 now2 command inputMedia outputExt ts Hts Hfresh
                    | ids l1 l2 Hcalls Hroom | id | idr tr Htr Hqr
                    | idc l1 l2 Hcalls | ide l1 l2 Hcalls
                    | id q Hq Hhd | id Hhd Hsz | id Hpc | id Hpc Hck
                    | id Hpc Hck | now id Hpc | w now id Hpc]; unfold called_once.
  - pose proof (Submit_sending _ _ _ _ _ _ _ _ _ Hsub) as Hsd.
    apply Submit_inv in Hsub as (_ & _ & -> & -> & -> & -> & -> & _). rewrite Hsd.
    split; [done|]. intros id Hid. destruct (Hc id Hid) as ([x Hx] & Hq & Hhd & Hs & Hex).
    assert (ID t <> id) by congruence.
    rewrite lookup_insert_ne by done. split; [eauto|]. split; [|done].
    intros [Hin|Hin%list_elem_of_singleton]%elem_of_app; congruence.
  - manager_fields. cbn [sending_ids flat_map app].
    split; [done|]. intros id Hid. destruct (Hc id Hid) as ([x Hx] & Hq & Hhd & Hs & Hex).
    assert (ID ts <> id) by congruence.
    rewrite lookup_insert_ne by done. split; [eauto|]. split; [done|]. split; [done|].
    split; [|done]. intros [?|?]%elem_of_cons; [congruence|done].
  - destruct (sending_sent _ _ _ _ Hcalls) as (Hin & Hsub & _).
    manager_fields. split; [done|]. intros id Hid.
    destruct (Hc id Hid) as (Hx & Hq & Hhd & Hs & Hex).
    split; [done|]. split; [|split; [done|split; [|done]]].
    + intros [?|Heq%list_elem_of_singleton]%elem_of_app; [done|]. congruence.
    + intros Hs'. by apply Hs, Hsub.
  - destruct (Cancel_rest m id) as (-> & -> & -> & ->).
    destruct (Cancel_calls m id) as (Ec & _). unfold sending. rewrite Ec.
    split; [done|]. intros id' Hid. destruct (Hc id' Hid) as ([x Hx] & Hrest).
    split; [|done].
    destruct (Cancel_tasks m id id') as [->|(t & _ & _ & _ & ->)]; eauto.
  - done.
  - unfold sending. cbn [calls with_calls taskQueue held execs tasks driverCalls].
    rewrite (sending_status _ _ _ _ Hcalls). split; [done|]. intros id' Hid.
    rewrite lookup_update_is_Some. by apply Hc.
  - unfold sending. cbn [calls with_calls taskQueue held execs tasks driverCalls].
    rewrite (sending_error _ _ _ _ Hcalls). split; [done|]. intros id' Hid.
    rewrite lookup_update_is_Some. by apply Hc.
  - manager_fields. split; [done|]. intros id' Hid.
    destruct (Hc id' Hid) as (Hx & Hnq & Hhd' & Hs & Hex). rewrite Hq in Hnq.
    apply not_elem_of_cons in Hnq as [Hne Hnq].
    repeat split; [done|done|congruence|done|done].
  - manager_fields. split; [done|]. intros id' Hid.
    destruct (Hc id' Hid) as (Hx & Hnq & Hhd' & Hs & Hex).
    assert (id <> id') by congruence.
    rewrite lookup_insert_ne by done. done.
  - split; [manager_fields; done|]. intros id' Hid. manager_fields.
    destruct (Hc id' Hid) as ([x Hx] & Hnq & Hhd' & Hs & Hex).
    assert (id <> id') by (intros <-; destruct Hex; congruence).
    destruct (decide (id = id')); [done|]. rewrite lookup_insert_ne by done. eauto.
  - manager_fields. split; [done|]. intros id' Hid.
    destruct (Hc id' Hid) as (Hx & Hnq & Hhd' & Hs & Hex).
    assert (id <> id') by (intros <-; destruct Hex; congruence).
    rewrite lookup_delete_ne by done. done.
  - manager_fields. split; [done|]. intros id' Hid.
    destruct (Hc id' Hid) as (Hx & Hnq & Hhd' & Hs & Hex).
    assert (id <> id') by (intros <-; destruct Hex; congruence).
    rewrite lookup_insert_ne by done. done.
  - assert (id ∉ driverCalls m) as Hnew.
    { intros Hid. destruct (Hc id Hid) as (_ & _ & _ & _ & [?|?]); congruence. }
    destruct (He id) as [Hnq Hnh]; [by eauto|].
    destruct (H0 id) as [x Hx]; [right; right; left; by eauto|].
    assert (id ∉ sending m) as Hns.
    { intros Hs. destruct (Us id Hs) as (_ & _ & Hn). congruence. }
    split; [manager_fields; by apply NoDup_cons|].
    intros id' Hid. manager_fields. apply elem_of_cons in Hid as [->|Hid].
    + rewrite Hx, lookup_insert_eq. destruct (decide (id = id)); [|done].
      simpl. eauto 10.
    + destruct (Hc id' Hid) as ([y Hy] & Hnq' & Hhd' & Hs & Hex).
      assert (id <> id') by congruence.
      destruct (decide (id = id')); [done|]. rewrite lookup_insert_ne by done. eauto 10.
  - destruct (pt_finish_rest runner w now id m) as (Eq & Eh & Ee & Ed & Ec).
    manager_fields. rewrite Eq, Eh, Ee, Ed, Ec. split; [done|]. intros id' Hid.
    destruct (Hc id' Hid) as ([y Hy] & Hnq' & Hhd' & Hs & Hex).
    destruct (decide (id = id')) as [<-|Hne].
    + rewrite lookup_delete_eq. split; [|by auto].
      unfold pt_finish. rewrite Hy. cbn [tasks with_disk with_tasks].
      rewrite lookup_insert_eq. eauto.
    + rewrite pt_finish_other, lookup_delete_ne by done. eauto 10.
Qed.

Lemma called_started_step (m m' : Manager) :
  called_once m -> called_started m -> step runner m m' -> called_started m'.
Proof.
  intros (_ & Hc) Hs Hstep.
  assert (forall id, tasks m !! id = None -> id ∉ driverCalls m) as Hfr.
  { intros id Hn Hid. destruct (Hc id Hid) as ([x Hx] & _). congruence. }
  destruct Hstep as [uuid now1 now2 command inputMedia outputExt m' t Hsub Hfresh
                    | uuid now1 now2 command inputMedia outputExt ts Hts Hfresh
                    | ids l1 l2 Hcalls Hroom | id | idr tr Htr Hqr
                    | idc l1 l2 Hcalls | ide l1 l2 Hcalls
                    | id q Hq Hhd | id Hhd Hsz | id Hpc | id Hpc Hck
                    | id Hpc Hck | now id Hpc | w now id Hpc]; intros id' t'.
  - apply Submit_inv in Hsub as (_ & _ & -> & _ & _ & _ & -> & _).
    intros Hid. rewrite lookup_insert_ne; [by apply Hs|].
    intros <-. by apply (Hfr (ID t)).
  - manager_fields. intros Hid. rewrite lookup_insert_ne; [by apply Hs|].
    intros <-. by apply (Hfr (ID ts)).
  - manager_fields. apply Hs.
  - destruct (Cancel_rest m id) as (_ & _ & _ & ->).
    destruct (Cancel_tasks m id id') as [->|(t & _ & _ & _ & ->)]; [apply Hs|].
    intros _ Heq. injection Heq as <-. done.
  - manager_fields. apply Hs.
  - cbn [tasks driverCalls with_calls]. intros Hid Ht'.
    cbn [driverCalls update with_tasks] in Hid.
    apply lookup_update_Some in Ht' as (t & Ht & [[_ ->]|[_ ->]]); [by apply (Hs id')|done].
  - cbn [tasks driverCalls with_calls]. intros Hid Ht'.
    cbn [driverCalls update with_tasks] in Hid.
    apply lookup_update_Some in Ht' as (t & Ht & [[_ ->]|[_ ->]]); exact (Hs id' t Hid Ht).
  - manager_fields. apply Hs.
  - manager_fields. apply Hs.
  - cbn [tasks driverCalls with_execs]. unfold pt_install. intros Hid Ht'.
    cbn [driverCalls update with_tasks] in Hid.
    apply lookup_update_Some in Ht' as (t & Ht & [[_ ->]|[_ ->]]); exact (Hs id' t Hid Ht).
  - manager_fields. apply Hs.
  - manager_fields. apply Hs.
  - cbn [tasks driverCalls with_execs]. unfold pt_begin.
    cbn [tasks driverCalls enter_driver]. intros Hid Ht'.
    cbn [driverCalls update with_tasks] in Hid.
    apply lookup_update_Some in Ht' as (t & Ht & [[Hne ->]|[_ ->]]); [|done].
    apply elem_of_cons in Hid as [->|Hid]; [done|by apply (Hs id')].
  - destruct (pt_finish_rest runner w now id m) as (_ & _ & _ & Ed & _).
    manager_fields. rewrite Ed. destruct (decide (id = id')) as [<-|Hne].
    + intros _. unfold pt_finish. destruct (tasks m !! id) as [t|] eqn:Ht; [|by rewrite Ht].
      cbn [tasks with_disk with_tasks]. rewrite lookup_insert_eq.
      intros Heq. injection Heq as <-. cbn [Status set_CompletedAt].
      unfold classify. destruct (Runner.err _) as [e|]; [|done].
      by destruct (Err.is_ctx_err e).
    + rewrite pt_finish_other by done. apply Hs.
Qed.

End Scheduling.

Section SchedulingReachable.
Import Task Manager Inv Sched Spec.

Lemma sched_new (c : Config) (fs : FS) :
  slots_bounded (NewManager c fs) /\ processing_running (NewManager c fs) /\
  called_once (NewManager c fs) /\ called_started (NewManager c fs).
Proof.
  split; [|split; [|split]].
  - unfold slots_bounded. simpl. rewrite map_size_empty. lia.
  - intros id t Ht. simpl in Ht. by rewrite lookup_empty in Ht.
  - split; [constructor|]. intros id Hid. simpl in Hid. by apply elem_of_nil in Hid.
  - intros id t Hid. simpl in Hid. by apply elem_of_nil in Hid.
Qed.

Lemma sched_reachable (m : Manager) :
  reachable Runner.Run m ->
  slots_bounded m /\ processing_running m /\ called_once m /\ called_started m.
Proof.
  induction 1 as [c fs|m m' Hr (Hs & Hp & Hc & Hf) Hstep]; [apply sched_new|].
  destruct (invariants_reachable m Hr) as ((H0 & _ & _) & (Ho & _ & Hu)).
  split; [|split; [|split]].
  - by apply (slots_bounded_step Runner.Run m m').
  - by apply (processing_running_step Runner.Run m m').
  - by apply (called_once_step Runner.Run m m').
  - by apply (called_started_step Runner.Run m m').
Qed.

Lemma reachable_steps (m m' : Manager) :
  reachable Runner.Run m -> steps Runner.Run m m' -> reachable Runner.Run m'.
Proof.
  intros Hr Hsteps. induction Hsteps as [|a b _ IHs Hab]; [done|].
  by apply (reach_step _ a b).
Qed.

(** The processing tasks never outnumber the executors, and the executors
    never outnumber the slots of the semaphore: at most [MaxConcurrency]
    tasks are processing at any time. *)
Theorem processing_bounded (m : Manager) :
  reachable Runner.Run m ->
  (size (processing m) <= size (execs m))%nat /\
  Z.of_nat (size (execs m)) <= Z.max 0 (MaxConcurrency (cfg m)).
Proof.
  intros Hr. destruct (sched_reachable m Hr) as (Hs & Hp & _ & _).
  split; [|exact Hs].
  rewrite <- (size_dom (processing m)), <- (size_dom (execs m)).
  apply subseteq_size. intros id [t Ht]%elem_of_dom.
  apply map_lookup_filter_Some in Ht as [Ht Hst]. simpl in Hst.
  apply elem_of_dom. rewrite (Hp id t Ht Hst). eauto.
Qed.

(** The driver is entered at most once for a task. *)
Theorem driver_entered_once (m : Manager) :
  reachable Runner.Run m -> NoDup (driverCalls m).
Proof. intros Hr. by destruct (sched_reachable m Hr) as (_ & _ & [Hnd _] & _). Qed.

(** One action on a task whose executor has returned and that no
    [Cancel] under way has in hand: nothing of it changes. *)
Lemma returned_step (m m' : Manager) (id : string) (t : Task) :
  reachable Runner.Run m -> returned id m -> no_cancel_under_way id m ->
  tasks m !! id = Some t -> step Runner.Run m m' ->
  returned id m' /\ no_cancel_under_way id m' /\ tasks m' !! id = Some t.
Proof.
  intros Hr [Hd Hex] [Hn1 Hn2] Ht Hstep.
  destruct (sched_reachable m Hr) as (_ & _ & (_ & Hc) & Hst).
  destruct (Hc id Hd) as (_ & Hnq & Hnh & _ & _).
  pose proof (Hst id t Hd Ht) as Hnotq.
  unfold returned, no_cancel_under_way.
  destruct Hstep as [uuid now1 now2 command inputMedia outputExt m' t1 Hsub Hfresh
                    | uuid now1 now2 command inputMedia outputExt ts Hts Hfresh
                    | ids l1 l2 Hcalls Hroom | id0 | idr tr Htr Hqr
                    | idc l1 l2 Hcalls | ide l1 l2 Hcalls
                    | id0 q Hq Hh | id0 Hh Hsz | id0 Hpc | id0 Hpc Hck
                    | id0 Hpc Hck | now id0 Hpc | w now id0 Hpc].
  - apply Submit_inv in Hsub as (_ & _ & -> & _ & _ & -> & -> & ->).
    rewrite lookup_insert_ne by congruence. done.
  - manager_fields. rewrite lookup_insert_ne by congruence.
    repeat split; [done|done| | |done].
    + intros [?|?]%elem_of_cons; [discriminate|done].
    + intros [?|?]%elem_of_cons; [discriminate|done].
  - manager_fields. rewrite Hcalls in Hn1, Hn2. repeat split; [done|done| | |done].
    + intros [?|?]%elem_of_app; apply Hn1, elem_of_app; [by left|].
      right. by apply elem_of_cons; right.
    + intros [?|?]%elem_of_app; apply Hn2, elem_of_app; [by left|].
      right. by apply elem_of_cons; right.
  - destruct (Cancel_rest m id0) as (_ & _ & -> & ->).
    destruct (Cancel_calls m id0) as (-> & _).
    destruct (Cancel_tasks m id0 id) as [->|(t0 & Ht0 & Hq & _)]; [done|]. congruence.
  - manager_fields. repeat split; [done|done| | |done].
    + intros [Heq|?]%elem_of_cons; [|done]. injection Heq as ->. congruence.
    + intros [?|?]%elem_of_cons; [discriminate|done].
  - assert (idc <> id) as Hne.
    { intros ->. apply Hn1. rewrite Hcalls. apply elem_of_app. right.
      by apply elem_of_cons; left. }
    manager_fields. destruct (decide (idc = id)); [done|].
    rewrite Hcalls in Hn1, Hn2. repeat split; [done|done| | |done].
    + intros [?|[?|?]%elem_of_cons]%elem_of_app; [|discriminate|];
        apply Hn1, elem_of_app; [by left|right; by apply elem_of_cons; right].
    + intros [?|[Heq|?]%elem_of_cons]%elem_of_app; [|congruence|];
        apply Hn2, elem_of_app; [by left|right; by apply elem_of_cons; right].
  - assert (ide <> id) as Hne.
    { intros ->. apply Hn2. rewrite Hcalls. apply elem_of_app. right.
      by apply elem_of_cons; left. }
    manager_fields. destruct (decide (ide = id)); [done|].
    rewrite Hcalls in Hn1, Hn2. repeat split; [done|done| | |done].
    + intros [?|?]%elem_of_app; apply Hn1, elem_of_app; [by left|].
      right. by apply elem_of_cons; right.
    + intros [?|?]%elem_of_app; apply Hn2, elem_of_app; [by left|].
      right. by apply elem_of_cons; right.
  - done.
  - manager_fields. rewrite lookup_insert_ne by congruence. done.
  - manager_fields. destruct (decide (id0 = id)) as [->|]; [congruence|].
    rewrite lookup_insert_ne by done. done.
  - manager_fields. rewrite lookup_delete_ne by congruence. done.
  - manager_fields. rewrite lookup_insert_ne by congruence. done.
  - manager_fields. destruct (decide (id0 = id)) as [->|]; [congruence|].
    rewrite lookup_insert_ne by done. repeat split; try done.
    apply elem_of_cons. by right.
  - assert (id0 <> id) by congruence.
    destruct (pt_finish_rest Runner.Run w now id0 m) as (_ & _ & Ee & Ed & Ec).
    manager_fields. rewrite Ee, Ed, Ec, (pt_finish_other Runner.Run) by done.
    rewrite lookup_delete_ne by done. done.
Qed.

(** Once [processTask] has returned for a task, the task is final: no
    later action of the manager changes anything of its record, unless a
    [Cancel] that found the task queued was still to write when
    [processTask] returned. *)
Theorem returned_task_final (m m' : Manager) (id : string) (t : Task) :
  reachable Runner.Run m -> steps Runner.Run m m' ->
  returned id m -> no_cancel_under_way id m -> tasks m !! id = Some t ->
  tasks m' !! id = Some t.
Proof.
  intros Hr Hsteps Hret Hnc Ht.
  assert (returned id m' /\ no_cancel_under_way id m' /\ tasks m' !! id = Some t)
    as (_ & _ & H); [|exact H].
  induction Hsteps as [|m1 m2 Hsteps (IH1 & IH2 & IH3) Hstep]; [done|].
  apply (returned_step m1 m2 id t); try done. by apply (reachable_steps m m1).
Qed.

Lemma reachable_running : reachable Runner.Run Scenario.running.
Proof.
  eapply reach_step; [eapply reach_step; [eapply reach_step; [eapply reach_step;
    [eapply reach_step; [apply reachable_submitted|]|]|]|]|].
  - by apply (step_receive _ _ "u_0" []).
  - apply (step_spawn _ _ "u_0"); [reflexivity | by vm_compute].
  - apply (step_install _ _ "u_0"). reflexivity.
  - apply (step_pass _ _ "u_0"); reflexivity.
  - apply (step_begin _ _ 1 "u_0"). reflexivity.
Qed.

Lemma reachable_completed : reachable Runner.Run Scenario.completed.
Proof.
  eapply reach_step; [apply reachable_running|].
  apply (step_finish _ _ (Scenario.happy "abc") 2 "u_0"). reflexivity.
Qed.

Lemma completed_lookup :
  tasks Scenario.completed !! "u_0" = Some Scenario.completed_task.
Proof. vm_compute. reflexivity. Qed.

Lemma returned_task_final_witness :
  returned "u_0" Scenario.completed /\
  tasks (fst (Cancel Scenario.completed "u_0")) !! "u_0" = Some Scenario.completed_task.
Proof.
  assert (returned "u_0" Scenario.completed) as Hret.
  { split; [by apply elem_of_cons; left | reflexivity]. }
  split; [exact Hret|].
  apply (returned_task_final Scenario.completed (fst (Cancel Scenario.completed "u_0"))
           "u_0" Scenario.completed_task).
  - apply reachable_completed.
  - eapply steps_next; [apply steps_refl|]. apply (step_cancel _ _ "u_0").
  - exact Hret.
  - split; apply not_elem_of_nil.
  - apply completed_lookup.
Defined.

(** Without the proviso the record is not final: a [Cancel] that found
    the task queued and writes after the run has completed turns the
    completed task into a canceled one. *)
Lemma late_cancel_overwrites :
  exists m, reachable Runner.Run m /\
            Status <$> (tasks m !! "u_0") = Some StatusCanceled /\
            OutputPath <$> (tasks m !! "u_0") = Some "/tmp/ffwebapi_1/u_0_output.mp4" /\
            "u_0" ∈ driverCalls m.
Proof.
  eexists. split.
  - eapply reach_step; [eapply reach_step; [eapply reach_step; [eapply reach_step;
      [eapply reach_step; [eapply reach_step; [eapply reach_step;
        [eapply reach_step; [apply reachable_submitted|]|]|]|]|]|]|]|].
    + by apply (step_cancel_read _ _ "u_0" Scenario.submitted_task).
    + by apply (step_receive _ _ "u_0" []).
    + apply (step_spawn _ _ "u_0"); [reflexivity | by vm_compute].
    + apply (step_install _ _ "u_0"). reflexivity.
    + apply (step_pass _ _ "u_0"); reflexivity.
    + apply (step_begin _ _ 1 "u_0"). reflexivity.
    + apply (step_finish _ _ (Scenario.happy "abc") 2 "u_0"). reflexivity.
    + by apply (step_cancel_status _ _ "u_0" [] []).
  - split; [vm_compute; reflexivity|]. split; [vm_compute; reflexivity|].
    vm_compute. by apply elem_of_cons; left.
Qed.

Lemma processing_bounded_witness :
  (size (processing Scenario.running) <= size (execs Scenario.running))%nat /\
  Z.of_nat (size (execs Scenario.running))
  <= Z.max 0 (MaxConcurrency (cfg Scenario.running)).
Proof. apply (processing_bounded Scenario.running). apply reachable_running. Defined.

Lemma driver_entered_once_witness : NoDup (driverCalls Scenario.completed).
Proof. apply (driver_entered_once Scenario.completed). apply reachable_completed. Defined.

(** With no slot in the semaphore no executor is ever started: the driver
    is never entered and every task stays queued, or canceled by a
    request. *)
Theorem no_slot_no_run (m : Manager) :
  reachable Runner.Run m -> MaxConcurrency (cfg m) = 0 ->
  execs m = ∅ /\ driverCalls m = [] /\
  (forall id t, tasks m !! id = Some t ->
                Status t = StatusQueued \/ Status t = StatusCanceled).
Proof.
  induction 1 as [c fs|m m' Hr IH Hstep]; intros Hmax.
  - split; [done|]. split; [done|]. intros id t Ht. simpl in Ht.
    by rewrite lookup_empty in Ht.
  - rewrite (step_cfg Runner.Run m m' Hstep) in Hmax.
    destruct (IH Hmax) as (He & Hd & Hs).
    destruct Hstep as [uuid now1 now2 command inputMedia outputExt m' t1 Hsub Hfresh
                      | uuid now1 now2 command inputMedia outputExt ts Hts Hfresh
                      | ids l1 l2 Hcalls Hroom | id0 | idr tr Htr Hqr
                      | idc l1 l2 Hcalls | ide l1 l2 Hcalls
                      | id0 q Hq Hh | id0 Hh Hsz | id0 Hpc | id0 Hpc Hck
                      | id0 Hpc Hck | now id0 Hpc | w now id0 Hpc];
      try (rewrite He, lookup_empty in Hpc; discriminate).
    + apply Submit_inv in Hsub as (Hst & _ & -> & _ & _ & -> & -> & _).
      split; [done|]. split; [done|]. intros id t.
      destruct (decide (ID t1 = id)) as [<-|Hne].
      * rewrite lookup_insert_eq. intros Heq. injection Heq as <-. by left.
      * rewrite lookup_insert_ne by done. apply Hs.
    + manager_fields. split; [done|]. split; [done|]. intros id t.
      destruct (decide (ID ts = id)) as [<-|Hne].
      * rewrite lookup_insert_eq. intros Heq. injection Heq as <-. subst ts. by left.
      * rewrite lookup_insert_ne by done. apply Hs.
    + done.
    + destruct (Cancel_rest m id0) as (_ & _ & -> & ->).
      split; [done|]. split; [done|]. intros id t.
      destruct (Cancel_tasks m id0 id) as [->|(t0 & _ & _ & _ & ->)]; [apply Hs|].
      intros Heq. injection Heq as <-. by right.
    + done.
    + split; [done|]. split; [done|]. intros id t. cbn [tasks with_calls]. intros Ht'.
      apply lookup_update_Some in Ht' as (t0 & Ht & [[_ ->]|[_ ->]]);
        [exact (Hs id t0 Ht)|by right].
    + split; [done|]. split; [done|]. intros id t. cbn [tasks with_calls]. intros Ht'.
      apply lookup_update_Some in Ht' as (t0 & Ht & [[_ ->]|[_ ->]]); exact (Hs id t0 Ht).
    + done.
    + rewrite He, map_size_empty in Hsz. lia.
Qed.

Lemma no_slot_no_run_witness :
  MaxConcurrency (cfg Scenario.stuck) = 0 /\
  tasks Scenario.stuck !! "u_0" = Some Scenario.submitted_task /\
  held Scenario.stuck = Some "u_0" /\
  execs Scenario.stuck = ∅ /\ driverCalls Scenario.stuck = [] /\
  (Status Scenario.submitted_task = StatusQueued \/
   Status Scenario.submitted_task = StatusCanceled).
Proof.
  assert (reachable Runner.Run Scenario.stuck) as Hr.
  { eapply reach_step; [eapply reach_step; [apply (reach_new _ Scenario.cfg_no_slot
                                                     Scenario.disk0)|]|].
    - by eapply (step_submit _ _ "u" 0 0 "-i ${INPUT_MEDIA}" "/media/a.mp4" "mp4").
    - by apply (step_receive _ _ "u_0" []). }
  destruct (no_slot_no_run Scenario.stuck Hr eq_refl) as (He & Hd & Hs).
  split; [reflexivity|]. split; [reflexivity|]. split; [reflexivity|].
  split; [exact He|]. split; [exact Hd|].
  apply (Hs "u_0" Scenario.submitted_task). reflexivity.
Defined.

(** In every state the manager can reach, [Cancel] succeeds exactly on the
    tasks of the table that are queued or processing: a processing task
    always has its handle, so that the "no cancellation handle" error does
    not arise; an unknown id and a task in a terminal state are refused. *)
Theorem Cancel_succeeds_iff (m : Manager) (id : string) :
  reachable Runner.Run m ->
  (snd (Cancel m id) = None <->
   exists t, tasks m !! id = Some t /\
             (Status t = StatusQueued \/ Status t = StatusProcessing)).
Proof.
  intros Hr. destruct (invariants_reachable m Hr) as ((_ & _ & H3) & _).
  unfold Cancel. destruct (tasks m !! id) as [t|] eqn:Ht.
  - destruct (Status t) eqn:Hs; cbn [snd].
    + split; [eauto|done].
    + destruct (cancelFunc t) eqn:Hc; cbn [snd]; [split; [eauto|done]|].
      destruct (H3 id t Ht Hc); congruence.
    + split; [done|]. intros (t0 & Heq & [?|?]); congruence.
    + split; [done|]. intros (t0 & Heq & [?|?]); congruence.
    + split; [done|]. intros (t0 & Heq & [?|?]); congruence.
  - split; [done|]. intros (t0 & Heq & _). done.
Qed.

Lemma Cancel_succeeds_iff_witness :
  snd (Cancel Scenario.running "u_0") = None <->
  exists t, tasks Scenario.running !! "u_0" = Some t /\
            (Status t = StatusQueued \/ Status t = StatusProcessing).
Proof. apply (Cancel_succeeds_iff Scenario.running "u_0"). apply reachable_running. Defined.

End SchedulingReachable.

Section CancelFrame.
Import Task Manager Inv Spec.

(** [Cancel] never adds or removes a task and never touches a task other
    than the one named, the queue, the worker loop, the executors, the
    files or the record of driver calls; a refused request changes nothing
    at all. *)
Theorem Cancel_frame (m : Manager) (id : string) :
  dom (tasks (fst (Cancel m id))) = dom (tasks m) /\
  (forall id', id' <> id -> tasks (fst (Cancel m id)) !! id' = tasks m !! id') /\
  taskQueue (fst (Cancel m id)) = taskQueue m /\
  held (fst (Cancel m id)) = held m /\
  execs (fst (Cancel m id)) = execs m /\
  driverCalls (fst (Cancel m id)) = driverCalls m /\
  disk (fst (Cancel m id)) = disk m /\
  (forall e, snd (Cancel m id) = Some e -> fst (Cancel m id) = m).
Proof.
  destruct (Cancel_rest m id) as (Eq & Eh & Ee & Ed).
  split; [|split; [|repeat split; try done]].
  - apply set_eq. intros id'. rewrite !elem_of_dom.
    destruct (Cancel_tasks m id id') as [->|(t & Ht & _ & _ & ->)]; [done|].
    rewrite Ht. split; eauto.
  - intros id' Hne.
    destruct (Cancel_tasks m id id') as [->|(t & _ & _ & Heq & _)]; [done|congruence].
  - unfold Cancel. destruct (tasks m !! id) as [t|]; [|done].
    destruct (Status t); try done. by destruct (cancelFunc t).
  - unfold Cancel. destruct (tasks m !! id) as [t|]; [|done].
    destruct (Status t); try done. by destruct (cancelFunc t).
Qed.

(** [Submit] and [Get].  [Submit] makes a queued task whose id is the
    uuid and the first reading of the clock, whose creation time is the
    second reading and whose other fields are those of the request, and
    stores it before it sends it.  From the store on, [Get] finds the
    task under its id and answers every other id as before, while the
    queue is still as it was.  [Submit] returns without waiting exactly
    when fewer than a hundred tasks are queued; the task it returns is
    that task, now also the last of the queue. *)
Theorem Submit_Get (uuid : string) (now1 now2 : Z) (command inputMedia outputExt : string)
    (m : Manager) (t : Task) :
  t = new_task uuid now1 now2 command inputMedia outputExt ->
  (ID t = uuid +:+ "_" +:+ Strings.itoa now1 /\
   Status t = StatusQueued /\ Command t = command /\ InputMedia t = inputMedia /\
   OutputExt t = outputExt /\ CreatedAt t = now2 /\ cancelFunc t = None) /\
  (Get (store t m) (ID t) = Some t /\
   (forall id, id <> ID t -> Get (store t m) id = Get m id) /\
   taskQueue (store t m) = taskQueue m) /\
  (forall m' t',
     Submit uuid now1 now2 command inputMedia outputExt m = Some (m', t') ->
     t' = t /\ Get m' (ID t) = Some t /\
     (forall id, id <> ID t -> Get m' id = Get m id) /\
     taskQueue m' = (taskQueue m ++ [ID t])%list) /\
  (Submit uuid now1 now2 command inputMedia outputExt m = None <->
   (100 <= length (taskQueue m))%nat).
Proof.
  intros ->. split; [done|]. split; [|split].
  - unfold Get, store. cbn [tasks with_tasks taskQueue].
    split; [by rewrite lookup_insert_eq|]. split; [|done].
    intros id Hne. by rewrite lookup_insert_ne.
  - intros m' t'. unfold Submit.
    destruct (100 <=? length (taskQueue m))%nat; [done|].
    intros Heq. injection Heq as <- <-. split; [done|].
    unfold Get, send, store. cbn [tasks with_tasks with_queue taskQueue].
    split; [by rewrite lookup_insert_eq|]. split; [|done].
    intros id Hne. by rewrite lookup_insert_ne.
  - unfold Submit.
    destruct (Nat.leb_spec 100 (length (taskQueue m))); split; try done; lia.
Qed.

Lemma Submit_Get_witness :
  Submit "u" 0 0 "-i ${INPUT_MEDIA}" "/media/a.mp4" "mp4"
    (NewManager Scenario.cfg0 Scenario.disk0)
  = Some (Scenario.submitted, Scenario.submitted_task) /\
  Get Scenario.submitted "u_0" = Some Scenario.submitted_task /\
  taskQueue Scenario.submitted = ["u_0"].
Proof.
  split; [reflexivity|].
  destruct (Submit_Get "u" 0 0 "-i ${INPUT_MEDIA}" "/media/a.mp4" "mp4"
              (NewManager Scenario.cfg0 Scenario.disk0) Scenario.submitted_task eq_refl)
    as (_ & _ & Hret & _).
  destruct (Hret Scenario.submitted Scenario.submitted_task eq_refl) as (_ & Hg & _ & Hq).
  split; [exact Hg | exact Hq].
Defined.

(** The send on the queue blocks exactly when a hundred tasks wait in it. *)
Lemma Submit_blocks_iff (uuid : string) (now1 now2 : Z)
    (command inputMedia outputExt : string) (m : Manager) :
  Submit uuid now1 now2 command inputMedia outputExt m = None <->
  (100 <= length (taskQueue m))%nat.
Proof.
  unfold Submit. destruct (Nat.leb_spec 100 (length (taskQueue m))); split; try done; lia.
Qed.

End CancelFrame.

Section Outcome.
Import Task Manager Inv Spec.

Variable runner : World -> Config -> FS -> Task -> Runner.RunResult.

(** [processTask] on a task that was not canceled in the queue, for any
    runner: the runner is called once, on the task marked processing; its
    log, its files and the time are recorded; a nil error completes the
    task, [context.Canceled] or [context.DeadlineExceeded] itself cancels
    it with the text "Task was canceled or timed out", and any other error
    fails it with the error's own message. *)
Theorem processTask_outcome (w : World) (now1 now2 : Z) (id : string)
    (m : Manager) (t : Task) :
  tasks m !! id = Some t -> Status t <> StatusCanceled ->
  exists r t',
    r = runner w (cfg m) (disk m)
          (set_StartedAt now1 (set_Status StatusProcessing (set_cancelFunc (Some id) t))) /\
    tasks (processTask runner w now1 now2 id m) !! id = Some t' /\
    driverCalls (processTask runner w now1 now2 id m) = id :: driverCalls m /\
    disk (processTask runner w now1 now2 id m) = Runner.files r /\
    FFMpegOutput t' = Runner.logOutput r /\ CompletedAt t' = now2 /\
    match Runner.err r with
    | None => Status t' = StatusCompleted
    | Some e =>
        if Err.is_ctx_err e
        then Status t' = StatusCanceled /\ Task.Error t' = "Task was canceled or timed out"
        else Status t' = StatusFailed /\ Task.Error t' = Err.Error e
    end.
Proof.
  intros Ht Hs.
  destruct (processTask_classifies runner w now1 now2 id m t Ht Hs) as (tb & -> & Hl).
  eexists _, _. split; [reflexivity|]. split; [exact Hl|].
  assert (pt_check id (pt_install id m) = false) as Hck.
  { unfold pt_check, pt_install. rewrite lookup_update, Ht.
    destruct (decide (id = id)); [|done]. simpl. by destruct (Status t). }
  assert (tasks (pt_begin now1 id (pt_install id m)) !! id
          = Some (set_StartedAt now1 (set_Status StatusProcessing
                                        (set_cancelFunc (Some id) t)))) as Hb.
  { manager_fields. rewrite Ht. by destruct (decide (id = id)). }
  unfold processTask. rewrite Hck. unfold pt_return, pt_finish. rewrite Hb.
  cbn [driverCalls disk with_execs call_cancel with_disk with_tasks cfg
       pt_begin enter_driver pt_install update].
  split; [reflexivity|]. split; [reflexivity|].
  cbn [FFMpegOutput CompletedAt set_CompletedAt].
  destruct (Runner.err _) as [e|]; cbn [classify].
  - destruct (Err.is_ctx_err e); cbn; done.
  - cbn. done.
Qed.

End Outcome.

Section OutcomeRuns.
Import Task Manager Runner Scenario.

Lemma processTask_outcome_witness :
  tasks (manager_with task1) !! "id1" = Some task1 /\
  Status task1 <> StatusCanceled /\
  exists t', tasks (processTask Run (happy "abc") 1 2 "id1" (manager_with task1)) !! "id1"
             = Some t' /\ CompletedAt t' = 2.
Proof.
  split; [reflexivity|]. split; [discriminate|].
  destruct (processTask_outcome Run (happy "abc") 1 2 "id1" (manager_with task1) task1)
    as (r & t' & _ & Hl & _ & _ & _ & Hc & _); [reflexivity|discriminate|].
  exists t'. split; [exact Hl|exact Hc].
Defined.

End OutcomeRuns.

(** ** More on staging and on the driver *)

Section StagingBounds.
Import Strings Runner Spec.

(** Which inputs staging accepts, the temp file being creatable, writable
    and closable.  A download answered 200 is staged exactly when its
    body holds at most [MaxInputSize] bytes.  A local file is staged
    exactly when the size that [Stat] reports is at most [MaxInputSize],
    whatever number of bytes the copy then delivers.  A refused input
    gets the error of its kind, which for a local file tells the
    reported size. *)
Theorem staging_accepts_iff_within_limit (w : World) (cfg : Config) (fs : FS)
    (inputMedia taskID body : string) (size : Z) :
  MaxInputSize cfg < MaxInt64 -> quiet w ->
  (downloads w inputMedia body ->
   (stage_err (prepareInput w cfg fs inputMedia taskID) = None <->
    Z.of_nat (String.length body) <= MaxInputSize cfg) /\
   (MaxInputSize cfg < Z.of_nat (String.length body) ->
    stage_err (prepareInput w cfg fs inputMedia taskID)
    = Some (Errorf ("input file size exceeds limit of "
                      +:+ itoa (MaxInputSize cfg) +:+ " bytes")))) /\
  (opens w inputMedia size body ->
   (stage_err (prepareInput w cfg fs inputMedia taskID) = None <->
    size <= MaxInputSize cfg) /\
   (MaxInputSize cfg < size ->
    stage_err (prepareInput w cfg fs inputMedia taskID)
    = Some (Errorf ("input file size " +:+ itoa size +:+ " exceeds limit of "
                      +:+ itoa (MaxInputSize cfg) +:+ " bytes")))).
Proof.
  intros Hmax Hq. split.
  - intros (Hurl & resp & Hdo & Hcode & <-).
    rewrite (prepareInput_url w cfg fs inputMedia taskID resp) by done.
    destruct (Z_lt_le_dec (MaxInputSize cfg) (Z.of_nat (String.length (Body resp)))).
    + rewrite gtb_true by lia. split; [split; [done|lia]|done].
    + rewrite gtb_false by lia. split; [done|lia].
  - intros (Hurl & Hdata & f & Hopen & Hstat & <- & _).
    rewrite (prepareInput_local w cfg fs inputMedia taskID f) by done.
    destruct (Z_lt_le_dec (MaxInputSize cfg) (Size f)).
    + rewrite gtb_true by lia. split; [split; [done|lia]|done].
    + rewrite gtb_false by lia. split; [done|lia].
Qed.

(** What [prepareInput] does to the files and what it hands back. *)
Lemma prepareInput_shape (w : World) (cfg : Config) (fs : FS)
    (inputMedia taskID : string) :
  match CreateTempErr w with
  | Some e => prepareInput w cfg fs inputMedia taskID = (fs, ("", None, Some e))
  | None =>
      exists path oe,
        prepareInput w cfg fs inputMedia taskID
        = ({[TempDir cfg +:+ "/" +:+ taskID +:+ "_input_" +:+ Nonce w]} ∪ fs,
           (path, Some (TempDir cfg +:+ "/" +:+ taskID +:+ "_input_" +:+ Nonce w), oe)) /\
        path = match oe with
               | None => TempDir cfg +:+ "/" +:+ taskID +:+ "_input_" +:+ Nonce w
               | Some _ => ""
               end
  end.
Proof.
  unfold prepareInput, close_and_return.
  destruct (CreateTempErr w); [reflexivity|].
  repeat case_match; eexists _, _; (split; [reflexivity|reflexivity]).
Qed.

End StagingBounds.

Section Artifacts.
Import Strings Filepath Task Runner Manager Spec.

Lemma Clean_nonempty (p : string) : Clean p <> "".
Proof.
  unfold Clean. destruct (String.eqb p ""); [done|].
  destruct (rooted p); [done|].
  destruct (String.eqb_spec (join_elements (elements p)) ""); done.
Qed.

Lemma Join_nonempty (dir f : string) : f <> "" -> Join dir f <> "".
Proof.
  intros Hf. unfold Join. destruct (String.eqb dir ""); simpl.
  - destruct (String.eqb_spec f ""); [done|]. apply Clean_nonempty.
  - apply Clean_nonempty.
Qed.

Lemma output_name_nonempty (id ext : string) : output_name id ext <> "".
Proof.
  unfold output_name. intros H. apply (f_equal String.length) in H.
  rewrite !length_append in H. simpl in H. lia.
Qed.

Lemma append_inv_head (a b c : string) : a +:+ b = a +:+ c -> b = c.
Proof.
  induction a as [|x a IH]; [done|]. rewrite !append_cons. intros H.
  injection H as H. by apply IH.
Qed.

(** The name of the staged input of a task. *)
Lemma input_name_normal (id nonce : string) :
  no_sep id = true -> no_sep nonce = true ->
  normal (id +:+ "_input_" +:+ nonce) = true.
Proof.
  intros Hid Hn. unfold normal.
  assert (7 <= String.length (id +:+ "_input_" +:+ nonce))%nat as Hlen.
  { rewrite !length_append. simpl. lia. }
  assert (forall s, (String.length s < 7)%nat ->
                    String.eqb (id +:+ "_input_" +:+ nonce) s = false) as Hne.
  { intros s Hs. apply String.eqb_neq. intros Heq. rewrite Heq in Hlen. lia. }
  rewrite !Hne by (simpl; lia). simpl.
  apply no_sep_append; [done|]. by apply no_sep_append.
Qed.

(** The staged input and the output of a task are different files. *)
Lemma input_output_differ (dir id nonce ext : string) :
  dir <> "" -> no_sep id = true -> no_sep nonce = true -> no_sep ext = true ->
  dir +:+ "/" +:+ id +:+ "_input_" +:+ nonce <> Join dir (output_name id ext).
Proof.
  intros Hd Hid Hn He Heq.
  pose proof (input_name_normal id nonce Hid Hn) as Hi.
  pose proof (output_name_normal id ext Hid He) as Ho.
  apply (f_equal elements) in Heq.
  destruct (elements_snoc dir _ Hd Hi) as [Hel _]. rewrite Hel in Heq.
  unfold Join in Heq. destruct (String.eqb_spec dir ""); [done|]. simpl in Heq.
  destruct (Clean_elements (dir +:+ "/" +:+ output_name id ext)) as [Hc _].
  rewrite Hc in Heq. destruct (elements_snoc dir _ Hd Ho) as [Hel' _].
  rewrite Hel' in Heq. apply app_inj_tail in Heq as [_ Heq].
  unfold output_name in Heq. apply append_inv_head in Heq. discriminate.
Qed.

(** A successful run leaves its artifact and takes its staged input away:
    when the transcoder wrote its output and [Run] returned no error, the
    output path recorded on the task exists and the staged input recorded
    on the task is gone. *)
Theorem Run_success_artifact (w : World) (cfg : Config) (fs : FS) (t : Task) :
  TempDir cfg <> "" -> no_sep (ID t) = true -> no_sep (Nonce w) = true ->
  no_sep (OutputExt t) = true -> ExecWrites w = true ->
  err (Run w cfg fs t) = None ->
  InputPath (task (Run w cfg fs t))
  = TempDir cfg +:+ "/" +:+ ID t +:+ "_input_" +:+ Nonce w /\
  OutputPath (task (Run w cfg fs t)) = Join (TempDir cfg) (output_name (ID t) (OutputExt t)) /\
  OutputPath (task (Run w cfg fs t)) ∈ files (Run w cfg fs t) /\
  (InputPath (task (Run w cfg fs t)) ∉ files (Run w cfg fs t)).
Proof.
  intros Hd Hid Hn He Hw Hok.
  pose proof (input_output_differ (TempDir cfg) (ID t) (Nonce w) (OutputExt t)
                Hd Hid Hn He) as Hdiff.
  revert Hok. unfold Run.
  destruct (Gate w); [discriminate|].
  pose proof (prepareInput_shape w cfg fs (InputMedia t) (ID t)) as Hf.
  destruct (CreateTempErr w) as [e|]; [by rewrite Hf|].
  destruct Hf as (path & oe & -> & Hpath).
  destruct oe as [e|]; [discriminate|]. subst path.
  unfold run_staged. destruct (SplitCommand w (Command _)) as [e|args]; [discriminate|].
  destruct (substitute args _) as [args1|]; [|discriminate].
  rewrite Hw. destruct (Exec w _) as [outputLog [e|]]; [discriminate|].
  intros _. cbn [task files InputPath OutputPath set_OutputPath set_InputPath
                 ID OutputExt run_cleanup].
  fold (output_name (ID t) (OutputExt t)).
  split; [done|]. split; [done|]. split.
  - apply elem_of_difference. split.
    + apply elem_of_union. left. by apply elem_of_singleton.
    + intros Heq%elem_of_singleton. by apply Hdiff.
  - intros [_ Hnot]%elem_of_difference. apply Hnot. by apply elem_of_singleton.
Qed.

(** The output path of a task is set exactly by a successful run. *)
Lemma Run_OutputPath_iff (w : World) (cfg : Config) (fs : FS) (t : Task) :
  OutputPath t = "" ->
  (OutputPath (task (Run w cfg fs t)) <> "" <-> err (Run w cfg fs t) = None).
Proof.
  intros Hout. unfold Run, run_staged, SplitCommand.
  pose proof (Join_nonempty (TempDir cfg) (output_name (ID t) (OutputExt t))
                (output_name_nonempty _ _)) as Hj.
  unfold output_name in Hj.
  repeat case_match; simpl; rewrite ?Hout; split; intros; simplify_eq; done.
Qed.

(** When [processTask] has returned, with the driver of the program, the
    task has an output path exactly if it is completed. *)
Theorem processTask_output_iff_completed (w : World) (now1 now2 : Z) (id : string)
    (m : Manager) (t : Task) :
  tasks m !! id = Some t -> OutputPath t = "" ->
  exists t', tasks (processTask Run w now1 now2 id m) !! id = Some t' /\
             (OutputPath t' <> "" <-> Status t' = StatusCompleted).
Proof.
  intros Ht Hout.
  destruct (decide (Status t = StatusCanceled)) as [Hs|Hs].
  - exists (set_cancelFunc (Some id) t). split.
    + unfold processTask.
      assert (pt_check id (pt_install id m) = true) as ->.
      { unfold pt_check, pt_install. rewrite lookup_update, Ht.
        destruct (decide (id = id)); [|done]. simpl. by rewrite Hs. }
      manager_fields. rewrite Ht. by destruct (decide (id = id)).
    + simpl. rewrite Hout, Hs. split; done.
  - destruct (processTask_classifies Run w now1 now2 id m t Ht Hs) as (tb & Htb & ->).
    eexists. split; [reflexivity|].
    cbn [OutputPath Status set_CompletedAt].
    assert (OutputPath tb = "") as Hb by (by subst tb).
    pose proof (Run_OutputPath_iff w (cfg m) (disk m) tb Hb) as Hiff.
    unfold classify. destruct (err (Run w (cfg m) (disk m) tb)) as [e|].
    + destruct (Err.is_ctx_err e); cbn; split; [|done| |done];
        intros Hne; apply Hiff in Hne; done.
    + cbn. split; [done|]. intros _. by apply Hiff.
Qed.

End Artifacts.

(** ** Serving files *)

Section BaseName.
Import Strings Filepath.

Lemma trim_trailing_app (y f : string) :
  f <> "" -> no_sep f = true -> trim_trailing (y +:+ f) = y +:+ f.
Proof.
  intros Hf Hs. induction y as [|a y IH].
  - rewrite append_nil_l. clear Hf. induction f as [|a f IHf]; [done|].
    apply no_sep_cons in Hs as [Ha Hs]. simpl. by rewrite Ha, IHf.
  - rewrite append_cons. simpl. rewrite IH.
    destruct (String.eqb_spec (y +:+ f) "") as [Heq|_]; [|by rewrite andb_false_r].
    apply (f_equal String.length) in Heq. rewrite length_append in Heq.
    destruct f; [done|]. simpl in Heq. lia.
Qed.

Lemma last_snoc (l : list string) (f d : string) : List.last (l ++ [f]) d = f.
Proof. induction l as [|x [|y l] IH]; done. Qed.

Lemma Forall_last (P : string -> Prop) (l : list string) (d : string) :
  l <> [] -> Forall P l -> P (List.last l d).
Proof.
  induction l as [|x [|y l] IH]; [done| |].
  - intros _ H. by inversion H.
  - intros _ H. inversion H; subst. by apply IH.
Qed.

(** A name without separator is its own base name. *)
Lemma Base_no_sep (f : string) : f <> "" -> no_sep f = true -> Base f = f.
Proof.
  intros Hf Hs. unfold Base. destruct (String.eqb_spec f ""); [done|].
  assert (List.last (split (trim_trailing f)) "" = f) as ->.
  { rewrite <- (append_nil_l f) at 1. rewrite trim_trailing_app by done.
    by rewrite append_nil_l, split_no_sep. }
  destruct (String.eqb_spec f ""); done.
Qed.

(** The base name of a path after its last separator. *)
Lemma Base_snoc (d f : string) :
  f <> "" -> no_sep f = true -> Base (d +:+ String Separator f) = f.
Proof.
  intros Hf Hs. unfold Base.
  destruct (String.eqb_spec (d +:+ String Separator f) "") as [Heq|_].
  { apply (f_equal String.length) in Heq. rewrite length_append in Heq.
    simpl in Heq. lia. }
  assert (d +:+ String Separator f = (d +:+ "/") +:+ f) as Hassoc.
  { clear. induction d as [|a d IH]; [done|]. rewrite !append_cons. by rewrite IH. }
  assert (List.last (split (trim_trailing (d +:+ String Separator f))) "" = f) as ->.
  { rewrite Hassoc at 1. rewrite trim_trailing_app by done. rewrite <- Hassoc.
    by rewrite split_snoc, last_snoc. }
  destruct (String.eqb_spec f ""); done.
Qed.

(** A base name is the root or holds no separator. *)
Lemma Base_shape (p : string) : Base p = "/" \/ no_sep (Base p) = true.
Proof.
  unfold Base. destruct (String.eqb p ""); [by right|].
  destruct (String.eqb (List.last (split (trim_trailing p)) "") ""); [by left|].
  right. apply (Forall_last (fun c => no_sep c = true));
    [apply split_nonempty | apply split_all_no_sep].
Qed.

Lemma Base_fixpoint (f : string) :
  Base f = f <-> f = "/" \/ (f <> "" /\ no_sep f = true).
Proof.
  split.
  - intros Hb. destruct (Base_shape f) as [H|H]; rewrite Hb in H; [by left|].
    right. split; [|done]. by intros ->.
  - intros [->|[Hf Hs]]; [done|]. by apply Base_no_sep.
Qed.

Lemma join_snoc (l : list string) (f : string) :
  l <> [] -> join_elements (l ++ [f]) = join_elements l +:+ String Separator f.
Proof.
  induction l as [|x [|y l] IH]; [done|done|].
  intros _. change ((x :: y :: l) ++ [f])%list with (x :: (y :: l) ++ [f])%list.
  change ((y :: l) ++ [f])%list with (y :: (l ++ [f]))%list.
  rewrite (join_cons x y (l ++ [f])).
  change (y :: (l ++ [f]))%list with ((y :: l) ++ [f])%list.
  rewrite IH by done. rewrite (join_cons x y l).
  generalize (join_elements (y :: l)). intros r.
  clear. induction x as [|a x IHx].
  - rewrite !append_nil_l. reflexivity.
  - rewrite !append_cons. by rewrite IHx.
Qed.

(** The base name of a normal element joined to a directory is that
    element. *)
Lemma Base_Join (dir f : string) : normal f = true -> Base (Join dir f) = f.
Proof.
  intros Hf. pose proof (normal_no_sep f Hf) as Hs.
  pose proof (normal_not_empty f Hf) as Hne.
  assert (forall p, p <> "" ->
            (exists E, elements p = (E ++ [f])%list) -> Base (Clean p) = f) as Hclean.
  { intros p Hp [E HE]. unfold Clean. destruct (String.eqb_spec p ""); [done|].
    rewrite HE. destruct E as [|x E].
    - change (join_elements ([] ++ [f])) with f. destruct (rooted p).
      + change ("/" +:+ f) with ("" +:+ String Separator f). by apply Base_snoc.
      + destruct (String.eqb_spec f ""); [done|]. by apply Base_no_sep.
    - rewrite join_snoc by done.
      destruct (rooted p).
      + change ("/" +:+ join_elements (x :: E) +:+ String Separator f)
          with (String Separator (join_elements (x :: E) +:+ String Separator f)).
        rewrite <- append_cons. by apply Base_snoc.
      + destruct (String.eqb_spec (join_elements (x :: E) +:+ String Separator f) "")
          as [Heq|_].
        { apply (f_equal String.length) in Heq. rewrite length_append in Heq.
          simpl in Heq. lia. }
        by apply Base_snoc. }
  unfold Join. destruct (String.eqb_spec dir "") as [->|Hd]; simpl.
  - destruct (String.eqb_spec f ""); [done|]. simpl. apply Hclean; [done|].
    exists []. by destruct (elements_single f Hf).
  - apply Hclean.
    + intros Heq. apply (f_equal String.length) in Heq.
      rewrite !length_append in Heq. simpl in Heq. lia.
    + exists (elements dir). by destruct (elements_snoc dir f Hd Hf).
Qed.

End BaseName.

Section ServingFiles.
Import Strings Filepath Task Runner Manager Api Spec.

(** [GetFilePath] answers with a path exactly for a name that is its own
    base name (the root, or a non-empty name without separator, which
    includes [.] and [..]) when [os.Stat] on its join with the temp root
    does not report that the path is missing: the path exists, or the
    call fails for another reason.  The path is that join.  For a name
    that is a plain path element (not empty, not [.], not [..], without
    separator) the path lies inside the temp root.  Every other request
    gets an empty path and one of the two errors. *)
Theorem GetFilePath_spec (w : World) (m : Manager) (filename : string) :
  (forall p, GetFilePath w m filename = (p, None) <->
     (filename = "/" \/ (filename <> "" /\ no_sep filename = true)) /\
     p = Join (TempDir (cfg m)) filename /\
     (p ∈ disk m \/ StatFault w p <> None)) /\
  (forall p, normal filename = true -> GetFilePath w m filename = (p, None) ->
             inside (TempDir (cfg m)) p = true) /\
  (forall p e, GetFilePath w m filename = (p, Some e) ->
     p = "" /\ (e = Errorf "invalid filename" \/ e = Errorf "file not found")).
Proof.
  unfold GetFilePath.
  destruct (String.eqb_spec (Base filename) filename) as [Hb|Hb]; simpl negb; cbv iota.
  - rewrite Hb.
    assert (IsNotExist (Stat w (disk m) (Join (TempDir (cfg m)) filename)) = false <->
            Join (TempDir (cfg m)) filename ∈ disk m \/
            StatFault w (Join (TempDir (cfg m)) filename) <> None) as Hstat.
    { unfold Stat. destruct (StatFault w _) as [e|].
      - split; [by right|done].
      - destruct (bool_decide_reflect (Join (TempDir (cfg m)) filename ∈ disk m));
          simpl; split; try done; [by left | by intros [?|?]]. }
    destruct (IsNotExist _).
    + split; [|split].
      * intros p. split; [discriminate|]. intros (_ & -> & Hd).
        apply Hstat in Hd. discriminate.
      * intros p _ Heq. discriminate.
      * intros p e Heq. injection Heq as <- <-. auto.
    + split; [|split].
      * intros p. split.
        -- intros Heq. injection Heq as <-. apply Base_fixpoint in Hb.
           split; [done|]. split; [done|]. by apply Hstat.
        -- intros (_ & -> & _). done.
      * intros p Hn Heq. injection Heq as <-. by apply inside_Join.
      * intros p e Heq. discriminate.
  - split; [|split].
    + intros p. split; [discriminate|]. intros (Hf & _). by apply Base_fixpoint in Hf.
    + intros p _ Heq. discriminate.
    + intros p e Heq. injection Heq as <- <-. auto.
Qed.

Lemma buildDownloadURL_completed (baseURL host : string) (tls : bool) (t : Task) :
  Status t = StatusCompleted -> OutputPath t <> "" ->
  buildDownloadURL baseURL tls host t
  = set_DownloadURL
      (TrimSuffixSlash (if String.eqb baseURL ""
                        then (if tls then "https" else "http") +:+ "://" +:+ host
                        else baseURL)
         +:+ "/api/v1/files/" +:+ Base (OutputPath t)) t.
Proof.
  intros Hs Ho. unfold buildDownloadURL. rewrite Hs. simpl.
  by destruct (String.eqb_spec (OutputPath t) "").
Qed.

Lemma buildDownloadURL_other (baseURL host : string) (tls : bool) (t : Task) :
  Status t <> StatusCompleted -> buildDownloadURL baseURL tls host t = t.
Proof. intros Hs. unfold buildDownloadURL. by destruct (Status t). Qed.

End ServingFiles.

Section Download.
Import Strings Filepath Task Runner Manager Api Spec.

Lemma Run_success_output (w : World) (cfg : Config) (fs : FS) (t : Task) :
  TempDir cfg +:+ "/" +:+ ID t +:+ "_input_" +:+ Nonce w
    <> Join (TempDir cfg) (output_name (ID t) (OutputExt t)) ->
  ExecWrites w = true -> err (Run w cfg fs t) = None ->
  OutputPath (task (Run w cfg fs t)) = Join (TempDir cfg) (output_name (ID t) (OutputExt t)) /\
  OutputPath (task (Run w cfg fs t)) ∈ files (Run w cfg fs t).
Proof.
  intros Hdiff Hw Hok. split; [by apply Run_ok_OutputPath|].
  revert Hok. unfold Run. destruct (Gate w); [discriminate|].
  pose proof (prepareInput_shape w cfg fs (InputMedia t) (ID t)) as Hf.
  destruct (CreateTempErr w) as [e|]; [by rewrite Hf|].
  destruct Hf as (path & oe & -> & Hpath).
  destruct oe as [e|]; [discriminate|]. subst path.
  unfold run_staged. destruct (SplitCommand w (Command _)) as [e|args]; [discriminate|].
  destruct (substitute args _) as [args1|]; [|discriminate].
  rewrite Hw. destruct (Exec w _) as [outputLog [e|]]; [discriminate|].
  intros _. cbn [task files OutputPath set_OutputPath set_InputPath ID OutputExt run_cleanup].
  apply elem_of_difference. split.
  - apply elem_of_union. left. by apply elem_of_singleton.
  - intros Heq%elem_of_singleton. by apply Hdiff.
Qed.

Lemma processTask_disk (runner : World -> Config -> FS -> Task -> RunResult)
    (w : World) (now1 now2 : Z) (id : string) (m : Manager) (t : Task) :
  tasks m !! id = Some t -> Status t <> StatusCanceled ->
  cfg (processTask runner w now1 now2 id m) = cfg m /\
  disk (processTask runner w now1 now2 id m)
  = files (runner w (cfg m) (disk m)
             (set_StartedAt now1 (set_Status StatusProcessing (set_cancelFunc (Some id) t)))).
Proof.
  intros Ht Hs.
  assert (pt_check id (pt_install id m) = false) as Hck.
  { unfold pt_check, pt_install. rewrite lookup_update, Ht.
    destruct (decide (id = id)); [|done]. simpl. by destruct (Status t). }
  assert (tasks (pt_begin now1 id (pt_install id m)) !! id
          = Some (set_StartedAt now1 (set_Status StatusProcessing
                                        (set_cancelFunc (Some id) t)))) as Hb.
  { manager_fields. rewrite Ht. by destruct (decide (id = id)). }
  unfold processTask. rewrite Hck. unfold pt_return, pt_finish. rewrite Hb.
  split; reflexivity.
Qed.

(** From a completed run to the file handler, with the driver of the
    program: when [processTask] has completed a task, the status handler
    answers 200 with a download URL made of the base URL, the route of
    the file handler and the name [{taskId}_output.{outputExt}]; the
    output path of the task exists; and the file handler, asked for that
    name, hands that path to [c.File]. *)
Theorem completed_task_file_found (w w' : World) (now1 now2 : Z) (id : string)
    (m : Manager) (t : Task) (baseURL host : string) (tls : bool) :
  tasks m !! id = Some t -> ID t = id -> Status t <> StatusCanceled ->
  TempDir (cfg m) <> "" -> no_sep id = true -> no_sep (Nonce w) = true ->
  no_sep (OutputExt t) = true -> ExecWrites w = true ->
  (exists t1, tasks (processTask Run w now1 now2 id m) !! id = Some t1 /\
              Status t1 = StatusCompleted) ->
  exists t2 m2,
    handleGetTaskStatus baseURL tls host (processTask Run w now1 now2 id m) id
    = (200, m2, Some t2) /\
    Status t2 = StatusCompleted /\
    DownloadURL t2
    = TrimSuffixSlash (if String.eqb baseURL ""
                       then (if tls then "https" else "http") +:+ "://" +:+ host
                       else baseURL)
        +:+ "/api/v1/files/" +:+ output_name id (OutputExt t) /\
    OutputPath t2 = Join (TempDir (cfg m)) (output_name id (OutputExt t)) /\
    OutputPath t2 ∈ disk m2 /\
    handleGetFile w' m2 (output_name id (OutputExt t)) = File (OutputPath t2).
Proof.
  intros Ht Hid Hs Hd Hnid Hnn Hne Hw (t1 & Ht1 & Hc).
  destruct (processTask_classifies Run w now1 now2 id m t Ht Hs) as (tb & Htb & Hl).
  destruct (processTask_disk Run w now1 now2 id m t Ht Hs) as (Hcfg & Hdisk).
  rewrite <- Htb in Hdisk.
  rewrite Hl in Ht1. injection Ht1 as <-.
  assert (err (Run w (cfg m) (disk m) tb) = None) as Hok.
  { cbn [Status set_CompletedAt] in Hc. unfold classify in Hc.
    destruct (err (Run w (cfg m) (disk m) tb)) as [e|]; [|done].
    by destruct (Err.is_ctx_err e). }
  assert (ID tb = id /\ OutputExt tb = OutputExt t) as [Hidb Hextb] by (by subst tb).
  pose proof (output_name_normal id (OutputExt t) Hnid Hne) as Hnorm.
  destruct (Run_success_output w (cfg m) (disk m) tb) as (Hout & Hin); [|done|done|].
  { rewrite Hidb, Hextb. by apply input_output_differ. }
  rewrite Hidb, Hextb in Hout.
  unfold handleGetTaskStatus, Get. rewrite Hl.
  rewrite buildDownloadURL_completed.
  2: { cbn [Status set_CompletedAt]. by rewrite Hok. }
  2: { cbn [OutputPath set_CompletedAt]. rewrite Hok. cbn [classify OutputPath set_Status set_FFMpegOutput].
       rewrite Hout. apply Join_nonempty. apply output_name_nonempty. }
  eexists _, _. split; [reflexivity|].
  rewrite Hok. cbn [classify Status OutputPath DownloadURL set_DownloadURL set_CompletedAt
                    set_Status set_FFMpegOutput].
  rewrite Hout, Base_Join by done.
  split; [done|]. split; [done|]. split; [done|].
  cbn [disk with_tasks]. rewrite Hdisk. split; [by rewrite <- Hout|].
  unfold handleGetFile, GetFilePath.
  cbn [cfg disk with_tasks]. rewrite Hcfg, Hdisk.
  rewrite Base_no_sep by (by apply normal_not_empty || by apply normal_no_sep).
  rewrite String.eqb_refl. simpl negb. cbv iota.
  rewrite <- Hout. unfold Stat. destruct (StatFault w' _); [done|].
  by rewrite bool_decide_eq_true_2.
Qed.

End Download.

(** ** Admission *)

Section Admission.
Import Strings Task Runner Manager Handler Cmd Spec.

Lemma admissible_dec (w : World) (command outputExt : string) :
  admissible w command outputExt \/ ~ admissible w command outputExt.
Proof.
  unfold admissible.
  destruct (String.eqb_spec command ""); [right; tauto|].
  destruct (String.eqb_spec outputExt ""); [right; tauto|].
  destruct (Split w command) as [e|args] eqn:Hs.
  - right. intros (_ & _ & args & Heq & _). discriminate.
  - destruct (SanitizeAndValidateArgs args) eqn:Hv.
    + right. intros (_ & _ & args' & Heq & Hv'). congruence.
    + left. eauto.
Qed.

(** The create-task handler: 202 with the task that [Submit] made exactly
    for an admissible request, 400 with the manager untouched exactly for
    one that is not, and it waits exactly when an admissible request meets
    a full queue.  The input and the extension are not looked at beyond
    the extension being there. *)
Theorem handleCreateTask_spec (w : World) (uuid : string) (now1 now2 : Z)
    (req : TaskRequest) (m : Manager) :
  (forall m' t,
     handleCreateTask w uuid now1 now2 req m = Some (202, m', Some t) <->
     admissible w (rCommand req) (rOutputExt req) /\
     Submit uuid now1 now2 (rCommand req) (rInputMedia req) (rOutputExt req) m = Some (m', t)) /\
  (forall r, handleCreateTask w uuid now1 now2 req m = Some r ->
             ~ admissible w (rCommand req) (rOutputExt req) -> r = (400, m, None)) /\
  (~ admissible w (rCommand req) (rOutputExt req) ->
   handleCreateTask w uuid now1 now2 req m = Some (400, m, None)) /\
  (handleCreateTask w uuid now1 now2 req m = None <->
   admissible w (rCommand req) (rOutputExt req) /\
   (100 <= length (taskQueue m))%nat).
Proof.
  assert (forall e, Split w (rCommand req) = inl e ->
                    ~ admissible w (rCommand req) (rOutputExt req)) as Hsyn.
  { intros e He (_ & _ & args & Heq & _). congruence. }
  assert (forall args e, Split w (rCommand req) = inr args ->
                         SanitizeAndValidateArgs args = Some e ->
                         ~ admissible w (rCommand req) (rOutputExt req)) as Hval.
  { intros args e Hs Hv (_ & _ & args' & Heq & Hv'). congruence. }
  unfold handleCreateTask, SplitCommand.
  destruct (String.eqb_spec (rCommand req) "") as [Hc|Hc]; simpl.
  { assert (~ admissible w (rCommand req) (rOutputExt req)) as Hn
      by (intros (? & _); done).
    repeat split; try done; try (intros [? _]; done).
    by intros r Heq _; injection Heq as <-. }
  destruct (String.eqb_spec (rOutputExt req) "") as [Ho|Ho].
  { assert (~ admissible w (rCommand req) (rOutputExt req)) as Hn
      by (intros (_ & ? & _); done).
    repeat split; try done; try (intros [? _]; done).
    by intros r Heq _; injection Heq as <-. }
  destruct (Split w (rCommand req)) as [e|args] eqn:Hs.
  { pose proof (Hsyn e eq_refl) as Hn.
    repeat split; try done; try (intros [? _]; done).
    by intros r Heq _; injection Heq as <-. }
  destruct (SanitizeAndValidateArgs args) as [e|] eqn:Hv.
  { pose proof (Hval args e eq_refl Hv) as Hn.
    repeat split; try done; try (intros [? _]; done).
    by intros r Heq _; injection Heq as <-. }
  assert (admissible w (rCommand req) (rOutputExt req)) as Hadm.
  { split; [done|]. split; [done|]. eauto. }
  pose proof (Submit_blocks_iff uuid now1 now2 (rCommand req) (rInputMedia req)
                (rOutputExt req) m) as Hblock.
  destruct (Submit uuid now1 now2 (rCommand req) (rInputMedia req) (rOutputExt req) m)
    as [[m1 t1]|] eqn:Hsub.
  - split; [|split; [|split]].
    + intros m' t. split.
      * intros Heq. injection Heq as <- <-. done.
      * intros [_ Heq]. injection Heq as <- <-. done.
    + intros r _ Hn. done.
    + intros Hn. done.
    + split; [done|]. intros [_ Hfull]. apply Hblock in Hfull. done.
  - split; [|split; [|split]].
    + intros m' t. split; [done|]. intros [_ Heq]. done.
    + intros r Heq. done.
    + intros Hn. done.
    + split; [|done]. intros _. split; [done|]. by apply Hblock.
Qed.

(** A task that the handler admitted does not fail in the driver for its
    command: with the tokeniser answering as at admission, once the
    resource gate is passed and the input staged, [Run] either succeeds or
    returns the wrapped error of the transcoder itself. *)
Theorem admitted_task_command_runs (w w' : World) (uuid : string) (now1 now2 : Z)
    (req : TaskRequest) (m m' : Manager) (t : Task) (cfg : Config) (fs : FS) :
  handleCreateTask w uuid now1 now2 req m = Some (202, m', Some t) ->
  Split w' (rCommand req) = Split w (rCommand req) ->
  Gate w' = None ->
  stage_err (prepareInput w' cfg fs (InputMedia t) (ID t)) = None ->
  err (Run w' cfg fs t) = None \/
  exists e, err (Run w' cfg fs t) = Some (Err.wrap "ffmpeg execution failed: " e).
Proof.
  intros Hadm Hsplit Hg Hst.
  assert (Command t = rCommand req /\ exists args, Split w (rCommand req) = inr args /\
            SanitizeAndValidateArgs args = None) as (Hcmd & args & Hs & Hv).
  { revert Hadm. unfold handleCreateTask, SplitCommand.
    destruct (String.eqb (rCommand req) "" || String.eqb (rOutputExt req) ""); [done|].
    destruct (Split w (rCommand req)) as [e|args]; [done|].
    destruct (SanitizeAndValidateArgs args) eqn:Hv; [done|].
    unfold Submit. destruct (100 <=? length (taskQueue m))%nat; [done|].
    intros Heq. injection Heq as _ <-. eauto. }
  apply validate_ok in Hv as [Hclean Hex].
  unfold Run. rewrite Hg.
  destruct (prepareInput w' cfg fs (InputMedia t) (ID t)) as [fs1 [[path c] oe]].
  unfold stage_err in *. simpl in Hst |- *. subst oe.
  unfold run_staged, SplitCommand. cbn [Command set_InputPath].
  rewrite Hcmd, Hsplit, Hs.
  rewrite (substitute_clean args path Hclean).
  destruct (substitute_exact_first args path Hex) as (l1 & l2 & _ & _ & ->).
  destruct (Exec w' _) as [outputLog [e|]] eqn:He; cbn [err]; [|by left].
  right. by exists e.
Qed.

End Admission.

(** ** The cleanup loop *)

Section Cleanup.
Import Strings Filepath Task Manager Reaper Spec.

(** [os.Remove] on the set of paths. *)
Lemma Remove_no_entries (fs : FS) (p : string) :
  no_entries fs p <->
  bool_decide (set_Exists (fun q => inside p q = true) fs) = false.
Proof.
  rewrite bool_decide_eq_false. unfold no_entries, set_Exists. split.
  - intros H (q & Hq & Hin). rewrite (H q Hq) in Hin. discriminate.
  - intros H q Hq. destruct (inside p q) eqn:E; [|done]. exfalso. eauto.
Qed.

Lemma Remove_subseteq (fs : FS) (p x : string) : x ∈ Runner.Remove fs p -> x ∈ fs.
Proof.
  unfold Runner.Remove. destruct (bool_decide _); [done|].
  by intros [? _]%elem_of_difference.
Qed.

Lemma Remove_other (fs : FS) (p x : string) :
  x ∈ fs -> x ∉ Runner.Remove fs p -> x = p.
Proof.
  unfold Runner.Remove. destruct (bool_decide _); [done|].
  intros Hx Hnot. destruct (decide (x = p)) as [|Hne]; [done|].
  exfalso. apply Hnot. apply elem_of_difference. split; [done|].
  by intros ?%elem_of_singleton.
Qed.

Lemma Remove_gone (fs : FS) (p : string) :
  no_entries fs p -> p ∉ Runner.Remove fs p.
Proof.
  intros Hn%Remove_no_entries. unfold Runner.Remove. rewrite Hn.
  intros [_ Hnot]%elem_of_difference. apply Hnot. by apply elem_of_singleton.
Qed.

Lemma no_entries_subseteq (fs fs' : FS) (p : string) :
  (forall x, x ∈ fs' -> x ∈ fs) -> no_entries fs p -> no_entries fs' p.
Proof. intros Hsub Hn q Hq. apply Hn. by apply Hsub. Qed.

Lemma reap_subseteq (lifetime now : Z) (fs : FS) (t : Task) (x : string) :
  x ∈ reap lifetime now fs t -> x ∈ fs.
Proof.
  unfold reap. destruct (expired lifetime now t); [|done].
  destruct (negb _); [apply Remove_subseteq|done].
Qed.

(** The callback run over a list of tasks: nothing appears; what goes is
    the output path of an expired task of the list; and the output path
    of such a task goes if nothing lies below it. *)
Lemma sweep_fold (lifetime now : Z) (l : list Task) (fs : FS) :
  (forall x, x ∈ foldl (reap lifetime now) fs l -> x ∈ fs) /\
  (forall x, x ∈ fs -> x ∉ foldl (reap lifetime now) fs l ->
     exists t, t ∈ l /\ expired lifetime now t = true /\
               OutputPath t <> "" /\ OutputPath t = x) /\
  (forall t, t ∈ l -> expired lifetime now t = true -> OutputPath t <> "" ->
     no_entries fs (OutputPath t) ->
     OutputPath t ∉ foldl (reap lifetime now) fs l).
Proof.
  revert fs. induction l as [|t0 l IH]; intros fs; cbn [foldl].
  - split; [done|]. split; [done|]. intros t Hin. by apply elem_of_nil in Hin.
  - destruct (IH (reap lifetime now fs t0)) as (IH1 & IH2 & IH3).
    split; [|split].
    + intros x Hx. by apply (reap_subseteq lifetime now fs t0), IH1.
    + intros x Hx Hnot.
      destruct (decide (x ∈ reap lifetime now fs t0)) as [Hin|Hout].
      * destruct (IH2 x Hin Hnot) as (t & Ht & Hrest). exists t. split; [|done].
        by apply elem_of_cons; right.
      * exists t0. split; [by apply elem_of_cons; left|].
        revert Hout. unfold reap. destruct (expired lifetime now t0); [|done].
        destruct (String.eqb_spec (OutputPath t0) "") as [|Hne]; simpl; [done|].
        intros Hout. split; [done|]. split; [done|].
        symmetry. by apply (Remove_other fs).
    + intros t Hin He Ho Hn. apply elem_of_cons in Hin as [->|Hin].
      * intros Hx. apply IH1 in Hx. revert Hx. unfold reap. rewrite He.
        destruct (String.eqb_spec (OutputPath t0) ""); [done|]. simpl.
        by apply Remove_gone.
      * apply IH3; try done.
        apply (no_entries_subseteq fs); [|done]. apply reap_subseteq.
Qed.

Lemma expired_spec (lifetime now : Z) (t : Task) :
  expired lifetime now t = true <->
  Status t = StatusCompleted /\ lifetime < now - CompletedAt t.
Proof.
  unfold expired. rewrite andb_true_iff, Z.gtb_lt.
  destruct (Status t); simpl; split; intros [? ?]; done.
Qed.

Lemma enumerates_elem (order : list Task) (m : Manager) (t : Task) :
  enumerates order m -> (t ∈ order <-> exists id, tasks m !! id = Some t).
Proof.
  intros Hp. unfold enumerates in Hp. rewrite Hp, list_elem_of_fmap. split.
  - intros ([id t0] & -> & Hin%elem_of_map_to_list). eauto.
  - intros (id & Hid). exists (id, t). split; [done|]. by apply elem_of_map_to_list.
Qed.


(** After the tick the output file of an expired task is no longer
    found, while the task is still answered as before: for a completed
    task whose completion lies more than the lifetime back and whose
    output path, the join of the temp root with a file name, has nothing
    below it, [Get] returns the task unchanged and [GetFilePath] refuses
    the file name with "file not found" (when [os.Stat] fails for no
    other reason). *)
Theorem reaped_artifact_not_found (w : World) (lifetime now : Z) (order : list Task)
    (m : Manager) (id filename : string) (t : Task) :
  enumerates order m ->
  tasks m !! id = Some t -> Status t = StatusCompleted ->
  lifetime < now - CompletedAt t ->
  filename <> "" -> no_sep filename = true ->
  OutputPath t = Join (TempDir (cfg m)) filename ->
  no_entries (disk m) (OutputPath t) ->
  StatFault w (OutputPath t) = None ->
  Get (sweep lifetime now order m) id = Some t /\
  GetFilePath w (sweep lifetime now order m) filename
  = ("", Some (Errorf "file not found")).
Proof.
  intros Henum Ht Hs Hl Hf Hn Ho Hne Hst. split; [done|].
  destruct (sweep_fold lifetime now order (disk m)) as (_ & _ & Hgone).
  assert (OutputPath t ∉ disk (sweep lifetime now order m)) as Hnot.
  { apply Hgone; try done.
    - apply (enumerates_elem order m t Henum). eauto.
    - by apply expired_spec.
    - rewrite Ho. by apply Join_nonempty. }
  unfold GetFilePath. rewrite Base_no_sep, String.eqb_refl by done. simpl negb. cbv iota.
  change (cfg (sweep lifetime now order m)) with (cfg m).
  rewrite <- Ho. unfold Stat. rewrite Hst. by rewrite bool_decide_eq_false_2.
Qed.

End Cleanup.

(** ** The bearer token *)

Section Bearer.
Import Strings Auth.

Lemma split_space_nonempty (s : string) : split_space s <> [].
Proof.
  induction s as [|a s IH]; simpl; [done|].
  destruct (Ascii.eqb a " "); [done|]. by destruct (split_space s).
Qed.

Lemma no_space_cons (a : ascii) (s : string) :
  no_space (String a s) = true -> Ascii.eqb a " " = false /\ no_space s = true.
Proof. unfold no_space. simpl. destruct (Ascii.eqb a " "); [discriminate|done]. Qed.

Lemma split_space_single (f : string) : no_space f = true -> split_space f = [f].
Proof.
  induction f as [|a f IH]; [done|].
  intros [Ha Hf]%no_space_cons. simpl. by rewrite Ha, IH.
Qed.

Lemma split_space_cons (x r : string) :
  no_space x = true -> split_space (x +:+ String " " r) = x :: split_space r.
Proof.
  induction x as [|a x IH].
  - intros _. rewrite append_nil_l. done.
  - intros [Ha Hx]%no_space_cons. rewrite append_cons. simpl. by rewrite Ha, IH.
Qed.

Lemma split_space_all (s : string) : Forall (fun c => no_space c = true) (split_space s).
Proof.
  induction s as [|a s IH]; simpl; [by repeat constructor|].
  destruct (Ascii.eqb a " ") eqn:Ha; [by constructor|].
  pose proof (split_space_nonempty s). destruct (split_space s) as [|h t]; [done|].
  inversion IH as [|? ? Hh Ht]; subst. constructor; [|done].
  unfold no_space in *. simpl. by rewrite Ha.
Qed.

(** Joining the parts with blanks gives the header back. *)
Lemma concat_split_space (s : string) : String.concat " " (split_space s) = s.
Proof.
  induction s as [|a s IH]; [done|]. simpl.
  pose proof (split_space_nonempty s) as Hne.
  destruct (Ascii.eqb_spec a " ") as [->|Ha].
  - destruct (split_space s) as [|h t]; [done|].
    change (String.concat " " ("" :: h :: t))
      with ("" +:+ " " +:+ String.concat " " (h :: t)).
    rewrite IH. reflexivity.
  - destruct (split_space s) as [|h t]; [done|]. rewrite <- IH.
    destruct t; reflexivity.
Qed.

Lemma lower_space (a : ascii) : Ascii.eqb (lower a) " " = Ascii.eqb a " ".
Proof. by destruct a as [[] [] [] [] [] [] [] []]. Qed.

Lemma ToLower_no_space (s : string) : no_space (ToLower s) = no_space s.
Proof.
  unfold no_space. f_equal. induction s as [|a s IH]; [done|].
  simpl. by rewrite lower_space, IH.
Qed.

Lemma ToLower_bearer_no_space (s : string) :
  ToLower s = "bearer" -> no_space s = true.
Proof. intros H. by rewrite <- ToLower_no_space, H. Qed.

(** The middleware lets a request pass exactly when authentication is
    off, or the header is a scheme that lower-cases to [bearer], one
    blank, and the configured key, the key holding no blank.  A configured
    key with a blank locks everybody out, and every refusal is a 401. *)
Theorem AuthMiddleware_passes_iff (cfg : AuthConfig) (authHeader : string) :
  (AuthMiddleware cfg authHeader = Next <->
   AuthEnable cfg = false \/
   exists scheme, ToLower scheme = "bearer" /\ no_space (AuthKey cfg) = true /\
                  authHeader = scheme +:+ " " +:+ AuthKey cfg) /\
  (AuthEnable cfg = true -> no_space (AuthKey cfg) = false ->
   AuthMiddleware cfg authHeader <> Next) /\
  (forall code message, AuthMiddleware cfg authHeader = Abort code message -> code = 401).
Proof.
  assert (AuthMiddleware cfg authHeader = Next <->
          AuthEnable cfg = false \/
          exists scheme, ToLower scheme = "bearer" /\ no_space (AuthKey cfg) = true /\
                         authHeader = scheme +:+ " " +:+ AuthKey cfg) as Hiff.
  { unfold AuthMiddleware. destruct (AuthEnable cfg); simpl; [|by split; auto].
    split.
    - destruct (String.eqb authHeader ""); [discriminate|].
      pose proof (concat_split_space authHeader) as Hjoin.
      pose proof (split_space_all authHeader) as Hall.
      destruct (split_space authHeader) as [|a [|b [|c l]]]; simpl; try discriminate.
      destruct (String.eqb_spec (ToLower a) "bearer") as [Ha|]; [|discriminate]. simpl.
      destruct (String.eqb_spec b (AuthKey cfg)) as [<-|]; [|discriminate]. simpl.
      intros _. right. exists a. split; [done|].
      inversion Hall as [|? ? _ Hb]; subst. inversion Hb; subst. split; [done|].
      reflexivity.
    - intros [?|(scheme & Hs & Hk & ->)]; [discriminate|].
      destruct (String.eqb_spec (scheme +:+ " " +:+ AuthKey cfg) "") as [Heq|_].
      { apply (f_equal String.length) in Heq. rewrite length_append in Heq.
        simpl in Heq. lia. }
      change (scheme +:+ " " +:+ AuthKey cfg) with (scheme +:+ String " " (AuthKey cfg)).
      rewrite split_space_cons by (by apply ToLower_bearer_no_space).
      rewrite split_space_single by done. simpl.
      by rewrite Hs, !String.eqb_refl. }
  split; [exact Hiff|]. split.
  - intros He Hk Hn. apply Hiff in Hn as [?|(scheme & _ & Hk' & _)]; congruence.
  - unfold AuthMiddleware. intros code message.
    repeat case_match; intros Heq; simplify_eq; reflexivity.
Qed.

End Bearer.

(** ** The properties above on concrete runs *)

Section ArtifactRuns.
Import Strings Filepath Task Runner Manager Handler Api Reaper Spec Scenario.

Lemma staging_accepts_iff_within_limit_witness :
  (stage_err (prepareInput (reporting 2 "abcdefgh") cfg0 ∅ "/media/a.mp4" "id1") = None <->
   2 <= MaxInputSize cfg0) /\
  (stage_err (prepareInput (happy "abcd") cfg0 ∅ "http://host/a.mp4" "id1") = None <->
   Z.of_nat (String.length "abcd") <= MaxInputSize cfg0).
Proof.
  assert (quiet (reporting 2 "abcdefgh")) as Hq1 by repeat split.
  assert (quiet (happy "abcd")) as Hq2 by repeat split.
  assert (opens (reporting 2 "abcdefgh") "/media/a.mp4" 2 "abcdefgh") as Ho.
  { split; [reflexivity|]. split; [reflexivity|]. eexists. repeat split. }
  assert (downloads (happy "abcd") "http://host/a.mp4" "abcd") as Hd.
  { split; [reflexivity|]. eexists. repeat split. }
  destruct (staging_accepts_iff_within_limit (reporting 2 "abcdefgh") cfg0 ∅
              "/media/a.mp4" "id1" "abcdefgh" 2 eq_refl Hq1) as [_ Hl].
  destruct (staging_accepts_iff_within_limit (happy "abcd") cfg0 ∅
              "http://host/a.mp4" "id1" "abcd" 4 eq_refl Hq2) as [Hu _].
  split; [exact (proj1 (Hl Ho)) | exact (proj1 (Hu Hd))].
Defined.

Lemma Run_success_artifact_witness :
  err (Run (happy "abc") cfg0 disk0 task1) = None /\
  "/tmp/ffwebapi_1/id1_output.mp4" ∈ files (Run (happy "abc") cfg0 disk0 task1).
Proof.
  split; [reflexivity|].
  assert (TempDir cfg0 <> "") as Hd by discriminate.
  exact (proj1 (proj2 (proj2 (Run_success_artifact (happy "abc") cfg0 disk0 task1
                                Hd eq_refl eq_refl eq_refl eq_refl eq_refl)))).
Defined.

Lemma processTask_output_iff_completed_witness :
  tasks (manager_with task1) !! "id1" = Some task1 /\
  exists t', tasks (processTask Run (happy "abc") 1 2 "id1" (manager_with task1)) !! "id1"
             = Some t' /\
             (OutputPath t' <> "" <-> Status t' = StatusCompleted).
Proof.
  split; [reflexivity|].
  apply (processTask_output_iff_completed (happy "abc") 1 2 "id1" (manager_with task1) task1);
    reflexivity.
Defined.

Lemma completed_task_file_found_witness :
  exists t2 m2,
    handleGetTaskStatus "https://ff.example/" false "localhost:8080"
      (processTask Run (happy "abc") 1 2 "id1" (manager_with task1)) "id1"
    = (200, m2, Some t2) /\
    Status t2 = StatusCompleted /\
    DownloadURL t2 = "https://ff.example/api/v1/files/id1_output.mp4" /\
    OutputPath t2 = "/tmp/ffwebapi_1/id1_output.mp4" /\
    OutputPath t2 ∈ disk m2 /\
    handleGetFile (happy "abc") m2 "id1_output.mp4" = File (OutputPath t2).
Proof.
  apply (completed_task_file_found (happy "abc") (happy "abc") 1 2 "id1"
           (manager_with task1) task1
           "https://ff.example/" "localhost:8080" false); try reflexivity.
  - discriminate.
  - discriminate.
  - eexists. split; [vm_compute; reflexivity|reflexivity].
Defined.

Lemma admitted_task_command_runs_witness :
  handleCreateTask (happy "abc") "u" 0 0
    (mkTaskRequest "-i ${INPUT_MEDIA}" "/media/a.mp4" "mp4") (NewManager cfg0 disk0)
  = Some (202, submitted, Some submitted_task) /\
  (err (Run (happy "abc") cfg0 disk0 submitted_task) = None \/
   exists e, err (Run (happy "abc") cfg0 disk0 submitted_task)
             = Some (Err.wrap "ffmpeg execution failed: " e)).
Proof.
  split; [reflexivity|].
  apply (admitted_task_command_runs (happy "abc") (happy "abc") "u" 0 0
           (mkTaskRequest "-i ${INPUT_MEDIA}" "/media/a.mp4" "mp4")
           (NewManager cfg0 disk0) submitted submitted_task cfg0 disk0); reflexivity.
Defined.

Lemma enumerates_completed : enumerates [completed_task] completed.
Proof. unfold enumerates. vm_compute. reflexivity. Qed.

Lemma no_entries_completed :
  no_entries (disk completed) "/tmp/ffwebapi_1/u_0_output.mp4".
Proof. apply Remove_no_entries. vm_compute. reflexivity. Qed.


Lemma reaped_artifact_not_found_witness :
  tasks completed !! "u_0" = Some completed_task /\
  "/tmp/ffwebapi_1/u_0_output.mp4" ∈ disk completed /\
  GetFilePath (happy "abc") (sweep 10 100 [completed_task] completed) "u_0_output.mp4"
  = ("", Some (Errorf "file not found")).
Proof.
  split; [apply completed_lookup|]. split; [vm_compute; reflexivity|].
  assert ("u_0_output.mp4" <> "") as Hne by discriminate.
  exact (proj2 (reaped_artifact_not_found (happy "abc") 10 100 [completed_task] completed
                  "u_0" "u_0_output.mp4" completed_task enumerates_completed
                  completed_lookup eq_refl eq_refl Hne eq_refl eq_refl
                  no_entries_completed eq_refl)).
Defined.

End ArtifactRuns.

(** ** Errors of the validator *)

Section ValidatorErrors.
Import Strings Cmd Spec.

Lemma validate_loop_inr (args : list string) (h : bool) (e : error) :
  validate_loop args h = inr e <->
  exists l1 tok l2,
    args = (l1 ++ tok :: l2)%list /\ forallb clean_token l1 = true /\
    clean_token tok = false /\
    e = Errorf ("disallowed character found in argument: " +:+ tok).
Proof.
  revert h. induction args as [|arg rest IH]; intros h; simpl.
  - split; [discriminate|]. intros (l1 & tok & l2 & Heq & _). by destruct l1.
  - unfold clean_token, is_sentinel in *.
    destruct (String.eqb arg InputMediaPlaceholder) eqn:Hs.
    + rewrite IH. split.
      * intros (l1 & tok & l2 & -> & Hc & Ht & ->).
        exists (arg :: l1), tok, l2. simpl. by rewrite Hs.
      * intros (l1 & tok & l2 & Heq & Hc & Ht & ->).
        destruct l1 as [|x l1]; simpl in *; injection Heq as <- ->.
        -- by rewrite Hs in Ht.
        -- rewrite Hs in Hc. simpl in Hc. eauto 10.
    + destruct (ContainsAny arg forbidden) eqn:Ha.
      * split.
        -- intros Heq. injection Heq as <-. exists [], arg, rest. simpl.
           by rewrite Hs, Ha.
        -- intros (l1 & tok & l2 & Heq & Hc & Ht & ->).
           destruct l1 as [|x l1]; simpl in *; injection Heq as <- ->; [done|].
           by rewrite Hs, Ha in Hc.
      * rewrite IH. split.
        -- intros (l1 & tok & l2 & -> & Hc & Ht & ->).
           exists (arg :: l1), tok, l2. simpl. by rewrite Hs, Ha.
        -- intros (l1 & tok & l2 & Heq & Hc & Ht & ->).
           destruct l1 as [|x l1]; simpl in *; injection Heq as <- ->.
           ++ by rewrite Hs, Ha in Ht.
           ++ rewrite Hs, Ha in Hc. simpl in Hc. eauto 10.
Qed.

(** The error of the validator: the first token that is not the
    placeholder and holds a metacharacter is reported, whether or not the
    placeholder occurs; the missing placeholder is reported only for an
    argument vector without such a token. *)
Theorem validate_error (args : list string) (e : error) :
  SanitizeAndValidateArgs args = Some e <->
  (exists l1 tok l2,
     args = (l1 ++ tok :: l2)%list /\
     (forall x, In x l1 -> x <> InputMediaPlaceholder -> ContainsAny x forbidden = false) /\
     tok <> InputMediaPlaceholder /\ ContainsAny tok forbidden = true /\
     e = Errorf ("disallowed character found in argument: " +:+ tok)) \/
  ((forall x, In x args -> x <> InputMediaPlaceholder -> ContainsAny x forbidden = false) /\
   ~ In InputMediaPlaceholder args /\
   e = Errorf "command must include the input placeholder '${INPUT_MEDIA}'").
Proof.
  assert (forall l, forallb clean_token l = true <->
                    forall x, In x l -> x <> InputMediaPlaceholder ->
                              ContainsAny x forbidden = false) as Hclean.
  { intros l. rewrite forallb_forall. split; intros H x Hx.
    - by apply clean_token_cases, H.
    - by apply clean_token_cases, H. }
  assert (forall tok, clean_token tok = false <->
                      tok <> InputMediaPlaceholder /\ ContainsAny tok forbidden = true)
    as Hbad.
  { intros tok. unfold clean_token, is_sentinel.
    destruct (String.eqb_spec tok InputMediaPlaceholder);
      destruct (ContainsAny tok forbidden); simpl; split; try done; intros []; done. }
  assert (forall l, existsb is_sentinel l = false <-> ~ In InputMediaPlaceholder l) as Hno.
  { intros l. rewrite <- not_true_iff_false, existsb_exists. split.
    - intros H Hin. apply H. exists InputMediaPlaceholder. split; [done|].
      apply String.eqb_refl.
    - intros H (x & Hx & Hs). apply String.eqb_eq in Hs. by subst x. }
  unfold SanitizeAndValidateArgs.
  destruct (validate_loop args false) as [b|e'] eqn:Hl.
  - apply validate_loop_inl in Hl as [Hc Hb]. simpl in Hb. subst b.
    destruct (existsb is_sentinel args) eqn:Hex.
    + split; [discriminate|]. intros [(l1 & tok & l2 & -> & _ & Ht1 & Ht2 & _)|(_ & Hn & _)].
      * rewrite forallb_app in Hc. apply andb_true_iff in Hc as [_ Hc]. simpl in Hc.
        apply andb_true_iff in Hc as [Hc _].
        assert (clean_token tok = false) by (by apply Hbad). congruence.
      * apply Hno in Hn. congruence.
    + split.
      * intros Heq. injection Heq as <-. right.
        split; [by apply Hclean|]. split; [by apply Hno|done].
      * intros [(l1 & tok & l2 & -> & _ & Ht1 & Ht2 & _)|(_ & _ & ->)]; [|done].
        rewrite forallb_app in Hc. apply andb_true_iff in Hc as [_ Hc]. simpl in Hc.
        apply andb_true_iff in Hc as [Hc _].
        assert (clean_token tok = false) by (by apply Hbad). congruence.
  - pose proof (proj1 (validate_loop_inr args false e') Hl)
      as (l1 & tok & l2 & Hargs & Hc & Ht & He).
    split.
    + intros Heq. injection Heq as <-. left. exists l1, tok, l2.
      split; [done|]. split; [by apply Hclean|]. apply Hbad in Ht as [? ?]. done.
    + intros [(k1 & tok' & k2 & Hargs' & Hc' & Ht1 & Ht2 & ->)|(Hall & _ & _)].
      * assert (validate_loop args false
                = inr (Errorf ("disallowed character found in argument: " +:+ tok')))
          as Hl'.
        { apply validate_loop_inr. exists k1, tok', k2.
          split; [done|]. split; [by apply Hclean|]. split; [by apply Hbad|done]. }
        congruence.
      * apply Hclean in Hall. rewrite Hargs, forallb_app in Hall.
        apply andb_true_iff in Hall as [_ Hall]. simpl in Hall.
        apply andb_true_iff in Hall as [Hall _]. congruence.
Qed.

End ValidatorErrors.

(** ** What stays of a task *)

Section RequestFields.
Import Strings Filepath Task Runner Manager Api Inv Sched Spec.

Lemma Run_same_request (w : World) (cfg : Config) (fs : FS) (t : Task) :
  same_request t (task (Run w cfg fs t)).
Proof. unfold Run, run_staged, same_request. repeat case_match; done. Qed.

Lemma same_request_refl (t : Task) : same_request t t.
Proof. done. Qed.

Lemma same_request_trans (t1 t2 t3 : Task) :
  same_request t1 t2 -> same_request t2 t3 -> same_request t1 t3.
Proof. unfold same_request. intros (?&?&?&?&?) (?&?&?&?&?). repeat split; congruence. Qed.

Lemma update_same_request (id0 id : string) (f : Task -> Task) (m : Manager) (t : Task) :
  (forall x, same_request x (f x)) -> tasks m !! id = Some t ->
  exists t', tasks (update id0 f m) !! id = Some t' /\ same_request t t'.
Proof.
  intros Hf Ht. rewrite lookup_update, Ht.
  destruct (decide (id0 = id)); simpl; eauto using same_request_refl.
Qed.

Lemma step_same_request (m m' : Manager) (id : string) (t : Task) :
  step Run m m' -> tasks m !! id = Some t ->
  exists t', tasks m' !! id = Some t' /\ same_request t t'.
Proof.
  intros Hstep Ht.
  destruct Hstep as [uuid now1 now2 command inputMedia outputExt m' t1 Hsub Hfresh
                    | uuid now1 now2 command inputMedia outputExt ts Hts Hfresh
                    | ids l1 l2 Hcalls Hroom | id0 | idr tr Htr Hqr
                    | idc l1 l2 Hcalls | ide l1 l2 Hcalls
                    | id0 q Hq Hh | id0 Hh Hsz | id0 Hpc | id0 Hpc Hck
                    | id0 Hpc Hck | now id0 Hpc | w now id0 Hpc].
  - apply Submit_inv in Hsub as (_ & _ & -> & _).
    rewrite lookup_insert_ne by congruence. eauto using same_request_refl.
  - manager_fields. rewrite lookup_insert_ne by congruence.
    eauto using same_request_refl.
  - eauto using same_request_refl.
  - destruct (Cancel_tasks m id0 id) as [->|(t0 & Ht0 & _ & _ & ->)];
      [eauto using same_request_refl|].
    rewrite Ht in Ht0. injection Ht0 as <-. eexists. split; [done|]. done.
  - eauto using same_request_refl.
  - cbn [tasks with_calls]. by apply update_same_request.
  - cbn [tasks with_calls]. by apply update_same_request.
  - eauto using same_request_refl.
  - eauto using same_request_refl.
  - cbn [tasks with_execs]. by apply update_same_request.
  - eauto using same_request_refl.
  - eauto using same_request_refl.
  - cbn [tasks with_execs pt_begin enter_driver]. unfold pt_begin.
    cbn [tasks enter_driver]. by apply update_same_request.
  - manager_fields. destruct (decide (id0 = id)) as [->|Hne].
    + unfold pt_finish. rewrite Ht. cbn [tasks with_disk with_tasks].
      rewrite lookup_insert_eq. eexists. split; [done|].
      pose proof (Run_same_request w (cfg m) (disk m) t) as Hr.
      unfold same_request in *. unfold classify.
      destruct (err _) as [e|]; [destruct (Err.is_ctx_err e)|]; exact Hr.
    + rewrite (pt_finish_other Run) by done. eauto using same_request_refl.
Qed.

(** A task is never removed from the table, and what was written at its
    submission (id, command, input, extension, creation time) is never
    changed by any action of the manager. *)
Theorem request_fields_kept (m m' : Manager) (id : string) (t : Task) :
  steps Run m m' -> tasks m !! id = Some t ->
  exists t', tasks m' !! id = Some t' /\ same_request t t'.
Proof.
  intros Hsteps Ht. induction Hsteps as [|m1 m2 _ (t1 & Ht1 & Hs1) Hstep].
  - eauto using same_request_refl.
  - destruct (step_same_request m1 m2 id t1 Hstep Ht1) as (t2 & Ht2 & Hs2).
    exists t2. split; [done|]. by apply (same_request_trans t t1 t2).
Qed.

(** In every state the manager can reach, each task is stored under its
    own id. *)
Theorem table_keyed_by_id (m : Manager) (id : string) (t : Task) :
  reachable Run m -> tasks m !! id = Some t -> ID t = id.
Proof.
  intros Hr. revert id t. induction Hr as [c fs|m m' Hr IH Hstep]; intros id t Ht.
  - simpl in Ht. by rewrite lookup_empty in Ht.
  - destruct (tasks m !! id) as [t0|] eqn:Ht0.
    + destruct (step_same_request m m' id t0 Hstep Ht0) as (t' & Ht' & (Hid & _)).
      rewrite Ht in Ht'. injection Ht' as <-. rewrite Hid. by apply IH.
    + destruct Hstep as [uuid now1 now2 command inputMedia outputExt m' t1 Hsub Hfresh
                        | uuid now1 now2 command inputMedia outputExt ts Hts Hfresh
                        | ids l1 l2 Hcalls Hroom | id0 | idr tr Htr Hqr
                        | idc l1 l2 Hcalls | ide l1 l2 Hcalls
                        | id0 q Hq Hh | id0 Hh Hsz | id0 Hpc | id0 Hpc Hck
                        | id0 Hpc Hck | now id0 Hpc | w now id0 Hpc];
        manager_fields; try congruence.
      * apply Submit_inv in Hsub as (_ & _ & Htt & _). rewrite Htt in Ht.
        destruct (decide (ID t1 = id)) as [<-|Hne].
        -- rewrite lookup_insert_eq in Ht. by injection Ht as <-.
        -- rewrite lookup_insert_ne in Ht by done. congruence.
      * destruct (decide (ID ts = id)) as [<-|Hne].
        -- rewrite lookup_insert_eq in Ht. by injection Ht as <-.
        -- rewrite lookup_insert_ne in Ht by done. congruence.
      * destruct (Cancel_tasks m id0 id) as [Heq|(t0 & Ht0' & _)]; congruence.
      * rewrite Ht0 in Ht. by destruct (decide (idc = id)).
      * rewrite Ht0 in Ht. by destruct (decide (ide = id)).
      * rewrite Ht0 in Ht. by destruct (decide (id0 = id)).
      * rewrite Ht0 in Ht. by destruct (decide (id0 = id)).
      * destruct (decide (id0 = id)) as [->|Hne].
        -- unfold pt_finish in Ht. rewrite Ht0 in Ht. congruence.
        -- rewrite (pt_finish_other Run) in Ht by done. congruence.
Qed.

Lemma request_fields_kept_witness :
  exists t', tasks (fst (Cancel Scenario.submitted "u_0")) !! "u_0" = Some t' /\
             same_request Scenario.submitted_task t'.
Proof.
  apply (request_fields_kept Scenario.submitted (fst (Cancel Scenario.submitted "u_0"))
           "u_0" Scenario.submitted_task).
  - eapply steps_next; [apply steps_refl|]. apply (step_cancel _ _ "u_0").
  - reflexivity.
Defined.

Lemma table_keyed_by_id_witness : ID Scenario.completed_task = "u_0".
Proof.
  apply (table_keyed_by_id Scenario.completed "u_0" Scenario.completed_task).
  - apply reachable_completed.
  - apply completed_lookup.
Defined.

End RequestFields.

(** ** A failed run *)

Section FailedRun.
Import Strings Filepath Task Runner Manager Spec Scenario.

Lemma strip_prefix_length (l1 l2 r : list string) :
  strip_prefix l1 l2 = Some r -> length l2 = (length l1 + length r)%nat.
Proof.
  revert l2. induction l1 as [|x l1 IH]; intros [|y l2]; simpl; try done.
  - by intros [= <-].
  - by intros [= <-].
  - destruct (String.eqb x y); [|done]. intros H. by rewrite (IH l2 H).
Qed.

(** A path does not lie below a path of the same depth. *)
Lemma inside_same_depth (p q : string) :
  length (elements p) = length (elements q) -> inside p q = false.
Proof.
  intros Hlen. unfold inside.
  destruct (strip_prefix (elements p) (elements q)) as [[|c rest]|] eqn:E;
    [by rewrite andb_false_r| |by rewrite andb_false_r].
  apply strip_prefix_length in E. simpl in E. lia.
Qed.

Lemma Join_depth (dir f : string) :
  dir <> "" -> normal f = true ->
  length (elements (Join dir f)) = S (length (elements dir)).
Proof.
  intros Hd Hf. unfold Join. destruct (String.eqb_spec dir ""); [done|]. simpl.
  destruct (Clean_elements (dir +:+ "/" +:+ f)) as [-> _].
  destruct (elements_snoc dir f Hd Hf) as [-> _]. rewrite length_app. simpl. lia.
Qed.

(** A failed run leaves no artifact.  For a task without output path,
    with a temp root that is not empty, an id, an extension and a temp
    file name without separator, and an output path below which nothing
    exists: when [Run] returns an error the task has no output path; the
    output file exists afterwards only if it existed before and the
    transcoder was never started; and after a failed run of the
    transcoder it does not exist. *)
Theorem Run_failure_no_artifact (w : World) (cfg : Config) (fs : FS) (t : Task)
    (e : error) :
  TempDir cfg <> "" -> no_sep (ID t) = true -> no_sep (Nonce w) = true ->
  no_sep (OutputExt t) = true -> OutputPath t = "" ->
  no_entries fs (Join (TempDir cfg) (output_name (ID t) (OutputExt t))) ->
  err (Run w cfg fs t) = Some e ->
  OutputPath (task (Run w cfg fs t)) = "" /\
  (Join (TempDir cfg) (output_name (ID t) (OutputExt t)) ∈ files (Run w cfg fs t) ->
   Join (TempDir cfg) (output_name (ID t) (OutputExt t)) ∈ fs /\
   logOutput (Run w cfg fs t) = "") /\
  ((exists e', e = Err.wrap "ffmpeg execution failed: " e') ->
   Join (TempDir cfg) (output_name (ID t) (OutputExt t)) ∉ files (Run w cfg fs t)).
Proof.
  intros Hd Hid Hn He Hout Hempty.
  pose proof (input_output_differ (TempDir cfg) (ID t) (Nonce w) (OutputExt t)
                Hd Hid Hn He) as Hdiff.
  pose proof (output_name_normal (ID t) (OutputExt t) Hid He) as Hon.
  pose proof (input_name_normal (ID t) (Nonce w) Hid Hn) as Hin.
  unfold Run.
  destruct (Gate w) as [g|].
  { simpl. intros [= <-]. split; [done|]. split; [done|]. intros (e' & He'). discriminate. }
  pose proof (prepareInput_shape w cfg fs (InputMedia t) (ID t)) as Hf.
  destruct (CreateTempErr w) as [c|].
  { rewrite Hf. simpl. intros [= <-]. split; [done|]. split; [done|].
    intros (e' & He'). discriminate. }
  destruct Hf as (path & oe & -> & Hpath).
  destruct oe as [s|].
  { simpl. intros [= <-]. split; [done|]. split.
    - intros [Hx%elem_of_singleton|Hx]%elem_of_union; [|done]. by destruct Hdiff.
    - intros (e' & He'). discriminate. }
  subst path. unfold run_staged, SplitCommand.
  destruct (Split w (Command _)) as [s|args].
  { simpl. intros [= <-]. split; [done|]. split.
    - intros [[Hx%elem_of_singleton|Hx]%elem_of_union _]%elem_of_difference; [|done].
      by destruct Hdiff.
    - intros (e' & He'). discriminate. }
  destruct (substitute args _) as [args1|].
  2:{ simpl. intros [= <-]. split; [done|]. split.
      - intros [[Hx%elem_of_singleton|Hx]%elem_of_union _]%elem_of_difference; [|done].
        by destruct Hdiff.
      - intros (e' & He'). discriminate. }
  destruct (Exec w _) as [outputLog [x|]]; [|discriminate].
  cbn [task files err logOutput InputPath OutputPath set_OutputPath set_InputPath
       ID OutputExt run_cleanup].
  fold (output_name (ID t) (OutputExt t)).
  set (out := Join (TempDir cfg) (output_name (ID t) (OutputExt t))) in *.
  set (inp := TempDir cfg +:+ "/" +:+ ID t +:+ "_input_" +:+ Nonce w) in *.
  intros _. split; [done|].
  assert (inside out out = false) as Hself by (by apply inside_same_depth).
  assert (inside out inp = false) as Hsib.
  { apply inside_same_depth. unfold out, inp. rewrite Join_depth by done.
    destruct (elements_snoc (TempDir cfg) _ Hd Hin) as [-> _].
    rewrite length_app. simpl. lia. }
  assert (forall fs1 : FS, (forall q, q ∈ fs1 -> q = out \/ q = inp \/ q ∈ fs) ->
                           out ∉ Remove fs1 out ∖ ({[inp]} : FS)) as Hgone.
  { intros fs1 Hfs1 [Hx _]%elem_of_difference. revert Hx. apply Remove_gone.
    intros q Hq. destruct (Hfs1 q Hq) as [->|[->|Hq']]; [done|done|by apply Hempty]. }
  assert (out ∉ Remove (if ExecWrites w then {[out]} ∪ ({[inp]} ∪ fs) else {[inp]} ∪ fs) out
                  ∖ ({[inp]} : FS)) as Hnot.
  { apply Hgone. intros q. destruct (ExecWrites w);
      rewrite ?elem_of_union, ?elem_of_singleton; tauto. }
  split; [by intros Hx|]. by intros _.
Qed.

Lemma Run_failure_no_artifact_witness :
  err (Run (canceled_during_run (Foreign "signal: killed")) cfg0 disk0 task1)
  = Some (Err.wrap "ffmpeg execution failed: " (Foreign "signal: killed")) /\
  OutputPath (task (Run (canceled_during_run (Foreign "signal: killed")) cfg0 disk0 task1))
  = "" /\
  ("/tmp/ffwebapi_1/id1_output.mp4"
   ∉ files (Run (canceled_during_run (Foreign "signal: killed")) cfg0 disk0 task1)).
Proof.
  split; [reflexivity|].
  assert (TempDir cfg0 <> "") as Hd by discriminate.
  assert (no_entries disk0 (Join (TempDir cfg0)
                              (output_name (ID task1) (OutputExt task1)))) as Hn.
  { apply Remove_no_entries. vm_compute. reflexivity. }
  destruct (Run_failure_no_artifact (canceled_during_run (Foreign "signal: killed"))
              cfg0 disk0 task1 _ Hd eq_refl eq_refl eq_refl eq_refl Hn eq_refl)
    as (Ho & _ & Hgone).
  split; [exact Ho|]. apply Hgone. by eexists.
Defined.

Lemma Run_releases_staged_input_witness :
  "/tmp/ffwebapi_1/id1_input_42"
  ∉ files (Run (canceled_during_run (Foreign "signal: killed")) cfg0 disk0 task1).
Proof.
  apply (Run_releases_staged_input (canceled_during_run (Foreign "signal: killed"))
           cfg0 disk0 ({["/tmp/ffwebapi_1/id1_input_42"]} ∪ disk0) task1
           "/tmp/ffwebapi_1/id1_input_42" (Some "/tmp/ffwebapi_1/id1_input_42"));
    reflexivity.
Defined.

End FailedRun.

(** ** Cancelling over HTTP *)

Section CancelRequest.
Import Strings Task Manager Api Scenario.

Lemma with_tasks_insert_id (m : Manager) (id : string) (t : Task) :
  tasks m !! id = Some t -> with_tasks (insert id t) m = m.
Proof.
  intros Ht. destruct m as [c ts q h ex cs dc fs cl]. unfold with_tasks. simpl in *.
  by rewrite insert_id.
Qed.

(** A cancel request for a waiting task is answered 200; a status request
    then shows the task canceled, with the text that tells it was
    canceled in the queue and without a download URL being written, and
    a second cancel request is answered 400 and changes nothing. *)
Theorem cancel_queued_over_http (m : Manager) (id baseURL host : string) (tls : bool)
    (t : Task) :
  tasks m !! id = Some t -> Status t = StatusQueued ->
  exists m1 t1,
    handleCancelTask m id = (200, m1) /\
    handleGetTaskStatus baseURL tls host m1 id = (200, m1, Some t1) /\
    Status t1 = StatusCanceled /\
    Error t1 = "Canceled by user while in queue" /\
    DownloadURL t1 = DownloadURL t /\
    handleCancelTask m1 id = (400, m1).
Proof.
  intros Ht Hs.
  set (t1 := set_Error "Canceled by user while in queue" (set_Status StatusCanceled t)).
  set (m1 := update id (fun t => set_Error "Canceled by user while in queue"
                                   (set_Status StatusCanceled t)) m).
  assert (tasks m1 !! id = Some t1) as Ht1.
  { unfold m1. rewrite lookup_update, Ht. by destruct (decide (id = id)). }
  exists m1, t1. split; [|split; [|split; [|split; [|split]]]]; try done.
  - unfold handleCancelTask, Cancel. by rewrite Ht, Hs.
  - unfold handleGetTaskStatus, Get. rewrite Ht1.
    assert (buildDownloadURL baseURL tls host t1 = t1) as -> by done.
    by rewrite with_tasks_insert_id.
  - unfold handleCancelTask, Cancel. by rewrite Ht1.
Qed.

Lemma cancel_queued_over_http_witness :
  exists m1 t1,
    handleCancelTask submitted "u_0" = (200, m1) /\
    handleGetTaskStatus "" false "localhost:8080" m1 "u_0" = (200, m1, Some t1) /\
    Status t1 = StatusCanceled /\
    Error t1 = "Canceled by user while in queue" /\
    DownloadURL t1 = DownloadURL submitted_task /\
    handleCancelTask m1 "u_0" = (400, m1).
Proof.
  apply (cancel_queued_over_http submitted "u_0" "" "localhost:8080" false submitted_task);
    reflexivity.
Defined.

End CancelRequest.
